(** * starcoder: a shallow embedding of [starcoder/fields.py] and of
    [GraphAutoencoder] in [starcoder/ensemble.py].

    The field codecs of [fields.py] are embedded in module [Fields]; the
    construction ([__init__]) and the forward computation ([forward]) of
    [GraphAutoencoder] in module [Ensemble].  Python exceptions are values of
    [pyexn] carried by the error monad [result]; Python dictionaries are
    [gmap]s; the neural components of [starcoder/models.py] (not part of the
    sources at hand) are fields of the model record, taken as arbitrary
    functions that may themselves raise. *)

From Stdlib Require Import ZArith Ascii String SpecFloat Sorted.
From stdpp Require Import gmap strings list fin_maps.

Local Open Scope Z_scope.
Local Open Scope nat_scope.

(** ** Python exceptions and the error monad *)

Inductive pyexn : Type :=
  | KeyError | TypeError | ValueError | IndexError | AttributeError
  | RuntimeError | OverflowError | Exception.

Inductive result (A : Type) : Type :=
  | Ok (a : A)
  | Raise (e : pyexn).
Arguments Ok {A} a.
Arguments Raise {A} e.

#[global] Instance result_ret : MRet result := fun _ a => Ok a.
#[global] Instance result_bind : MBind result := fun _ _ f m =>
  match m with Ok a => f a | Raise e => Raise e end.
#[global] Instance result_fmap : FMap result := fun _ _ f m =>
  match m with Ok a => Ok (f a) | Raise e => Raise e end.

Definition is_ok {A} (r : result A) : bool :=
  match r with Ok _ => true | Raise _ => false end.

(** [d[k]] on a dictionary: [KeyError] when the key is absent. *)
Definition getitem `{Countable K} {V} (d : gmap K V) (k : K) : result V :=
  match d !! k with Some v => Ok v | None => Raise KeyError end.

(** ** fields.py *)

Module Fields.

(** *** Python numbers, as far as [NumericField] looks at them

    A raw value handed to [NumericField._observe_value] is an [int], a
    [float] or a [str].  Floats are IEEE binary64 values ([spec_float] with
    [prec = 53], [emax = 1024]). *)

Inductive raw : Type :=
  | RInt (z : Z)
  | RFloat (f : spec_float)
  | RStr (s : string).

(** What [max_val] / [min_val] can hold besides [None]: the float [retval]
    or, through [max(self.max_val, v)], the raw object [v] itself. *)
Inductive pynum : Type :=
  | PyInt (z : Z)
  | PyFloat (f : spec_float).

Definition prec64 : Z := 53%Z.
Definition emax64 : Z := 1024%Z.

(** [float(z)] for an [int]: round to nearest, ties to even;
    [OverflowError] when the result is not finite. *)
Definition float_of_int (z : Z) : result spec_float :=
  match binary_normalize prec64 emax64 z 0%Z false with
  | S754_infinity _ => Raise OverflowError
  | f => Ok f
  end.

(** Python compares an [int] with a [float] exactly (no rounding of the
    [int]); a NaN is unordered. *)
Definition cmp_int_float (z : Z) (f : spec_float) : option comparison :=
  match f with
  | S754_nan => None
  | S754_zero _ => Some (z ?= 0)%Z
  | S754_infinity s => Some (if s then Gt else Lt)
  | S754_finite s m e =>
      let v := if s then Z.neg m else Z.pos m in
      if (0 <=? e)%Z then Some (z ?= v * 2 ^ e)%Z
      else Some (z * 2 ^ (- e) ?= v)%Z
  end.

(** [a > b] and [a < b] on numbers. *)
Definition num_gt (a b : pynum) : bool :=
  match a, b with
  | PyInt x, PyInt y => (y <? x)%Z
  | PyFloat x, PyFloat y => SFltb y x
  | PyInt x, PyFloat y =>
      match cmp_int_float x y with Some Gt => true | _ => false end
  | PyFloat x, PyInt y =>
      match cmp_int_float y x with Some Lt => true | _ => false end
  end.

Definition num_lt (a b : pynum) : bool := num_gt b a.

Section Numeric.

(** [float(s)] for a [str]: the parser is CPython's, taken as given;
    [None] stands for [ValueError]. *)
Variable float_of_str : string → option spec_float.

Definition py_float (v : raw) : result spec_float :=
  match v with
  | RInt z => float_of_int z
  | RFloat f => Ok f
  | RStr s => match float_of_str s with
              | Some f => Ok f
              | None => Raise ValueError
              end
  end.

(** [max(cur, v)]: the builtin keeps its first argument unless a later one
    is strictly greater; ordering a [float] or [int] against a [str] raises
    [TypeError]. *)
Definition py_max (cur : pynum) (v : raw) : result pynum :=
  match v with
  | RInt z => Ok (if num_gt (PyInt z) cur then PyInt z else cur)
  | RFloat f => Ok (if num_gt (PyFloat f) cur then PyFloat f else cur)
  | RStr _ => Raise TypeError
  end.

Definition py_min (cur : pynum) (v : raw) : result pynum :=
  match v with
  | RInt z => Ok (if num_lt (PyInt z) cur then PyInt z else cur)
  | RFloat f => Ok (if num_lt (PyFloat f) cur then PyFloat f else cur)
  | RStr _ => Raise TypeError
  end.

(** class NumericField: [empty] (from [Field.__init__]), [max_val],
    [min_val]. *)
Record NumericField : Type := mkNumericField {
  nf_empty : bool;
  max_val : option pynum;
  min_val : option pynum }.

Definition NumericField_init : NumericField :=
  {| nf_empty := true; max_val := None; min_val := None |}.

(** [Field.observe_value] followed by [NumericField._observe_value]
    (fields.py:34-36, 77-85).  The object is mutated statement by statement,
    so an exception leaves the assignments made before it in place; the
    handler logs and re-raises. *)
Definition NumericField_observe_value (self : NumericField) (v : raw)
  : NumericField * result spec_float :=
  let self := {| nf_empty := false; max_val := max_val self;
                 min_val := min_val self |} in
  match py_float v with
  | Raise e => (self, Raise e)
  | Ok retval =>
      match (match max_val self with
             | None => Ok (PyFloat retval)
             | Some m => py_max m v
             end) with
      | Raise e => (self, Raise e)
      | Ok mx =>
          let self := {| nf_empty := nf_empty self; max_val := Some mx;
                         min_val := min_val self |} in
          match (match min_val self with
                 | None => Ok (PyFloat retval)
                 | Some m => py_min m v
                 end) with
          | Raise e => (self, Raise e)
          | Ok mn =>
              ({| nf_empty := nf_empty self; max_val := max_val self;
                  min_val := Some mn |}, Ok retval)
          end
      end
  end.

End Numeric.

(** *** The codecs that keep lookup tables *)

(** Keys of [CategoricalField._lookup]: [__init__] creates two distinct
    [Missing()] objects, one used as the key of index 0 and one stored as
    the value decoded from index 0; [Missing] defines neither [__eq__] nor
    [__hash__], so each is equal to itself only. *)
Inductive ckey (K : Type) : Type :=
  | MissingKey
  | MissingVal
  | RawKey (v : K).
Arguments MissingKey {K}.
Arguments MissingVal {K}.
Arguments RawKey {K} v.

#[global] Instance ckey_eq_dec `{EqDecision K} : EqDecision (ckey K).
Proof. solve_decision. Defined.

#[global] Instance ckey_countable `{Countable K} : Countable (ckey K).
Proof.
  refine (inj_countable'
    (fun k => match k with
              | MissingKey => inl false
              | MissingVal => inl true
              | RawKey v => inr v
              end)
    (fun s => match s with
              | inl false => MissingKey
              | inl true => MissingVal
              | inr v => RawKey v
              end) _).
  intros []; reflexivity.
Defined.

Section Codecs.

Context `{Countable K}.

(** [d.setdefault(k, len(d))]: the dictionary afterwards and the value
    returned. *)
Definition setdefault_len {X} `{Countable X} (d : gmap X nat) (k : X)
  : gmap X nat * nat :=
  match d !! k with
  | Some i => (d, i)
  | None => (<[k := size d]> d, size d)
  end.

(** class Field / MetaField / DataField / IntegerField / DateField: the
    only accumulated state is [empty]; [observe_value] clears it. *)
Record Field : Type := mkField { f_empty : bool }.

Definition Field_init : Field := {| f_empty := true |}.

Definition Field_observe_value {V} (self : Field) (v : V) : Field :=
  {| f_empty := false |}.

(** class CategoricalField (fields.py:146-175). *)
Record CategoricalField : Type := mkCategoricalField {
  cf_empty : bool;
  cf_lookup : gmap (ckey K) nat;
  cf_rlookup : gmap nat (ckey K) }.

Definition CategoricalField_init : CategoricalField :=
  {| cf_empty := true;
     cf_lookup := {[ MissingKey := 0 ]};
     cf_rlookup := {[ 0 := MissingVal ]} |}.

Definition CategoricalField_observe_value (self : CategoricalField) (v : K)
  : CategoricalField :=
  let '(lk, i) := setdefault_len (cf_lookup self) (RawKey v) in
  {| cf_empty := false;
     cf_lookup := lk;
     cf_rlookup := <[i := RawKey v]> (cf_rlookup self) |}.

(** [self._lookup.get(v, None)]. *)
Definition CategoricalField_encode (self : CategoricalField) (v : ckey K)
  : option nat :=
  cf_lookup self !! v.

(** [decode] on an index ([int], or a tensor already reduced to one). *)
Definition CategoricalField_decode (self : CategoricalField) (i : nat)
  : result (ckey K) :=
  match cf_rlookup self !! i with
  | None => Raise Exception
  | Some v => Ok v
  end.

(** class SequentialField (fields.py:179-224).  Keys are the observed
    elements and Python's [None]. *)
Record SequentialField : Type := mkSequentialField {
  sf_empty : bool;
  sf_lookup : gmap (option K) nat;
  sf_rlookup : gmap nat (option K);
  max_length : nat }.

Definition SequentialField_init : SequentialField :=
  {| sf_empty := true;
     sf_lookup := {[ None := 0 ]};
     sf_rlookup := {[ 0 := None ]};
     max_length := 0 |}.

(** The loop body of [_observe_value]. *)
Definition observe_element (t : gmap (option K) nat * gmap nat (option K))
  (v : K) : gmap (option K) nat * gmap nat (option K) :=
  let '(lk, i) := setdefault_len (fst t) (Some v) in
  (lk, <[i := Some v]> (snd t)).

Definition SequentialField_observe_value (self : SequentialField)
  (vs : list K) : SequentialField :=
  let t := foldl observe_element (sf_lookup self, sf_rlookup self) vs in
  {| sf_empty := false;
     sf_lookup := fst t;
     sf_rlookup := snd t;
     max_length := Nat.max (length vs) (max_length self) |}.

(** [[self._lookup[e] for e in v]]: [KeyError] on an unseen element. *)
Definition SequentialField_encode (self : SequentialField) (v : list K)
  : result (list nat) :=
  mapM (fun e => getitem (sf_lookup self) (Some e)) v.

(** [decode] (fields.py:217-221).  The comprehension's filter
    [e not in [Missing.value, Unknown.value]] is evaluated for the first
    element of [v]: class [Missing] (fields.py:10) has no attribute [value]
    and the name [Unknown] is bound nowhere in the module, so building that
    list raises; the bare [except] turns it into [Exception].  Only for an
    empty [v] is the filter never evaluated, and the result is the empty
    string. *)
Definition SequentialField_decode (self : SequentialField) (v : list nat)
  : result string :=
  match v with
  | [] => Ok EmptyString
  | _ :: _ => Raise Exception
  end.

(** class CharacterField (fields.py:252-276): [SequentialField] with the
    length kept in [max_observed_length]. *)
Record CharacterField : Type := mkCharacterField {
  chf_empty : bool;
  chf_lookup : gmap (option K) nat;
  chf_rlookup : gmap nat (option K);
  max_observed_length : nat }.

Definition CharacterField_init : CharacterField :=
  {| chf_empty := true;
     chf_lookup := {[ None := 0 ]};
     chf_rlookup := {[ 0 := None ]};
     max_observed_length := 0 |}.

Definition CharacterField_observe_value (self : CharacterField)
  (vs : list K) : CharacterField :=
  let t := foldl observe_element (chf_lookup self, chf_rlookup self) vs in
  {| chf_empty := false;
     chf_lookup := fst t;
     chf_rlookup := snd t;
     max_observed_length := Nat.max (length vs) (max_observed_length self) |}.

(** class DistributionField (fields.py:115-144): [categories] is a list,
    appended to in the order categories are first seen.  The observed
    value is a dictionary; only its keys are looked at. *)
Record DistributionField : Type := mkDistributionField {
  df_empty : bool;
  categories : list K }.

Definition DistributionField_init : DistributionField :=
  {| df_empty := true; categories := [] |}.

Definition observe_category (cats : list K) (k : K) : list K :=
  if decide (k ∈ cats) then cats else cats ++ [k].

Definition DistributionField_observe_value {V} (self : DistributionField)
  (v : list (K * V)) : DistributionField :=
  {| df_empty := false;
     categories := foldl observe_category (categories self) (v.*1) |}.

End Codecs.

(** *** Notions used to state properties of the codecs *)

Section Writes.

Context {V : Type}.

(** A table after a sequence of assignments [r[i] = v], and the value the
    last assignment to [i] stored, if any. *)
Definition apply_writes (r : gmap nat V) (ws : list (nat * V)) : gmap nat V :=
  foldl (fun r w => <[w.1 := w.2]> r) r ws.

Definition last_write (ws : list (nat * V)) (i : nat) : option V :=
  foldl (fun acc w => if decide (w.1 = i) then Some w.2 else acc) None ws.

End Writes.

Section CodecStates.

Context `{Countable K}.

(** The assignments to [_rlookup] made while observing [vs], read off the
    lookup table [lk] as it stands afterwards. *)
Definition element_writes (lk : gmap (option K) nat) (vs : list K)
  : list (nat * option K) :=
  (fun v => (default 0 (lk !! Some v), Some v)) <$> vs.

(** The states a field can be in: freshly built, then any observations. *)
Inductive cat_reachable : CategoricalField (K:=K) → Prop :=
  | cat_reach_init : cat_reachable CategoricalField_init
  | cat_reach_observe self v :
      cat_reachable self →
      cat_reachable (CategoricalField_observe_value self v).

(** Indices are below the table size, and every key but the initial
    [Missing()] is what its index decodes to. *)
Definition cat_inv (self : CategoricalField (K:=K)) : Prop :=
  ∀ k i, cf_lookup self !! k = Some i →
         i < size (cf_lookup self) ∧
         (k = MissingKey ∨ cf_rlookup self !! i = Some k).

End CodecStates.

(** *** Lengths and series of observations *)

Section Histories.

Context `{Countable K}.

(** [__len__]: [len(self._lookup)] (fields.py:174-175, 223-224,
    275-276). *)
Definition CategoricalField_len (self : CategoricalField (K:=K)) : nat :=
  size (cf_lookup self).

Definition SequentialField_len (self : SequentialField (K:=K)) : nat :=
  size (sf_lookup self).

Definition CharacterField_len (self : CharacterField (K:=K)) : nat :=
  size (chf_lookup self).

(** [observe_value] called on each value of a list in turn, starting from
    a freshly constructed field. *)
Definition CategoricalField_observed (vs : list K)
  : CategoricalField (K:=K) :=
  foldl CategoricalField_observe_value CategoricalField_init vs.

Definition SequentialField_observed (vss : list (list K))
  : SequentialField (K:=K) :=
  foldl SequentialField_observe_value SequentialField_init vss.

Definition CharacterField_observed (vss : list (list K))
  : CharacterField (K:=K) :=
  foldl CharacterField_observe_value CharacterField_init vss.

(** What every observation keeps true of a [CategoricalField]: the two
    [Missing()] objects stay at index 0; raw values have indices from 1
    up to the table size, each decoding to its value; every index below
    the table size decodes, and to a key with that index unless it is 0. *)
Definition cat_wf (self : CategoricalField (K:=K)) : Prop :=
  0 < size (cf_lookup self) ∧
  cf_lookup self !! MissingKey = Some 0 ∧
  cf_lookup self !! MissingVal = None ∧
  cf_rlookup self !! 0 = Some MissingVal ∧
  (∀ v i, cf_lookup self !! RawKey v = Some i →
     0 < i ∧ i < size (cf_lookup self) ∧
     cf_rlookup self !! i = Some (RawKey v)) ∧
  (∀ i k, cf_rlookup self !! i = Some k →
     i < size (cf_lookup self) ∧ (i = 0 ∨ cf_lookup self !! k = Some i)) ∧
  (∀ i, i < size (cf_lookup self) → is_Some (cf_rlookup self !! i)).

(** The same for the tables of a [SequentialField] or [CharacterField],
    where index 0 belongs to [None] on both sides. *)
Definition seq_wf (lk : gmap (option K) nat) (rl : gmap nat (option K))
  : Prop :=
  lk !! None = Some 0 ∧
  (∀ k i, lk !! k = Some i → i < size lk ∧ rl !! i = Some k) ∧
  (∀ i k, rl !! i = Some k → lk !! k = Some i).

(** The two tables of a [SequentialField] or [CharacterField] after the
    loop of [_observe_value] has run over the elements [es], starting from
    the tables [__init__] builds. *)
Definition seq_tables (es : list K)
  : gmap (option K) nat * gmap nat (option K) :=
  foldl observe_element ({[ None := 0 ]}, {[ 0 := None ]}) es.

(** [CharacterField.encode] and [decode] (fields.py:267-274), the same
    statements as in [SequentialField]. *)
Definition CharacterField_encode (self : CharacterField (K:=K))
  (v : list K) : result (list nat) :=
  mapM (fun e => getitem (chf_lookup self) (Some e)) v.

Definition CharacterField_decode (self : CharacterField (K:=K))
  (v : list nat) : result string :=
  match v with
  | [] => Ok EmptyString
  | _ :: _ => Raise Exception
  end.

Definition DistributionField_observed {V} (vs : list (list (K * V)))
  : DistributionField (K:=K) :=
  foldl DistributionField_observe_value DistributionField_init vs.

End Histories.

Section NumericHistories.

Variable float_of_str : string → option spec_float.

(** The object after [observe_value] has been called on each value of a
    list in turn, whether or not a call raised. *)
Definition NumericField_observe_all (self : NumericField) (vs : list raw)
  : NumericField :=
  foldl (fun s v => (NumericField_observe_value float_of_str s v).1) self vs.

End NumericHistories.

End Fields.

(** ** ensemble.py *)

Module Ensemble.

(** Monadic left fold: a [for] loop whose body may raise. *)
Fixpoint foldlM {A B} (f : B → A → result B) (b : B) (l : list A)
  : result B :=
  match l with
  | [] => Ok b
  | x :: l' => b' ← f b x; foldlM f b' l'
  end.

(** What the orchestrator itself does with tensor entries: it writes
    zeros, tests for NaN after summing a row, and tests a leading token
    against zero.  Everything else happens inside the neural components.
    Entries are kept abstract; IEEE floats satisfy the three laws. *)
Class Scalar (R : Type) : Type := {
  s_zero : R;
  s_add : R → R → R;
  s_isnan : R → bool;
  s_nonzero : R → bool;
  s_zero_not_nan : s_isnan s_zero = false;
  s_add_nan_l : ∀ x y, s_isnan x = true → s_isnan (s_add x y) = true;
  s_add_nan_r : ∀ x y, s_isnan y = true → s_isnan (s_add x y) = true }.

(** Modelled from the spec: the Schema, EntityType, FieldSpec and
    RelationSpec of the data model (the schema classes are not among the
    sources).  The dictionaries [data_fields], [entity_types] and
    [relation_fields] are listed in iteration order; [f_class] is the
    Python class of the field object, which keys the registry. *)
Inductive field_class : Type :=
  | NumericFieldC | DistributionFieldC | CategoricalFieldC
  | SequentialFieldC | IntegerFieldC | DateFieldC | OtherFieldC (n : string).

Record FieldSpec : Type := mkFieldSpec {
  f_name : string;
  f_class : field_class;
  type_name : string }.

Record EntityType : Type := mkEntityType {
  et_name : string;
  data_fields : list string;
  relation_fields : list string;
  reverse_relation_fields : list string }.

Record RelationSpec : Type := mkRelationSpec {
  r_name : string;
  source_entity_type : string;
  target_entity_type : string }.

Record Schema : Type := mkSchema {
  s_data_fields : list FieldSpec;
  s_entity_types : list EntityType;
  s_relation_fields : list RelationSpec }.

Section Tensors.

Context {R : Type} `{Scalar R}.

(** *** Tensors

    A two-dimensional tensor of shape [(length t_rows, t_cols)]; every row
    of a tensor has [t_cols] entries ([tensor_wf]).  A one-dimensional
    column of shape [(N,)] is read as [(N, 1)].  Masks are [list bool],
    index tensors [list nat]. *)
Record tensor : Type := mkTensor {
  t_cols : nat;
  t_rows : list (list R) }.

Definition nrows (t : tensor) : nat := length (t_rows t).

Definition tensor_wf (t : tensor) : Prop :=
  Forall (fun r => length r = t_cols t) (t_rows t).

(** [torch.zeros(size=(n, c))], [torch.full(size=(n, c), fill_value=0.0)]. *)
Definition zeros (n c : nat) : tensor :=
  mkTensor c (replicate n (replicate c s_zero)).

Definition lookup_row (rows : list (list R)) (i : nat) : result (list R) :=
  match rows !! i with
  | Some r => Ok r
  | None => Raise IndexError
  end.

(** [torch.index_select(t, 0, idx)]. *)
Definition index_select (t : tensor) (idx : list nat) : result tensor :=
  rows ← mapM (lookup_row (t_rows t)) idx;
  Ok (mkTensor (t_cols t) rows).

(** [t[idx] = v] for an index tensor [idx].  The value must have one row
    per index and the width of [t]; shapes torch would reconcile by
    broadcasting a singleton dimension are outside the contracts of the
    batch and of the components, and are reported as shape errors. *)
Definition index_put (t : tensor) (idx : list nat) (v : tensor)
  : result tensor :=
  if negb ((t_cols v =? t_cols t) && (nrows v =? length idx))
  then Raise RuntimeError
  else if negb (forallb (fun i => i <? nrows t) idx)
  then Raise IndexError
  else Ok (mkTensor (t_cols t)
             (foldl (fun rows ir => <[ir.1 := ir.2]> rows) (t_rows t)
                    (zip idx (t_rows v)))).

(** [t[i] = v] for a row vector [v]. *)
Definition set_row (t : tensor) (i : nat) (v : list R) : result tensor :=
  if negb (length v =? t_cols t) then Raise RuntimeError
  else if negb (i <? nrows t) then Raise IndexError
  else Ok (mkTensor (t_cols t) (<[i := v]> (t_rows t))).

(** [torch.cat([a, b], 1)]. *)
Definition hcat (a b : tensor) : result tensor :=
  if nrows a =? nrows b
  then Ok (mkTensor (t_cols a + t_cols b)
             (zip_with app (t_rows a) (t_rows b)))
  else Raise RuntimeError.

(** [torch.cat(ts, 1)]: an empty list is refused. *)
Definition cat1 (ts : list tensor) : result tensor :=
  match ts with
  | [] => Raise RuntimeError
  | t :: ts' => foldlM hcat t ts'
  end.

(** [t.narrow(1, 0, w)]. *)
Definition narrow1 (t : tensor) (w : nat) : result tensor :=
  if w <=? t_cols t
  then Ok (mkTensor w (take w <$> t_rows t))
  else Raise RuntimeError.

(** [xs.masked_select(mask)] on one-dimensional tensors of equal length
    (a length mismatch is a shape error, see [index_put]). *)
Definition select_by {A} (xs : list A) (mask : list bool) : list A :=
  (filter (fun xb => xb.2 = true) (zip xs mask)).*1.

Definition masked_select (xs : list nat) (mask : list bool)
  : result (list nat) :=
  if length xs =? length mask then Ok (select_by xs mask)
  else Raise RuntimeError.

(** [a & b] on masks. *)
Definition mask_and (a b : list bool) : result (list bool) :=
  if length a =? length b then Ok (zip_with andb a b)
  else Raise RuntimeError.

(** [row.sum()]. *)
Definition row_sum (row : list R) : R := foldl s_add s_zero row.

(** *** The batch and the adjacency *)

(** [entities]: the id column, the entity-type column (an array of type
    names) and one tensor per data field. *)
Record Batch : Type := mkBatch {
  b_ids : list string;
  b_types : list string;
  b_data : gmap string tensor }.

(** [adjacencies]: relation name to a boolean matrix, as a list of rows. *)
Abbreviation Adjacency := (gmap string (list (list bool))).

(** [v.T]. *)
Fixpoint transpose (m : list (list bool)) : list (list bool) :=
  match m with
  | [] => []
  | [r] => (fun x => [x]) <$> r
  | r :: m' => zip_with cons r (transpose m')
  end.

(** *** The neural components (starcoder/models.py, registered field
    models): arbitrary functions on tensors that may raise, with the
    attributes the orchestrator reads. *)

Record FieldEncoder : Type := mkFieldEncoder {
  fe_output_size : nat;
  fe_apply : tensor → result tensor }.

(** An entity autoencoder returns [(entity_outputs, bns, losses)]; the
    first two may be [None]; [losses] is never read. *)
Record Autoencoder : Type := mkAutoencoder {
  ae_output_size : nat;
  ae_apply : tensor → result (option tensor * option tensor) }.

(** A summarizer reduces the selected bottleneck rows to one row vector. *)
Definition Summarizer : Type := tensor → result (list R).
Definition Projector : Type := tensor → result tensor.
Definition FieldDecoder : Type := tensor → result tensor.

(** class GraphAutoencoder: the attributes set by [__init__]. *)
Record GraphAutoencoder : Type := mkGraphAutoencoder {
  reverse_relations : bool;
  schema : Schema;
  depth : nat;
  base_entity_representation_size : nat;
  autoencoder_shapes : option (list nat);
  bottleneck_size : option nat;
  field_encoders : gmap string FieldEncoder;
  boundary_sizes : gmap string nat;
  entity_autoencoders : gmap string (list Autoencoder);
  relation_source_summarizers : gmap string Summarizer;
  relation_target_summarizers : gmap string Summarizer;
  projected_size : nat;
  projectors : gmap string Projector;
  field_decoders : gmap string FieldDecoder }.

(** *** [GraphAutoencoder.__init__] (ensemble.py:26-114) *)

(** The constructor's arguments ([activation] and [device] are only handed
    on), and the classes it instantiates: the registry
    [field_model_classes] (encoder and decoder factories per field class;
    the loss factory builds [field_losses], which [forward] never reads),
    [Autoencoder], [MLPProjector] and the [summarizers] argument. *)
Record Config : Type := mkConfig {
  c_schema : Schema;
  c_depth : nat;
  c_autoencoder_shapes : option (list nat);
  c_reverse_relations : bool;
  c_projected_size : option nat;
  c_base_entity_representation_size : nat }.

(** Each constructor call builds a component with freshly drawn weights,
    so two calls with equal arguments need not give equal components: the
    factories below take, before the arguments of the Python call, a tag
    saying which component is being built (entity type and position in its
    stack; relation name and side). *)
Inductive side : Type := SourceSide | TargetSide.

Record Classes : Type := mkClasses {
  field_model_classes :
    field_class → option ((FieldSpec → FieldEncoder) *
                          (FieldSpec → nat → FieldDecoder));
  Autoencoder_new : string → nat → list nat → Autoencoder;
  MLPProjector_new : string → nat → nat → Projector;
  summarizers_new : side → string → option nat → Summarizer }.

(** [None if autoencoder_shapes in [[], None] else autoencoder_shapes[-1]]. *)
Definition bottleneck_of (shapes : option (list nat)) : option nat :=
  match shapes with
  | None | Some [] => None
  | Some l => last l
  end.

(** [[boundary_size] + self.autoencoder_shapes]: [list + None] is a
    [TypeError]. *)
Definition shape_list (boundary_size : nat) (shapes : option (list nat))
  : result (list nat) :=
  match shapes with
  | Some l => Ok (boundary_size :: l)
  | None => Raise TypeError
  end.

(** [boundary_size += self.bottleneck_size]: [int + None] is a
    [TypeError]. *)
Definition add_bottleneck (bn : option nat) (boundary_size : nat)
  : result nat :=
  match bn with
  | Some w => Ok (boundary_size + w)
  | None => Raise TypeError
  end.

(** [for _ in names: boundary_size += self.bottleneck_size]. *)
Definition add_bottlenecks (bn : option nat) (names : list string)
  (boundary_size : nat) : result nat :=
  foldlM (fun b _ => add_bottleneck bn b) boundary_size names.

Section Init.

Variable cls : Classes.
Variable cfg : Config.

(** ensemble.py:48-54. *)
Definition init_field_encoders : result (gmap string FieldEncoder) :=
  foldlM (fun encs f =>
            match field_model_classes cls (f_class f) with
            | None => Raise Exception
            | Some fac => Ok (<[f_name f := fac.1 f]> encs)
            end) ∅ (s_data_fields (c_schema cfg)).

(** ensemble.py:57-61. *)
Definition init_boundary_size (encs : gmap string FieldEncoder)
  (et : EntityType) : result nat :=
  foldlM (fun b fn => enc ← getitem encs fn; Ok (b + fe_output_size enc))
         (c_base_entity_representation_size cfg) (data_fields et).

Definition init_boundary_sizes (encs : gmap string FieldEncoder)
  : result (gmap string nat) :=
  foldlM (fun bs et =>
            b ← init_boundary_size encs et;
            Ok (<[et_name et := b]> bs)) ∅ (s_entity_types (c_schema cfg)).

(** The boundary size with one bottleneck block per relation
    (ensemble.py:70-74 and 97-101). *)
Definition with_relations (bn : option nat) (et : EntityType)
  (boundary_size : nat) : result nat :=
  b ← add_bottlenecks bn (relation_fields et) boundary_size;
  if c_reverse_relations cfg
  then add_bottlenecks bn (reverse_relation_fields et) b
  else Ok b.

(** ensemble.py:66-78. *)
Definition init_entity_autoencoders (bn : option nat)
  (bs : gmap string nat) : result (gmap string (list Autoencoder)) :=
  foldlM (fun aes et =>
            boundary_size ← getitem bs (et_name et);
            sh0 ← shape_list boundary_size (c_autoencoder_shapes cfg);
            boundary_size ← with_relations bn et boundary_size;
            deeper ← foldlM (fun l _ =>
                        sh ← shape_list boundary_size
                               (c_autoencoder_shapes cfg);
                        Ok (l ++ [Autoencoder_new cls (et_name et)
                                    (length l) sh]))
                      [Autoencoder_new cls (et_name et) 0 sh0]
                      (seq 0 (c_depth cfg));
            Ok (<[et_name et := deeper]> aes))
         ∅ (s_entity_types (c_schema cfg)).

(** ensemble.py:81-88: both dictionaries exist only when [depth > 0]. *)
Definition init_summarizers (sd : side) (bn : option nat)
  : gmap string Summarizer :=
  if 0 <? c_depth cfg
  then foldl (fun d r => <[r_name r := summarizers_new cls sd (r_name r) bn]> d)
             ∅ (s_relation_fields (c_schema cfg))
  else ∅.

(** [max(self.boundary_sizes.values())]: [ValueError] on an empty
    dictionary. *)
Definition max_value (bs : gmap string nat) : result nat :=
  match (map_to_list bs).*2 with
  | [] => Raise ValueError
  | x :: l => Ok (foldr Nat.max x l)
  end.

(** ensemble.py:92. *)
Definition init_projected_size (bs : gmap string nat) : result nat :=
  match c_projected_size cfg with
  | Some p => Ok p
  | None => max_value bs
  end.

(** ensemble.py:93-103. *)
Definition init_projectors (bn : option nat) (bs : gmap string nat)
  (psize : nat) : result (gmap string Projector) :=
  foldlM (fun ps et =>
            let boundary_size := default 0 (bs !! et_name et) in
            boundary_size ←
              (if 0 <? c_depth cfg
               then with_relations bn et boundary_size
               else Ok boundary_size);
            Ok (<[et_name et := MLPProjector_new cls (et_name et)
                                   boundary_size psize]> ps))
         ∅ (s_entity_types (c_schema cfg)).

(** ensemble.py:106-114; the registry entry exists, or
    [init_field_encoders] has raised already. *)
Definition init_field_decoders (psize : nat)
  : result (gmap string FieldDecoder) :=
  foldlM (fun ds f =>
            match field_model_classes cls (f_class f) with
            | None => Raise KeyError
            | Some fac => Ok (<[f_name f := fac.2 f psize]> ds)
            end) ∅ (s_data_fields (c_schema cfg)).

Definition init : result GraphAutoencoder :=
  let bn := bottleneck_of (c_autoencoder_shapes cfg) in
  encs ← init_field_encoders;
  bs ← init_boundary_sizes encs;
  aes ← init_entity_autoencoders bn bs;
  psize ← init_projected_size bs;
  projs ← init_projectors bn bs psize;
  decs ← init_field_decoders psize;
  Ok {| reverse_relations := c_reverse_relations cfg;
        schema := c_schema cfg;
        depth := c_depth cfg;
        base_entity_representation_size :=
          c_base_entity_representation_size cfg;
        autoencoder_shapes := c_autoencoder_shapes cfg;
        bottleneck_size := bn;
        field_encoders := encs;
        boundary_sizes := bs;
        entity_autoencoders := aes;
        relation_source_summarizers := init_summarizers SourceSide bn;
        relation_target_summarizers := init_summarizers TargetSide bn;
        projected_size := psize;
        projectors := projs;
        field_decoders := decs |}.

End Init.

(** A Python dictionary whose iteration order is observed: pairs in
    insertion order; assigning to a present key keeps its position. *)
Fixpoint dict_set {V} (d : list (string * V)) (k : string) (v : V)
  : list (string * V) :=
  match d with
  | [] => [(k, v)]
  | kv :: d' => if decide (kv.1 = k) then (k, v) :: d'
                else kv :: dict_set d' k v
  end.

Fixpoint dict_get {V} (d : list (string * V)) (k : string) : result V :=
  match d with
  | [] => Raise KeyError
  | kv :: d' => if decide (kv.1 = k) then Ok kv.2 else dict_get d' k
  end.

(** [l[i]] on a Python list, and [l[-1]]. *)
Definition list_item {A} (l : list A) (i : nat) : result A :=
  match l !! i with Some a => Ok a | None => Raise IndexError end.

Definition list_last {A} (l : list A) : result A :=
  match last l with Some a => Ok a | None => Raise IndexError end.

(** *** [GraphAutoencoder.forward] (ensemble.py:124-256) *)

Section Forward.

Variable self : GraphAutoencoder.
Variable entities : Batch.

(** [len(entities[self.schema.id_field.name])]. *)
Definition num_entities : nat := length (b_ids entities).

(** [torch.arange(0, entities[entity_type_field].shape[0], 1)]. *)
Definition index_space : list nat := seq 0 (length (b_types entities)).

(** The two-branch presence test of ensemble.py:141-147.  [reshape] to
    [(shape[0], -1)] refuses a tensor without rows, the free dimension
    being ambiguous. *)
Definition is_sequential (f : FieldSpec) : bool :=
  bool_decide (type_name f ∈ ["sequential"; "text"]%string).

Definition field_mask (f : FieldSpec) (col : tensor) : result (list bool) :=
  if is_sequential f then
    if t_cols col =? 0 then Ok (replicate (nrows col) false)
    else Ok ((fun row => s_nonzero (default s_zero (head row)))
               <$> t_rows col)
  else
    if nrows col =? 0 then Raise RuntimeError
    else Ok ((fun row => negb (s_isnan (row_sum row))) <$> t_rows col).

(** The index dictionaries assembled by ensemble.py:139-155. *)
Record Indices : Type := mkIndices {
  entity_indices : gmap string (list nat);
  entity_masks : gmap string (list bool);
  field_indices : gmap string (list nat);
  field_masks : gmap string (list bool);
  entity_field_indices : gmap (string * string) (list nat);
  entity_field_masks : gmap (string * string) (list bool) }.

(** Body of the loop over data fields (ensemble.py:139-148). *)
Definition index_field (ix : Indices) (f : FieldSpec) : result Indices :=
  col ← getitem (b_data entities) (f_name f);
  mask ← field_mask f col;
  idx ← masked_select index_space mask;
  Ok {| entity_indices := entity_indices ix;
        entity_masks := entity_masks ix;
        field_indices := <[f_name f := idx]> (field_indices ix);
        field_masks := <[f_name f := mask]> (field_masks ix);
        entity_field_indices := entity_field_indices ix;
        entity_field_masks := entity_field_masks ix |}.

(** Body of the inner loop over an entity type's fields
    (ensemble.py:153-155). *)
Definition index_entity_field (et : EntityType) (emask : list bool)
  (ix : Indices) (field_name : string) : result Indices :=
  fmask ← getitem (field_masks ix) field_name;
  efmask ← mask_and emask fmask;
  efidx ← masked_select index_space efmask;
  Ok {| entity_indices := entity_indices ix;
        entity_masks := entity_masks ix;
        field_indices := field_indices ix;
        field_masks := field_masks ix;
        entity_field_indices :=
          <[(et_name et, field_name) := efidx]> (entity_field_indices ix);
        entity_field_masks :=
          <[(et_name et, field_name) := efmask]> (entity_field_masks ix) |}.

(** [entities[entity_type_field] == entity_type.name]. *)
Definition entity_mask (name : string) : list bool :=
  (fun n => bool_decide (n = name)) <$> b_types entities.

(** Body of the loop over entity types (ensemble.py:150-155). *)
Definition index_entity (ix : Indices) (et : EntityType) : result Indices :=
  let emask := entity_mask (et_name et) in
  eidx ← masked_select index_space emask;
  let ix := {| entity_indices := <[et_name et := eidx]> (entity_indices ix);
               entity_masks := <[et_name et := emask]> (entity_masks ix);
               field_indices := field_indices ix;
               field_masks := field_masks ix;
               entity_field_indices := entity_field_indices ix;
               entity_field_masks := entity_field_masks ix |} in
  foldlM (index_entity_field et emask) ix (data_fields et).

Definition no_indices : Indices :=
  {| entity_indices := ∅; entity_masks := ∅; field_indices := ∅;
     field_masks := ∅; entity_field_indices := ∅; entity_field_masks := ∅ |}.

Definition assemble_indices : result Indices :=
  ix ← foldlM index_field no_indices (s_data_fields (schema self));
  foldlM index_entity ix (s_entity_types (schema self)).

(** Field encoding (ensemble.py:158-166).  Besides the dictionary of
    encodings the fold keeps the names of the fields whose encoder was
    called, in call order. *)
Definition encode_field (ix : Indices)
  (acc : gmap string tensor * list string) (f : FieldSpec)
  : result (gmap string tensor * list string) :=
  enc ← getitem (field_encoders self) (f_name f);
  let blank := zeros num_entities (fe_output_size enc) in
  indices ← getitem (field_indices ix) (f_name f);
  if 0 <? length indices then
    col ← getitem (b_data entities) (f_name f);
    field_values ← index_select col indices;
    encoded ← fe_apply enc field_values;
    t ← index_put blank indices encoded;
    Ok (<[f_name f := t]> acc.1, acc.2 ++ [f_name f])
  else Ok (<[f_name f := blank]> acc.1, acc.2).

Definition encode_fields (ix : Indices)
  : result (gmap string tensor * list string) :=
  foldlM (encode_field ix) (∅, []) (s_data_fields (schema self)).

(** Depth-0 input of one entity type (ensemble.py:174-178): a zero block
    with the literal width 8, the type's field encodings, a block of
    width 0. *)
Definition autoencoder_input (ix : Indices)
  (field_encodings : gmap string tensor) (et : EntityType)
  : result tensor :=
  eidx ← getitem (entity_indices ix) (et_name et);
  fields ← mapM (fun field_name =>
                   enc ← getitem field_encodings field_name;
                   index_select enc eidx) (data_fields et);
  cat1 ([zeros (length eidx) 8] ++ fields ++ [zeros (length eidx) 0]).

Definition assemble_inputs (ix : Indices)
  (field_encodings : gmap string tensor) : result (gmap string tensor) :=
  foldlM (fun inputs et =>
            t ← autoencoder_input ix field_encodings et;
            Ok (<[et_name et := t]> inputs))
         ∅ (s_entity_types (schema self)).

(** The dictionaries and the tensor rewritten while the autoencoders run
    (ensemble.py:169, 181, 184). *)
Record State : Type := mkState {
  autoencoder_inputs : gmap string tensor;
  autoencoder_outputs : list (string * tensor);
  bottlenecks : tensor }.

(** [self.bottleneck_size] used as a dimension: [None] is a [TypeError]. *)
Definition bottleneck_width : result nat :=
  match bottleneck_size self with
  | Some w => Ok w
  | None => Raise TypeError
  end.

(** Body of the zero-depth loop (ensemble.py:189-194). *)
Definition depth0_entity (ix : Indices) (st : State) (et : EntityType)
  : result State :=
  aes ← getitem (entity_autoencoders self) (et_name et);
  ae ← list_item aes 0;
  input ← getitem (autoencoder_inputs st) (et_name et);
  '(entity_outputs, bns) ← ae_apply ae input;
  let outputs :=
    match entity_outputs with
    | Some o => dict_set (autoencoder_outputs st) (et_name et) o
    | None => autoencoder_outputs st
    end in
  bottlenecks ←
    match bns with
    | Some b => eidx ← getitem (entity_indices ix) (et_name et);
                index_put (bottlenecks st) eidx b
    | None => Ok (bottlenecks st)
    end;
  Ok {| autoencoder_inputs := autoencoder_inputs st;
        autoencoder_outputs := outputs;
        bottlenecks := bottlenecks |}.

Section Propagation.

Variable adjacencies : Adjacency.

(** [index_space.masked_select(adjacencies[rel_name][index])]. *)
Definition related_indices (rel : list (list bool)) (index : nat)
  : result (list nat) :=
  row ← list_item rel index;
  masked_select index_space row.

(** Body of the loop over the entities of a type (ensemble.py:206-212 and
    218-224): row [i] of [relation_reps], for the entity with batch index
    [index]. *)
Definition relation_row (summarize : Summarizer) (prev_bottlenecks : tensor)
  (rel_name : string) (relation_reps : tensor) (i_index : nat * nat)
  : result tensor :=
  match adjacencies !! rel_name with
  | None => Ok relation_reps
  | Some rel =>
      related ← related_indices rel i_index.2;
      if 0 <? length related then
        obns ← index_select prev_bottlenecks related;
        v ← summarize obns;
        set_row relation_reps i_index.1 v
      else Ok relation_reps
  end.

(** One relation of one entity type (ensemble.py:204-213 with the target
    summarizers, 216-225 with the source summarizers). *)
Definition relation_reps (summarizers : gmap string Summarizer) (ix : Indices)
  (prev_bottlenecks : tensor) (et : EntityType) (rel_name : string)
  : result tensor :=
  summarize ← getitem summarizers rel_name;
  eidx ← getitem (entity_indices ix) (et_name et);
  w ← bottleneck_width;
  foldlM (relation_row summarize prev_bottlenecks rel_name)
         (zeros (length eidx) w) (zip (seq 0 (length eidx)) eidx).

(** [other_reps] before concatenation (ensemble.py:202-225). *)
Definition other_reps (ix : Indices) (prev_bottlenecks : tensor)
  (et : EntityType) : result (list tensor) :=
  outgoing ← mapM (relation_reps (relation_target_summarizers self) ix
                     prev_bottlenecks et) (relation_fields et);
  incoming ←
    (if reverse_relations self
     then mapM (relation_reps (relation_source_summarizers self) ix
                  prev_bottlenecks et) (reverse_relation_fields et)
     else Ok []);
  Ok (outgoing ++ incoming).

(** The input of the depth-[d] autoencoder of one entity type
    (ensemble.py:201-229), with the narrowed previous output. *)
Definition deeper_input (ix : Indices) (prev_bottlenecks : tensor)
  (st : State) (et : EntityType) : result (tensor * tensor) :=
  output ← dict_get (autoencoder_outputs st) (et_name et);
  aes ← getitem (entity_autoencoders self) (et_name et);
  ae0 ← list_item aes 0;
  output ← narrow1 output (ae_output_size ae0);
  reps ← other_reps ix prev_bottlenecks et;
  others ← (if 0 <? length reps then cat1 reps
            else Ok (zeros (nrows output) 0));
  input ← cat1 [output; others];
  Ok (output, input).

(** Body of the loop over entity types at depth [d >= 1]
    (ensemble.py:200-239). *)
Definition propagate_entity (ix : Indices) (prev_bottlenecks : tensor)
  (d : nat) (st : State) (et : EntityType) : result State :=
  '(_, input) ← deeper_input ix prev_bottlenecks st et;
  aes ← getitem (entity_autoencoders self) (et_name et);
  ae ← (if length aes - 1 <? d then list_last aes else list_item aes d);
  '(entity_outputs, bns) ← ae_apply ae input;
  match entity_outputs with
  | None => Raise AttributeError
  | Some o =>
      bottlenecks ←
        (if negb (t_cols o =? 0) then
           match bns with
           | Some b => eidx ← getitem (entity_indices ix) (et_name et);
                       index_put (bottlenecks st) eidx b
           | None => Raise TypeError
           end
         else Ok (bottlenecks st));
      Ok {| autoencoder_inputs :=
              <[et_name et := input]> (autoencoder_inputs st);
            autoencoder_outputs :=
              dict_set (autoencoder_outputs st) (et_name et) o;
            bottlenecks := bottlenecks |}
  end.

(** One depth: all entity types in turn, reading [prev_bottlenecks]. *)
Definition propagate_depth (ix : Indices) (prev_bottlenecks : tensor)
  (st : State) (d : nat) : result State :=
  foldlM (propagate_entity ix prev_bottlenecks d) st
         (s_entity_types (schema self)).

(** The loop [for depth in range(1, self.depth + 1)] (ensemble.py:197-239):
    [prev_bottlenecks] is bound once, before the loop. *)
Definition propagate (ix : Indices) (st : State) : result State :=
  let prev_bottlenecks := bottlenecks st in
  foldlM (propagate_depth ix prev_bottlenecks) st (seq 1 (depth self)).

End Propagation.

(** Projection (ensemble.py:243-246), in the iteration order of
    [autoencoder_outputs]. *)
Definition project (ix : Indices) (outputs : list (string * tensor))
  : result tensor :=
  foldlM (fun resized kv =>
            indices ← getitem (entity_indices ix) kv.1;
            p ← getitem (projectors self) kv.1;
            v ← p kv.2;
            index_put resized indices v)
         (zeros num_entities (projected_size self)) outputs.

(** Decoding (ensemble.py:249-251). *)
Definition decode_fields (resized : tensor) : result (gmap string tensor) :=
  foldlM (fun recs f =>
            dec ← getitem (field_decoders self) (f_name f);
            r ← dec resized;
            Ok (<[f_name f := r]> recs))
         ∅ (s_data_fields (schema self)).

(** What [forward] returns: the reconstructions with the id and
    entity-type columns passed through, the bottlenecks, and
    [autoencoder_boundary_pairs], to which nothing is ever appended. *)
Record Output : Type := mkOutput {
  reconstructions : gmap string tensor;
  o_ids : list string;
  o_types : list string;
  o_bottlenecks : tensor;
  autoencoder_boundary_pairs : list (tensor * tensor) }.

(** The steps up to the zero-depth autoencoders (ensemble.py:126-194). *)
Definition depth0 : result (Indices * State) :=
  ix ← assemble_indices;
  enc ← encode_fields ix;
  inputs ← assemble_inputs ix enc.1;
  w ← bottleneck_width;
  st ← foldlM (depth0_entity ix)
         {| autoencoder_inputs := inputs;
            autoencoder_outputs := [];
            bottlenecks := zeros num_entities w |}
         (s_entity_types (schema self));
  Ok (ix, st).

Definition finish (ix : Indices) (st : State) : result Output :=
  resized ← project ix (autoencoder_outputs st);
  recs ← decode_fields resized;
  Ok {| reconstructions := recs;
        o_ids := b_ids entities;
        o_types := b_types entities;
        o_bottlenecks := bottlenecks st;
        autoencoder_boundary_pairs := [] |}.

(** [rev_adjacencies] (ensemble.py:135) is computed and never read. *)
Definition forward (adjacencies : Adjacency) : result Output :=
  let rev_adjacencies := transpose <$> adjacencies in
  '(ix, st) ← depth0;
  st ← propagate adjacencies ix st;
  finish ix st.

(** The propagation loop as the specification words it: each depth reads
    the bottlenecks as they stood at the end of the previous depth. *)
Definition propagate_spec (adjacencies : Adjacency) (ix : Indices)
  (st : State) : result State :=
  foldlM (fun st d => propagate_depth adjacencies ix (bottlenecks st) st d)
         st (seq 1 (depth self)).

Definition forward_spec (adjacencies : Adjacency) : result Output :=
  '(ix, st) ← depth0;
  st ← propagate_spec adjacencies ix st;
  finish ix st.

(** [other_reps] as the specification words it: an outgoing relation
    reads the rows of its adjacency matrix and uses the source-side
    summarizer, an incoming one reads the transposed matrix and uses the
    target-side summarizer. *)
Definition other_reps_spec (adjacencies : Adjacency) (ix : Indices)
  (prev_bottlenecks : tensor) (et : EntityType) : result (list tensor) :=
  outgoing ← mapM (relation_reps adjacencies
                     (relation_source_summarizers self) ix
                     prev_bottlenecks et) (relation_fields et);
  incoming ←
    (if reverse_relations self
     then mapM (relation_reps (transpose <$> adjacencies)
                  (relation_target_summarizers self) ix
                  prev_bottlenecks et) (reverse_relation_fields et)
     else Ok []);
  Ok (outgoing ++ incoming).

End Forward.

End Tensors.

Arguments tensor R : clear implicits.
Arguments FieldEncoder R : clear implicits.
Arguments Autoencoder R : clear implicits.
Arguments Summarizer R : clear implicits.
Arguments Projector R : clear implicits.
Arguments FieldDecoder R : clear implicits.
Arguments GraphAutoencoder R : clear implicits.
Arguments Classes R : clear implicits.
Arguments Batch R : clear implicits.
Arguments State R : clear implicits.
Arguments Output R : clear implicits.

(** *** Notions used to state properties of [forward] *)

Section Predicates.

Context {R : Type} `{Scalar R}.

(** What the loop over the data fields establishes: every field seen so
    far has a mask; every mask has one entry per row of the batch, comes
    from the presence test of some declared field of that name, and the
    field's indices are the positions where it is true. *)
Definition fields_inv (entities : Batch R) (pre : list FieldSpec)
  (ix : Indices) : Prop :=
  entity_indices ix = ∅ ∧ entity_field_indices ix = ∅ ∧
  (∀ f, f ∈ pre → is_Some (field_masks ix !! f_name f)) ∧
  (∀ n mask, field_masks ix !! n = Some mask →
     length mask = length (b_types entities) ∧
     field_indices ix !! n = Some (select_by (index_space entities) mask) ∧
     ∃ f col, f ∈ pre ∧ f_name f = n ∧
              b_data entities !! n = Some col ∧ field_mask f col = Ok mask).

(** What the loop over the entity types maintains, given the finished
    field dictionaries [fm] and [fi]: indices of a type are the
    positions carrying its tag; indices of a (type, field) pair are the
    positions where tag and presence mask both hold. *)
Definition entities_inv (entities : Batch R) (fm : gmap string (list bool))
  (fi : gmap string (list nat)) (ix : Indices) : Prop :=
  field_masks ix = fm ∧ field_indices ix = fi ∧
  (∀ n e, entity_indices ix !! n = Some e →
          e = select_by (index_space entities) (entity_mask entities n)) ∧
  (∀ t f ef, entity_field_indices ix !! (t, f) = Some ef →
     ∃ mask, fm !! f = Some mask ∧
             ef = select_by (index_space entities)
                    (zip_with andb (entity_mask entities t) mask)).

(** The entries a loop has certainly written. *)
Definition entities_dom (ets : list EntityType) (ix : Indices) : Prop :=
  ∀ et, et ∈ ets →
    is_Some (entity_indices ix !! et_name et) ∧
    ∀ f, f ∈ data_fields et →
         is_Some (entity_field_indices ix !! (et_name et, f)).

(** What the encoding stored for the field named [n] satisfies: it has
    one row per entity and the encoder's width, it is zero outside the
    field's indices, and it is all zero when these are empty. *)
Definition encoding_ok (self : GraphAutoencoder R) (entities : Batch R)
  (ix : Indices) (n : string) (t : tensor R) : Prop :=
  ∃ enc idx,
    field_encoders self !! n = Some enc ∧ field_indices ix !! n = Some idx ∧
    t_cols t = fe_output_size enc ∧ nrows t = num_entities entities ∧
    (∀ i, i ∉ idx → i < num_entities entities →
          t_rows t !! i = Some (replicate (fe_output_size enc) s_zero)) ∧
    (idx = [] → t = zeros (num_entities entities) (fe_output_size enc)).

(** The neighbours of the entity with batch index [index] under relation
    [rel]: the true entries of row [index] of the relation's adjacency
    matrix; none when the adjacency has no such relation. *)
Definition neighbours (entities : Batch R)
  (adjacencies : gmap string (list (list bool))) (rel : string) (index : nat)
  : list nat :=
  match adjacencies !! rel with
  | None => []
  | Some m => select_by (index_space entities) (default [] (m !! index))
  end.

(** [row] summarizes the rows [nbrs] of [prev]: the zero row of width
    [w] when there are none, what [summarize] returns for them
    otherwise. *)
Definition summary_of (summarize : Summarizer R) (prev : tensor R) (w : nat)
  (nbrs : list nat) (row : list R) : Prop :=
  (nbrs = [] ∧ row = replicate w s_zero) ∨
  (nbrs ≠ [] ∧ ∃ obns, index_select prev nbrs = Ok obns ∧
                       summarize obns = Ok row).

(** The block computed for one relation of one entity type: one row per
    entity of the type, of the bottleneck width, row [i] summarizing the
    neighbours of the [i]-th entity of the type. *)
Definition relation_block (self : GraphAutoencoder R) (entities : Batch R)
  (adjacencies : gmap string (list (list bool)))
  (summarizers : gmap string (Summarizer R))
  (ix : Indices) (prev : tensor R) (et : EntityType) (rel : string)
  (t : tensor R) : Prop :=
  ∃ summarize eidx w,
    summarizers !! rel = Some summarize ∧
    entity_indices ix !! et_name et = Some eidx ∧
    bottleneck_size self = Some w ∧
    t_cols t = w ∧ nrows t = length eidx ∧
    ∀ i index, eidx !! i = Some index →
      ∃ row, t_rows t !! i = Some row ∧
             summary_of summarize prev w (neighbours entities adjacencies rel index) row.

(** The block of an incoming relation, stated without saying where the
    neighbours come from. *)
Definition incoming_block (self : GraphAutoencoder R) (ix : Indices) (prev : tensor R) (et : EntityType)
  (rel : string) (t : tensor R) : Prop :=
  ∃ summarize eidx w,
    relation_source_summarizers self !! rel = Some summarize ∧
    entity_indices ix !! et_name et = Some eidx ∧
    bottleneck_size self = Some w ∧
    t_cols t = w ∧ nrows t = length eidx ∧
    ∀ i index, eidx !! i = Some index →
      ∃ row nbrs, t_rows t !! i = Some row ∧
                  summary_of summarize prev w nbrs row.

(** The number of relation blocks in the input of a deeper autoencoder
    of an entity type: one per outgoing relation and, with reverse
    relations, one per incoming relation. *)
Definition relation_count (reverse : bool) (et : EntityType) : nat :=
  length (relation_fields et)
  + (if reverse then length (reverse_relation_fields et) else 0).

(** Row [i] of the batch carries a type name that no entity type of the
    schema has. *)
Definition untyped (self : GraphAutoencoder R) (entities : Batch R)
  (i : nat) : Prop :=
  ∀ et, et ∈ s_entity_types (schema self) →
        b_types entities !! i ≠ Some (et_name et).

(** The relation named [rel] has no edge in the batch: the adjacency
    does not mention it, or every row of its matrix is all false. *)
Definition edgeless (adjacencies : gmap string (list (list bool)))
  (rel : string) : Prop :=
  adjacencies !! rel = None ∨
  ∃ m, adjacencies !! rel = Some m ∧
       ∀ index row, m !! index = Some row → Forall (fun b => b = false) row.

(** The [i]-th rows of a list of tensors, side by side: row [i] of their
    concatenation along dimension 1. *)
Definition row_blocks (ts : list (tensor R)) (i : nat) : list R :=
  concat ((fun t => default [] (t_rows t !! i)) <$> ts).

(** [input] is [output] followed by the blocks [reps], one per relation
    of the entity type [et] and [w] columns each, and wherever [et] lists
    the relation [rel], among its outgoing relations or, with reverse
    relations, among its incoming ones, the block at that position is the
    zero tensor with one row per row of [input] and [w] columns. *)
Definition zero_block_input (self : GraphAutoencoder R) (w : nat)
  (rel : string) (et : EntityType) (output input : tensor R)
  (reps : list (tensor R)) : Prop :=
  length reps = relation_count (reverse_relations self) et ∧
  nrows input = nrows output ∧
  t_cols input
  = t_cols output + relation_count (reverse_relations self) et * w ∧
  (∀ i, i < nrows input →
        t_rows input !! i = Some (row_blocks (output :: reps) i)) ∧
  (∀ j, relation_fields et !! j = Some rel →
        reps !! j = Some (zeros (nrows input) w)) ∧
  (reverse_relations self = true →
   ∀ j, reverse_relation_fields et !! j = Some rel →
        reps !! (length (relation_fields et) + j)
        = Some (zeros (nrows input) w)).

(** What [forward] relies on without checking it.  The components are
    those of starcoder/models.py, of which the orchestrator uses that they
    return tensors of the shapes they were built for: an encoder one row
    of its output size per input row; an autoencoder, on an input at
    least as wide as the zero-depth output size [c0] of its stack, a
    reconstruction with one row per input row and at least [c0] columns
    and one bottleneck row of width [w] per input row; a summarizer, on
    rows of width [w], one row of width [w]; a projector one row of the
    projected size per input row. *)
Definition encoder_ok (enc : FieldEncoder R) : Prop :=
  ∀ t, ∃ t', fe_apply enc t = Ok t' ∧
             t_cols t' = fe_output_size enc ∧ nrows t' = nrows t.

Definition autoencoder_ok (w c0 : nat) (ae : Autoencoder R) : Prop :=
  ∀ input, c0 ≤ t_cols input →
    ∃ o b, ae_apply ae input = Ok (Some o, Some b) ∧
           nrows o = nrows input ∧ c0 ≤ t_cols o ∧
           t_cols b = w ∧ nrows b = nrows input ∧ tensor_wf b.

Definition summarizer_ok (w : nat) (summarize : Summarizer R) : Prop :=
  ∀ t, tensor_wf t → t_cols t = w →
       ∃ v, summarize t = Ok v ∧ length v = w.

Definition projector_ok (psize : nat) (p : Projector R) : Prop :=
  ∀ t, ∃ v, p t = Ok v ∧ t_cols v = psize ∧ nrows v = nrows t.

(** A model whose dictionaries have the entries the schema calls for,
    with components as above, a bottleneck width [w], and entity types
    that use declared data fields only.  The zero-depth input of an
    entity type is 8 columns plus the encodings of its fields
    (ensemble.py:174-178); it must be at least as wide as the zero-depth
    autoencoder's output size for the cut at ensemble.py:201. *)
Definition model_ok (self : GraphAutoencoder R) (w : nat) : Prop :=
  bottleneck_size self = Some w ∧
  (∀ f, f ∈ s_data_fields (schema self) →
     (∃ enc, field_encoders self !! f_name f = Some enc ∧ encoder_ok enc) ∧
     (∃ dec, field_decoders self !! f_name f = Some dec ∧
             ∀ t, is_ok (dec t) = true)) ∧
  (∀ et, et ∈ s_entity_types (schema self) →
     (∀ fn, fn ∈ data_fields et →
            fn ∈ f_name <$> s_data_fields (schema self)) ∧
     (∃ aes ae0,
        entity_autoencoders self !! et_name et = Some aes ∧
        aes !! 0 = Some ae0 ∧
        Forall (autoencoder_ok w (ae_output_size ae0)) aes ∧
        ae_output_size ae0
        ≤ 8 + sum_list_with
                (fun fn => default 0 (fe_output_size
                                        <$> field_encoders self !! fn))
                (data_fields et)) ∧
     (∃ p, projectors self !! et_name et = Some p ∧
           projector_ok (projected_size self) p) ∧
     (0 < depth self →
      (∀ rel, rel ∈ relation_fields et →
         ∃ s, relation_target_summarizers self !! rel = Some s ∧
              summarizer_ok w s) ∧
      (reverse_relations self = true →
       ∀ rel, rel ∈ reverse_relation_fields et →
         ∃ s, relation_source_summarizers self !! rel = Some s ∧
              summarizer_ok w s))).

(** A batch of at least one entity, with an id and a type tag for each
    and, for every data field, a column with one row per entity. *)
Definition batch_ok (self : GraphAutoencoder R) (entities : Batch R)
  : Prop :=
  0 < length (b_types entities) ∧
  length (b_ids entities) = length (b_types entities) ∧
  ∀ f, f ∈ s_data_fields (schema self) →
       ∃ col, b_data entities !! f_name f = Some col ∧
              nrows col = length (b_types entities).

(** The matrices the adjacency does hold are square, of the size of the
    batch. *)
Definition adjacency_ok (entities : Batch R)
  (adjacencies : gmap string (list (list bool))) : Prop :=
  ∀ rel m index,
    adjacencies !! rel = Some m → index < length (b_types entities) →
    ∃ row, m !! index = Some row ∧
           length row = length (b_types entities).

(** What the loops over the autoencoders keep true of their state: the
    bottleneck tensor has one well-formed row of width [w] per entity,
    and every stored output belongs to an entity type of the schema, has
    one row per entity of the type and is wide enough for the cut at
    ensemble.py:201. *)
Definition output_ok (self : GraphAutoencoder R) (ix : Indices)
  (kv : string * tensor R) : Prop :=
  ∃ et eidx aes ae0,
    et ∈ s_entity_types (schema self) ∧ et_name et = kv.1 ∧
    entity_indices ix !! kv.1 = Some eidx ∧ nrows kv.2 = length eidx ∧
    entity_autoencoders self !! kv.1 = Some aes ∧ aes !! 0 = Some ae0 ∧
    ae_output_size ae0 ≤ t_cols kv.2.

Definition state_ok (self : GraphAutoencoder R) (entities : Batch R)
  (ix : Indices) (w : nat) (st : State R) : Prop :=
  t_cols (bottlenecks st) = w ∧
  nrows (bottlenecks st) = length (b_types entities) ∧
  tensor_wf (bottlenecks st) ∧
  Forall (output_ok self ix) (autoencoder_outputs st).

End Predicates.

End Ensemble.

(** ** A concrete model: the two-type scenario of the specification

    [Person{age: numeric}] and [Doc{title: sequential}] with one relation
    [authored: Person -> Doc], over integer-valued entries with a NaN. *)

Module Scenario.

Import Ensemble.

Inductive num : Type := NaN | Num (z : Z).

Definition num_add (a b : num) : num :=
  match a, b with
  | Num x, Num y => Num (x + y)
  | _, _ => NaN
  end.

Definition num_isnan (a : num) : bool :=
  match a with NaN => true | Num _ => false end.

Definition num_nonzero (a : num) : bool :=
  match a with NaN => true | Num z => negb (z =? 0)%Z end.

#[global] Instance num_scalar : Scalar num.
Proof.
  refine {| s_zero := Num 0; s_add := num_add; s_isnan := num_isnan;
            s_nonzero := num_nonzero |};
    [reflexivity | by intros [] [] | by intros [] []].
Defined.

(** Components.  An encoder sums each row into one column; the
    autoencoder at position [k] of a stack reconstructs its input and
    compresses each row to [k + row sum], or declares no bottleneck when
    the shape sequence is empty; the target-side summarizer adds the
    selected rows up, the source-side one adds 1000 to that; a projector
    pads or cuts rows to the projected width; a decoder is the identity. *)
Definition sum_rows (t : tensor num) : tensor num :=
  mkTensor 1 ((fun row => [row_sum row]) <$> t_rows t).

Definition encoder (f : FieldSpec) : FieldEncoder num :=
  {| fe_output_size := 1; fe_apply := fun t => Ok (sum_rows t) |}.

Definition decoder (f : FieldSpec) (psize : nat) : FieldDecoder num :=
  fun t => Ok t.

Definition autoencoder (name : string) (k : nat) (shapes : list nat)
  : Autoencoder num :=
  {| ae_output_size := default 0 (head shapes);
     ae_apply := fun t =>
       match shapes with
       | _ :: _ :: _ =>
           Ok (Some t,
               Some (mkTensor 1
                       ((fun row => [num_add (Num (Z.of_nat k)) (row_sum row)])
                          <$> t_rows t)))
       | _ => Ok (Some t, None)
       end |}.

Definition column_sums (w : nat) (t : tensor num) : list num :=
  foldl (zip_with num_add) (replicate w (Num 0)) (t_rows t).

Definition summarizer (sd : side) (name : string) (bn : option nat)
  : Summarizer num :=
  fun t =>
    let total := column_sums (default 0 bn) t in
    match sd with
    | TargetSide => Ok total
    | SourceSide => Ok (num_add (Num 1000) <$> total)
    end.

Definition projector (name : string) (boundary psize : nat)
  : Projector num :=
  fun t => Ok (mkTensor psize
                 ((fun row => take psize (row ++ replicate psize (Num 0)))
                    <$> t_rows t)).

Definition classes : Classes num :=
  {| field_model_classes := fun c =>
       match c with
       | OtherFieldC _ => None
       | _ => Some (encoder, decoder)
       end;
     Autoencoder_new := autoencoder;
     MLPProjector_new := projector;
     summarizers_new := summarizer |}.

Definition person : EntityType :=
  {| et_name := "Person"; data_fields := ["age"];
     relation_fields := ["authored"]; reverse_relation_fields := [] |}.

Definition doc : EntityType :=
  {| et_name := "Doc"; data_fields := ["title"];
     relation_fields := []; reverse_relation_fields := ["authored"] |}.

Definition the_schema : Schema :=
  {| s_data_fields :=
       [ {| f_name := "age"; f_class := NumericFieldC;
            type_name := "numeric" |};
         {| f_name := "title"; f_class := SequentialFieldC;
            type_name := "sequential" |} ];
     s_entity_types := [person; doc];
     s_relation_fields :=
       [ {| r_name := "authored"; source_entity_type := "Person";
            target_entity_type := "Doc" |} ] |}.

Definition config (d : nat) (shapes : option (list nat)) (reverse : bool)
  (base : nat) : Config :=
  {| c_schema := the_schema; c_depth := d; c_autoencoder_shapes := shapes;
     c_reverse_relations := reverse; c_projected_size := None;
     c_base_entity_representation_size := base |}.

(** Three entities: Person 0 aged 30, Person 1 of unknown age, Doc 2
    titled with the tokens 4 and 5; absent fields hold the missing value
    (NaN, or the all-zero token row). *)
Definition the_batch : Batch num :=
  {| b_ids := ["p0"; "p1"; "d2"];
     b_types := ["Person"; "Person"; "Doc"];
     b_data := {[ "age" := mkTensor 1 [[Num 30]; [NaN]; [NaN]];
                  "title" := mkTensor 2 [[Num 0; Num 0]; [Num 0; Num 0];
                                         [Num 4; Num 5]] ]} |}.

(** [authored[0][2] = true], nothing else. *)
Definition authored : list (list bool) :=
  [[false; false; true]; [false; false; false]; [false; false; false]].

Definition the_adjacency : gmap string (list (list bool)) :=
  {[ "authored" := authored ]}.

(** The relation [authored] without any edge. *)
Definition no_edges : gmap string (list (list bool)) :=
  {[ "authored" := replicate 3 (replicate 3 false) ]}.

(** The same batch with every age missing. *)
Definition missing_batch : Batch num :=
  {| b_ids := ["p0"; "p1"; "d2"];
     b_types := ["Person"; "Person"; "Doc"];
     b_data := {[ "age" := mkTensor 1 [[NaN]; [NaN]; [NaN]];
                  "title" := mkTensor 2 [[Num 0; Num 0]; [Num 0; Num 0];
                                         [Num 4; Num 5]] ]} |}.

(** A schema without relations: [Person{age: numeric}] alone, and a
    batch of two persons. *)
Definition plain_person : EntityType :=
  {| et_name := "Person"; data_fields := ["age"];
     relation_fields := []; reverse_relation_fields := [] |}.

Definition plain_schema : Schema :=
  {| s_data_fields :=
       [ {| f_name := "age"; f_class := NumericFieldC;
            type_name := "numeric" |} ];
     s_entity_types := [plain_person];
     s_relation_fields := [] |}.

Definition plain_config (d : nat) (shapes : option (list nat)) : Config :=
  {| c_schema := plain_schema; c_depth := d; c_autoencoder_shapes := shapes;
     c_reverse_relations := false; c_projected_size := None;
     c_base_entity_representation_size := 8 |}.

Definition plain_batch : Batch num :=
  {| b_ids := ["p0"; "p1"];
     b_types := ["Person"; "Person"];
     b_data := {[ "age" := mkTensor 1 [[Num 30]; [NaN]] ]} |}.

(** The model a configuration constructs (a model without components
    when construction raises). *)
Definition no_model : GraphAutoencoder num :=
  {| reverse_relations := false;
     schema := {| s_data_fields := []; s_entity_types := [];
                  s_relation_fields := [] |};
     depth := 0; base_entity_representation_size := 0;
     autoencoder_shapes := None; bottleneck_size := None;
     field_encoders := ∅; boundary_sizes := ∅; entity_autoencoders := ∅;
     relation_source_summarizers := ∅; relation_target_summarizers := ∅;
     projected_size := 0; projectors := ∅; field_decoders := ∅ |}.

Definition model (cfg : Config) : GraphAutoencoder num :=
  match init classes cfg with
  | Ok g => g
  | Raise _ => no_model
  end.

(** The indices and the zero-depth state [forward] computes for a model
    and a batch. *)
Definition indices_of (g : GraphAutoencoder num) (b : Batch num) : Indices :=
  match assemble_indices g b with
  | Ok ix => ix
  | Raise _ => no_indices
  end.

Definition depth0_state (g : GraphAutoencoder num) (b : Batch num)
  : State num :=
  match depth0 g b with
  | Ok ixst => ixst.2
  | Raise _ => {| autoencoder_inputs := ∅; autoencoder_outputs := [];
                  bottlenecks := mkTensor 0 [] |}
  end.

Definition encodings_of (g : GraphAutoencoder num) (b : Batch num)
  : gmap string (tensor num) * list string :=
  match encode_fields g b (indices_of g b) with
  | Ok r => r
  | Raise _ => (∅, [])
  end.

(** What [forward] returns for a model, a batch and an adjacency (an
    empty output when it raises). *)
Definition output_of (g : GraphAutoencoder num) (b : Batch num)
  (adjacencies : gmap string (list (list bool))) : Output num :=
  match forward g b adjacencies with
  | Ok out => out
  | Raise _ => {| reconstructions := ∅; o_ids := []; o_types := [];
                  o_bottlenecks := mkTensor 0 [];
                  autoencoder_boundary_pairs := [] |}
  end.

(** The previous output and the input of the depth-1 autoencoder of an
    entity type, computed from the zero-depth state (two empty tensors when
    the computation raises). *)
Definition deeper_input_of (g : GraphAutoencoder num) (b : Batch num)
  (adjacencies : gmap string (list (list bool))) (et : EntityType)
  : tensor num * tensor num :=
  match deeper_input g b adjacencies (indices_of g b)
          (bottlenecks (depth0_state g b)) (depth0_state g b) et with
  | Ok p => p
  | Raise _ => (mkTensor 0 [], mkTensor 0 [])
  end.

(** The batch with a fourth row whose type, [Robot], the schema does not
    declare. *)
Definition stray_batch : Batch num :=
  {| b_ids := ["p0"; "p1"; "d2"; "r3"];
     b_types := ["Person"; "Person"; "Doc"; "Robot"];
     b_data := {[ "age" := mkTensor 1 [[Num 30]; [NaN]; [NaN]; [Num 7]];
                  "title" := mkTensor 2 [[Num 0; Num 0]; [Num 0; Num 0];
                                         [Num 4; Num 5]; [Num 6; Num 0]] ]} |}.

(** [authored] for that batch: Person 0 authored Doc 2 and the robot. *)
Definition stray_adjacency : gmap string (list (list bool)) :=
  {[ "authored" := [[false; false; true; true];
                    [false; false; false; false];
                    [false; false; false; false];
                    [false; false; false; false]] ]}.

(** A configuration over a schema without entity types. *)
Definition empty_config : Config :=
  {| c_schema := {| s_data_fields := s_data_fields plain_schema;
                    s_entity_types := [];
                    s_relation_fields := [] |};
     c_depth := 0; c_autoencoder_shapes := Some [1];
     c_reverse_relations := false; c_projected_size := None;
     c_base_entity_representation_size := 8 |}.

(** The batch without its [title] column. *)
Definition untitled_batch : Batch num :=
  {| b_ids := ["p0"; "p1"; "d2"];
     b_types := ["Person"; "Person"; "Doc"];
     b_data := {[ "age" := mkTensor 1 [[Num 30]; [NaN]; [NaN]] ]} |}.

(** The plain schema with one more data field, of a class the registry
    does not know. *)
Definition odd_field : FieldSpec :=
  {| f_name := "shape"; f_class := OtherFieldC "PolygonField";
     type_name := "polygon" |}.

Definition odd_config : Config :=
  {| c_schema :=
       {| s_data_fields := s_data_fields plain_schema ++ [odd_field];
          s_entity_types := [plain_person];
          s_relation_fields := [] |};
     c_depth := 0; c_autoencoder_shapes := Some [1];
     c_reverse_relations := false; c_projected_size := None;
     c_base_entity_representation_size := 8 |}.

End Scenario.

(** * Properties *)

(** ** The error monad *)

Lemma bind_Ok {A B} (m : result A) (f : A → result B) (b : B) :
  m ≫= f = Ok b → ∃ a, m = Ok a ∧ f a = Ok b.
Proof. destruct m as [a|e]; [eauto | discriminate]. Qed.

Lemma getitem_Ok `{Countable K} {V} (d : gmap K V) k v :
  getitem d k = Ok v ↔ d !! k = Some v.
Proof. unfold getitem. destruct (d !! k); split; congruence. Qed.

(** Inverts a hypothesis [m ≫= f = Ok b], naming the intermediate value. *)
Tactic Notation "inv_bind" hyp(H) "as" ident(x) ident(Hx) :=
  apply bind_Ok in H; destruct H as (x & Hx & H); cbn beta in H.

(** ** fields.py *)

Module FieldsFacts.

Import Fields.

(** *** Tables written by a sequence of assignments *)

Section Writes.

Context {V : Type}.

Lemma apply_writes_lookup (r : gmap nat V) ws i :
  apply_writes r ws !! i = from_option Some (r !! i) (last_write ws i).
Proof.
  induction ws as [|w ws IH] using rev_ind; [done|].
  unfold apply_writes, last_write in *. rewrite !foldl_app. cbn.
  destruct (decide (w.1 = i)) as [->|Hne].
  - by rewrite lookup_insert_eq.
  - by rewrite lookup_insert_ne.
Qed.

(** Replaying the same assignments changes nothing. *)
Lemma apply_writes_twice (r : gmap nat V) ws :
  apply_writes (apply_writes r ws) ws = apply_writes r ws.
Proof.
  apply map_eq. intros i. rewrite !apply_writes_lookup.
  by destruct (last_write ws i).
Qed.

End Writes.

Section CodecFacts.

Context `{Countable K}.

Lemma setdefault_len_lookup {X} `{Countable X} (d : gmap X nat) (k : X) :
  d ⊆ (setdefault_len d k).1 ∧
  (setdefault_len d k).1 !! k = Some (setdefault_len d k).2.
Proof.
  unfold setdefault_len. destruct (d !! k) as [i|] eqn:E; cbn.
  - done.
  - split; [by apply insert_subseteq | by rewrite lookup_insert_eq].
Qed.

Lemma setdefault_len_present {X} `{Countable X} (d : gmap X nat) (k : X) i :
  d !! k = Some i → setdefault_len d k = (d, i).
Proof. intros E. unfold setdefault_len. by rewrite E. Qed.

Lemma observe_elements_settled lk rl (vs : list K) :
  (∀ v, v ∈ vs → is_Some (lk !! Some v)) →
  foldl observe_element (lk, rl) vs
  = (lk, apply_writes rl (element_writes lk vs)).
Proof.
  revert rl. induction vs as [|v vs IH]; intros rl Hin; [done|].
  destruct (Hin v) as [i Hi]; [left|].
  assert (observe_element (lk, rl) v = (lk, <[i := Some v]> rl)) as Hstep
    by (unfold observe_element; cbn;
        by rewrite (setdefault_len_present _ _ _ Hi)).
  cbn. rewrite Hstep, IH; [|intros; apply Hin; by right].
  unfold apply_writes. cbn. by rewrite Hi.
Qed.

Lemma observe_elements_writes lk rl (vs : list K) :
  let t := foldl observe_element (lk, rl) vs in
  lk ⊆ t.1 ∧ (∀ v, v ∈ vs → is_Some (t.1 !! Some v)) ∧
  t.2 = apply_writes rl (element_writes t.1 vs).
Proof.
  revert lk rl. induction vs as [|v vs IH]; intros lk rl; cbn.
  { split; [done|]. split; [|done]. intros v Hv. by apply elem_of_nil in Hv. }
  destruct (setdefault_len_lookup lk (Some v)) as [Hsub Hlk].
  destruct (setdefault_len lk (Some v)) as [lk1 i] eqn:E. cbn in *.
  assert (observe_element (lk, rl) v = (lk1, <[i := Some v]> rl)) as ->
    by (unfold observe_element; cbn; by rewrite E).
  destruct (IH lk1 (<[i := Some v]> rl)) as (Hsub' & Hin & Heq).
  set (t := foldl observe_element (lk1, <[i := Some v]> rl) vs) in *.
  split; [by etrans|].
  assert (t.1 !! Some v = Some i) as Hi by (by eapply lookup_weaken).
  split.
  - intros v' [->|Hv']%elem_of_cons; [by eexists | by apply Hin].
  - rewrite Heq. unfold apply_writes. cbn. by rewrite Hi.
Qed.

(** Observing a sequence a second time replays the same assignments. *)
Lemma observe_elements_twice lk rl (vs : list K) :
  foldl observe_element (foldl observe_element (lk, rl) vs) vs
  = foldl observe_element (lk, rl) vs.
Proof.
  destruct (observe_elements_writes lk rl vs) as (_ & Hin & Heq).
  destruct (foldl observe_element (lk, rl) vs) as [lk' rl'] eqn:E.
  cbn in *. rewrite observe_elements_settled by done.
  by rewrite Heq, apply_writes_twice.
Qed.

(** SequentialField: observation is idempotent. *)
Lemma SequentialField_observe_twice (self : SequentialField (K:=K)) vs :
  SequentialField_observe_value (SequentialField_observe_value self vs) vs
  = SequentialField_observe_value self vs.
Proof.
  unfold SequentialField_observe_value. cbn.
  rewrite <- surjective_pairing, observe_elements_twice.
  f_equal. lia.
Qed.

(** CharacterField: observation is idempotent. *)
Lemma CharacterField_observe_twice (self : CharacterField (K:=K)) vs :
  CharacterField_observe_value (CharacterField_observe_value self vs) vs
  = CharacterField_observe_value self vs.
Proof.
  unfold CharacterField_observe_value. cbn.
  rewrite <- surjective_pairing, observe_elements_twice.
  f_equal. lia.
Qed.

(** CategoricalField: observation is idempotent. *)
Lemma CategoricalField_observe_twice (self : CategoricalField (K:=K)) v :
  CategoricalField_observe_value (CategoricalField_observe_value self v) v
  = CategoricalField_observe_value self v.
Proof.
  unfold CategoricalField_observe_value.
  destruct (setdefault_len_lookup (cf_lookup self) (RawKey v)) as [_ Hlk].
  destruct (setdefault_len (cf_lookup self) (RawKey v)) as [lk i]. cbn in *.
  rewrite (setdefault_len_present _ _ _ Hlk).
  by rewrite insert_insert_eq.
Qed.

(** DistributionField: observation is idempotent. *)
Lemma observe_categories_mono (cats : list K) ks k :
  k ∈ cats → k ∈ foldl observe_category cats ks.
Proof.
  revert cats. induction ks as [|k' ks IH]; intros cats Hk; [done|].
  cbn. apply IH. unfold observe_category.
  destruct (decide (k' ∈ cats)); [done|]. apply elem_of_app. by left.
Qed.

Lemma observe_categories_in (cats : list K) ks k :
  k ∈ ks → k ∈ foldl observe_category cats ks.
Proof.
  revert cats. induction ks as [|k' ks IH]; intros cats Hk.
  { by apply elem_of_nil in Hk. }
  apply elem_of_cons in Hk as [->|Hk]; cbn; [|by apply IH].
  apply observe_categories_mono. unfold observe_category.
  destruct (decide (k' ∈ cats)); [done|]. apply elem_of_app. right. by left.
Qed.

Lemma observe_categories_settled (cats : list K) ks :
  (∀ k, k ∈ ks → k ∈ cats) → foldl observe_category cats ks = cats.
Proof.
  induction ks as [|k ks IH]; intros Hin; [done|]. cbn.
  unfold observe_category at 2.
  destruct (decide (k ∈ cats)) as [|Hn]; [|destruct Hn; apply Hin; by left].
  apply IH. intros; apply Hin; by right.
Qed.

Lemma DistributionField_observe_twice {V} (self : DistributionField (K:=K))
  (v : list (K * V)) :
  DistributionField_observe_value (DistributionField_observe_value self v) v
  = DistributionField_observe_value self v.
Proof.
  unfold DistributionField_observe_value. cbn. f_equal.
  apply observe_categories_settled. intros k Hk.
  by apply observe_categories_in.
Qed.

(** The fields without tables (metadata, integer and date fields). *)
Lemma Field_observe_twice {V} (self : Field) (v : V) :
  Field_observe_value (Field_observe_value self v) v
  = Field_observe_value self v.
Proof. done. Qed.

(** *** CategoricalField: the round trip on indices *)

Lemma cat_reachable_inv (self : CategoricalField (K:=K)) :
  cat_reachable self → cat_inv self.
Proof.
  induction 1 as [|self v _ IH].
  - intros k i. cbn. rewrite lookup_singleton_Some. intros [<- <-].
    rewrite map_size_singleton. split; [lia | by left].
  - intros k i. unfold CategoricalField_observe_value, setdefault_len.
    destruct (cf_lookup self !! RawKey v) as [j|] eqn:E; cbn.
    + intros Hk. destruct (IH _ _ Hk) as [Hlt Hr]. split; [done|].
      destruct Hr as [->|Hr]; [by left|]. right.
      destruct (decide (j = i)) as [->|Hne].
      * rewrite lookup_insert_eq. destruct (IH _ _ E) as [_ [?|Hr']]; [done|].
        congruence.
      * by rewrite lookup_insert_ne.
    + rewrite map_size_insert_None by done.
      destruct (decide (k = RawKey v)) as [->|Hne].
      * rewrite lookup_insert_eq. intros [= <-]. split; [lia|]. right.
        by rewrite lookup_insert_eq.
      * rewrite lookup_insert_ne by done. intros Hk.
        destruct (IH _ _ Hk) as [Hlt Hr]. split; [lia|].
        destruct Hr as [->|Hr]; [by left|]. right.
        rewrite lookup_insert_ne by lia. done.
Qed.

(** [encode(decode(encode(v))) == encode(v)] for every value [v] the
    field knows. *)
Lemma CategoricalField_roundtrip (self : CategoricalField (K:=K)) v i :
  cat_reachable self →
  CategoricalField_encode self (RawKey v) = Some i →
  ∃ d, CategoricalField_decode self i = Ok d ∧
       CategoricalField_encode self d = Some i.
Proof.
  intros Hr He. apply cat_reachable_inv in Hr.
  destruct (Hr _ _ He) as [_ [?|Hd]]; [done|].
  exists (RawKey v). unfold CategoricalField_decode. by rewrite Hd.
Qed.

(** An observed value is known afterwards. *)
Lemma CategoricalField_observed_known (self : CategoricalField (K:=K)) v :
  is_Some (CategoricalField_encode (CategoricalField_observe_value self v)
             (RawKey v)).
Proof.
  unfold CategoricalField_encode, CategoricalField_observe_value.
  destruct (setdefault_len_lookup (cf_lookup self) (RawKey v)) as [_ Hlk].
  destruct (setdefault_len (cf_lookup self) (RawKey v)). cbn in *. by eexists.
Qed.

(** *** SequentialField: decoding *)

Lemma SequentialField_decode_nonempty (self : SequentialField (K:=K)) i l :
  SequentialField_decode self (i :: l) = Raise Exception.
Proof. done. Qed.

End CodecFacts.

(** *** NumericField *)

Lemma SFltb_irrefl f : SFltb f f = false.
Proof.
  unfold SFltb. destruct f as [[]|[]| |[] m e]; cbn; try done;
    by rewrite Z.compare_refl, Pos.compare_cont_refl.
Qed.

Lemma num_gt_irrefl a : num_gt a a = false.
Proof. destruct a; cbn; [apply Z.ltb_irrefl | apply SFltb_irrefl]. Qed.

Lemma num_lt_irrefl a : num_lt a a = false.
Proof. apply num_gt_irrefl. Qed.

Section NumericFacts.

Variable float_of_str : string → option spec_float.

Abbreviation observe := (NumericField_observe_value float_of_str).

(** A [float] may be observed again without effect. *)
Lemma NumericField_observe_twice_float self f :
  (observe (observe self (RFloat f)).1 (RFloat f)).1
  = (observe self (RFloat f)).1.
Proof.
  destruct self as [e [mx|] [mn|]];
    unfold NumericField_observe_value, py_max, py_min;
    cbn -[num_gt num_lt];
    try destruct (num_gt (PyFloat f) mx) eqn:E1;
    try destruct (num_lt (PyFloat f) mn) eqn:E2;
    cbn -[num_gt num_lt];
    by rewrite ?E1, ?E2, ?num_gt_irrefl, ?num_lt_irrefl.
Qed.

(** So may a [str]: the second observation raises, or both do, and the
    fields of the object end up the same. *)
Lemma NumericField_observe_twice_str self s :
  (observe (observe self (RStr s)).1 (RStr s)).1
  = (observe self (RStr s)).1.
Proof.
  destruct self as [e [mx|] [mn|]]; unfold NumericField_observe_value; cbn;
    destruct (float_of_str s) eqn:E; cbn; rewrite ?E; done.
Qed.

(** And an [int] that [float] represents exactly. *)
Lemma NumericField_observe_twice_int self z f :
  float_of_int z = Ok f → cmp_int_float z f = Some Eq →
  (observe (observe self (RInt z)).1 (RInt z)).1
  = (observe self (RInt z)).1.
Proof.
  intros Hf Hc.
  assert (num_gt (PyInt z) (PyFloat f) = false) as Hgt
    by (cbn; by rewrite Hc).
  assert (num_lt (PyInt z) (PyFloat f) = false) as Hlt
    by (cbn; by rewrite Hc).
  destruct self as [e [mx|] [mn|]];
    unfold NumericField_observe_value, py_max, py_min, py_float;
    rewrite Hf; cbn -[num_gt num_lt]; rewrite ?Hf;
    try destruct (num_gt (PyInt z) mx) eqn:E1;
    try destruct (num_lt (PyInt z) mn) eqn:E2;
    cbn -[num_gt num_lt];
    by rewrite ?Hf, ?E1, ?E2, ?Hgt, ?Hlt, ?num_gt_irrefl, ?num_lt_irrefl.
Qed.

End NumericFacts.

(** C7 (the code departs from it): the round trip
    [encode(decode(encode(v))) == encode(v)] holds for categorical fields
    ([CategoricalField_roundtrip]) but not for sequential ones.  A fresh
    [SequentialField] that has observed the sequence [a, b] encodes it as
    the indices [1, 2], and decoding those indices raises instead of
    giving back a value to encode. *)
Theorem C7_sequential_roundtrip_raises :
  let self :=
    SequentialField_observe_value SequentialField_init ["a"; "b"]%string in
  SequentialField_encode self ["a"; "b"]%string = Ok [1; 2] ∧
  SequentialField_decode self [1; 2] = Raise Exception.
Proof. split; [by vm_compute | done]. Qed.

(** C10 (the code departs from it): observation is idempotent for every
    codec but [NumericField] (see the [_observe_twice] lemmas above), whose
    first observation stores [float(v)] and whose later ones compare and
    store [v] itself.  For the integer [2^53 + 1], which [float] rounds to
    [2^53], a second observation replaces [max_val = 2^53] (a float) by
    the integer [2^53 + 1]. *)
Theorem C10_numeric_observe_twice_differs
  (float_of_str : string → option spec_float) :
  let v := RInt 9007199254740993 in
  let once := (NumericField_observe_value float_of_str NumericField_init v).1 in
  let twice := (NumericField_observe_value float_of_str once v).1 in
  max_val once = Some (PyFloat (S754_finite false 4503599627370496 1)) ∧
  max_val twice = Some (PyInt 9007199254740993) ∧
  once ≠ twice.
Proof.
  cbv zeta. split; [by vm_compute|]. split; [by vm_compute|].
  vm_compute. discriminate.
Qed.

End FieldsFacts.

(** ** ensemble.py *)

Module EnsembleFacts.

Import Ensemble.

(** *** Loops in the error monad *)

Lemma foldlM_app {A B} (f : B → A → result B) b l1 l2 :
  foldlM f b (l1 ++ l2) = foldlM f b l1 ≫= fun b' => foldlM f b' l2.
Proof.
  revert b. induction l1 as [|x l1 IH]; intros b; cbn; [done|].
  destruct (f b x); cbn; [apply IH | done].
Qed.

(** A loop invariant [P], indexed by the part of the list already
    processed. *)
Lemma foldlM_ind_prefix {A B} (P : list A → B → Prop) (f : B → A → result B)
  b l r :
  P [] b →
  (∀ pre x post b b',
     l = pre ++ x :: post → P pre b → f b x = Ok b' → P (pre ++ [x]) b') →
  foldlM f b l = Ok r → P l r.
Proof.
  intros H0 Hstep.
  assert (∀ post pre b, l = pre ++ post → P pre b →
            foldlM f b post = Ok r → P l r) as Hgen.
  { induction post as [|x post IH]; intros pre b' Hl HP Hf; cbn in Hf.
    - rewrite app_nil_r in Hl. congruence.
    - apply bind_Ok in Hf as (b'' & Hb'' & Hf).
      apply (IH (pre ++ [x]) b''); [by rewrite <- app_assoc | | done].
      by eapply Hstep. }
  by apply (Hgen l [] b).
Qed.

Lemma foldlM_ind {A B} (P : list A → B → Prop) (f : B → A → result B)
  b l r :
  P [] b →
  (∀ pre x b b', x ∈ l → P pre b → f b x = Ok b' → P (pre ++ [x]) b') →
  foldlM f b l = Ok r → P l r.
Proof.
  intros H0 Hstep. apply foldlM_ind_prefix; [done|].
  intros pre x post b0 b' ->. apply Hstep.
  apply elem_of_app. right. by left.
Qed.

(** The same without the prefix. *)
Lemma foldlM_inv {A B} (P : B → Prop) (f : B → A → result B) b l r :
  P b → (∀ x b b', x ∈ l → P b → f b x = Ok b' → P b') →
  foldlM f b l = Ok r → P r.
Proof.
  intros H0 Hstep. apply (foldlM_ind (fun _ => P)); [done|]. eauto.
Qed.

(** A loop whose body changes nothing. *)
Lemma foldlM_id {A B} (f : B → A → result B) b l :
  (∀ x, x ∈ l → f b x = Ok b) → foldlM f b l = Ok b.
Proof.
  induction l as [|x l IH]; intros Hf; cbn; [done|].
  rewrite Hf by (by left). cbn. apply IH. intros; apply Hf; by right.
Qed.

(** A loop raises as soon as its body raises on some element, whatever
    the accumulator. *)
Lemma foldlM_raises {A B} (f : B → A → result B) b l x :
  x ∈ l → (∀ b, is_ok (f b x) = false) → is_ok (foldlM f b l) = false.
Proof.
  revert b. induction l as [|y l IH]; intros b Hin Hx.
  { by apply elem_of_nil in Hin. }
  cbn. apply elem_of_cons in Hin as [<-|Hin].
  - specialize (Hx b). by destruct (f b x).
  - destruct (f b y); cbn; [by apply IH | done].
Qed.

Lemma mapM_Ok {A B} (f : A → result B) l r :
  mapM f l = Ok r ↔ Forall2 (fun x y => f x = Ok y) l r.
Proof.
  revert r. induction l as [|x l IH]; intros r; cbn.
  - split; [intros [= <-]; constructor | by inversion 1].
  - split.
    + intros Hm. apply bind_Ok in Hm as (y & Hy & Hm).
      apply bind_Ok in Hm as (k & Hk & [= <-]).
      constructor; [done | by apply IH].
    + inversion 1 as [|? y ? k Hy Hk]; subst. rewrite Hy. cbn.
      apply IH in Hk. rewrite Hk. done.
Qed.

(** *** Masks and index tensors *)

Lemma select_by_cons {A} (x : A) xs (b : bool) mask :
  select_by (x :: xs) (b :: mask)
  = if b then x :: select_by xs mask else select_by xs mask.
Proof.
  unfold select_by. cbn. by destruct b.
Qed.

Lemma elem_of_select_by {A} (xs : list A) mask x :
  x ∈ select_by xs mask ↔ ∃ i, xs !! i = Some x ∧ mask !! i = Some true.
Proof.
  revert mask. induction xs as [|y xs IH]; intros mask.
  { unfold select_by. cbn. split; [by intros ?%elem_of_nil|].
    by intros (i & ? & _). }
  destruct mask as [|b mask].
  { unfold select_by. cbn. split; [by intros ?%elem_of_nil|].
    by intros (i & _ & ?). }
  rewrite select_by_cons. split.
  - destruct b.
    + intros [->|Hx]%elem_of_cons; [by exists 0|].
      apply IH in Hx as (i & ? & ?). by exists (S i).
    + intros Hx. apply IH in Hx as (i & ? & ?). by exists (S i).
  - intros ([|i] & Hx & Hm); cbn in *.
    + injection Hx as ->. injection Hm as ->. by left.
    + assert (x ∈ select_by xs mask) by (apply IH; eauto).
      destruct b; [by right | done].
Qed.

(** On distinct positions, selecting by the conjunction of two masks is
    intersecting the two selections. *)
Lemma select_by_and {A} `{EqDecision A} (xs : list A) (a b : list bool) :
  NoDup xs → length a = length xs → length b = length xs →
  select_by xs (zip_with andb a b)
  = list_intersection (select_by xs a) (select_by xs b).
Proof.
  intros Hnd. revert a b.
  induction Hnd as [|x xs Hx Hnd IH]; intros [|a0 a] [|b0 b] Ha Hb;
    try discriminate; [done|].
  cbn [zip_with]. rewrite !select_by_cons.
  injection Ha as Ha. injection Hb as Hb. specialize (IH a b Ha Hb).
  assert (x ∉ select_by xs b) as Hxb.
  { intros (i & Hi & _)%elem_of_select_by. apply Hx.
    by eapply list_elem_of_lookup_2. }
  assert (∀ k, list_intersection (select_by xs a) (x :: k)
               = list_intersection (select_by xs a) k) as Hskip.
  { intros k. assert (x ∉ select_by xs a) as Hxa.
    { intros (i & Hi & _)%elem_of_select_by. apply Hx.
      by eapply list_elem_of_lookup_2. }
    revert Hxa. generalize (select_by xs a). intros l.
    induction l as [|y l IHl]; intros Hn; [done|]. cbn.
    apply not_elem_of_cons in Hn as [Hne Hn].
    destruct (decide_rel elem_of y (x :: k)) as [Hy|Hy];
      destruct (decide_rel elem_of y k) as [Hy'|Hy'].
    - by rewrite IHl.
    - apply elem_of_cons in Hy as [->|]; done.
    - destruct Hy. by right.
    - by apply IHl. }
  destruct a0, b0; cbn [andb list_intersection].
  - destruct (decide_rel elem_of x (x :: select_by xs b)) as [_|Hn];
      [by rewrite Hskip, IH | destruct Hn; by left].
  - by destruct (decide_rel elem_of x (select_by xs b)).
  - by rewrite Hskip.
  - done.
Qed.

Lemma select_by_all_false {A} (xs : list A) mask :
  (∀ i, mask !! i ≠ Some true) → select_by xs mask = [].
Proof.
  intros Hm. destruct (select_by xs mask) as [|x l] eqn:E; [done|].
  assert (x ∈ select_by xs mask) as Hx by (rewrite E; by left).
  apply elem_of_select_by in Hx as (i & _ & Hi). by destruct (Hm i).
Qed.

Section Facts.

Context {R : Type} `{Scalar R}.

(** *** Depth 0 *)

(** C3: with depth 0 the forward computation returns the same result
    (the same reconstructions and bottleneck tensor, or the same
    exception) whatever adjacency is supplied. *)
Theorem C3_depth0_ignores_adjacency (self : GraphAutoencoder R)
  (entities : Batch R) (adjacencies1 adjacencies2 : gmap string (list (list bool))) :
  depth self = 0 →
  forward self entities adjacencies1 = forward self entities adjacencies2.
Proof.
  intros Hd. unfold forward, propagate. by rewrite Hd.
Qed.

(** *** Indexing (ensemble.py:139-155) *)

Section Indexing.

Variable self : GraphAutoencoder R.
Variable entities : Batch R.

Local Abbreviation N := (length (b_types entities)).
Local Abbreviation index_space := (index_space entities).

Lemma masked_select_Ok xs mask r :
  masked_select xs mask = Ok r ↔
  length xs = length mask ∧ r = select_by xs mask.
Proof.
  unfold masked_select. destruct (Nat.eqb_spec (length xs) (length mask)).
  - split; [intros [= <-]; done | intros [_ ->]; done].
  - split; [done | intros [? _]; done].
Qed.

Lemma mask_and_Ok a b r :
  mask_and a b = Ok r ↔ length a = length b ∧ r = zip_with andb a b.
Proof.
  unfold mask_and. destruct (Nat.eqb_spec (length a) (length b)).
  - split; [intros [= <-]; done | intros [_ ->]; done].
  - split; [done | intros [? _]; done].
Qed.

Lemma length_index_space : length index_space = N.
Proof. apply length_seq. Qed.

Lemma length_entity_mask name : length (entity_mask entities name) = N.
Proof. apply length_fmap. Qed.

Lemma index_field_Ok ix f ix' :
  index_field entities ix f = Ok ix' →
  ∃ col mask,
    b_data entities !! f_name f = Some col ∧ field_mask f col = Ok mask ∧
    length mask = N ∧
    ix' = {| entity_indices := entity_indices ix;
             entity_masks := entity_masks ix;
             field_indices :=
               <[f_name f := select_by index_space mask]> (field_indices ix);
             field_masks := <[f_name f := mask]> (field_masks ix);
             entity_field_indices := entity_field_indices ix;
             entity_field_masks := entity_field_masks ix |}.
Proof.
  unfold index_field. intros Hf.
  inv_bind Hf as col Hcol. inv_bind Hf as mask Hmask. inv_bind Hf as idx Hidx.
  apply getitem_Ok in Hcol. apply masked_select_Ok in Hidx as [Hlen ->].
  rewrite length_index_space in Hlen.
  exists col, mask. repeat split; try done. congruence.
Qed.

Lemma index_fields_inv fs ix :
  foldlM (index_field entities) no_indices fs = Ok ix → fields_inv entities fs ix.
Proof.
  apply (foldlM_ind (fields_inv entities)).
  { split; [done|]. split; [done|]. split.
    - intros f Hf. by apply elem_of_nil in Hf.
    - intros n mask Hm. cbn in Hm. by rewrite lookup_empty in Hm. }
  intros pre f ix0 ix1 _ (He & Hef & Hdom & Hm) Hstep.
  apply index_field_Ok in Hstep as (col & mask & Hcol & Hmask & Hlen & ->).
  split; [done|]. split; [done|]. cbn. split.
  - intros f' [Hf'|Hf']%elem_of_app.
    + destruct (decide (f_name f = f_name f')) as [->|Hne];
        [by rewrite lookup_insert_eq | rewrite lookup_insert_ne by done].
      by apply Hdom.
    + apply list_elem_of_singleton in Hf' as ->. by rewrite lookup_insert_eq.
  - intros n mask' Hn. destruct (decide (f_name f = n)) as [<-|Hne].
    + rewrite lookup_insert_eq in Hn. injection Hn as <-.
      rewrite lookup_insert_eq. split; [done|]. split; [done|].
      exists f, col. repeat split; try done. apply elem_of_app. right. by left.
    + rewrite lookup_insert_ne in Hn by done. rewrite lookup_insert_ne by done.
      apply Hm in Hn as (? & ? & f' & col' & ? & ? & ? & ?).
      split; [done|]. split; [done|].
      exists f', col'. repeat split; try done. apply elem_of_app. by left.
Qed.

Lemma index_entity_field_Ok et emask ix fn ix' :
  index_entity_field entities et emask ix fn = Ok ix' →
  ∃ fmask,
    field_masks ix !! fn = Some fmask ∧ length emask = length fmask ∧
    ix' = {| entity_indices := entity_indices ix;
             entity_masks := entity_masks ix;
             field_indices := field_indices ix;
             field_masks := field_masks ix;
             entity_field_indices :=
               <[(et_name et, fn) :=
                   select_by index_space (zip_with andb emask fmask)]>
                 (entity_field_indices ix);
             entity_field_masks :=
               <[(et_name et, fn) := zip_with andb emask fmask]>
                 (entity_field_masks ix) |}.
Proof.
  unfold index_entity_field. intros Hf.
  inv_bind Hf as fmask Hfm. inv_bind Hf as efmask Hefm.
  inv_bind Hf as efidx Hefi.
  apply getitem_Ok in Hfm. apply mask_and_Ok in Hefm as [Hlen ->].
  apply masked_select_Ok in Hefi as [_ ->].
  exists fmask. repeat split; try done. congruence.
Qed.

Lemma index_entity_fields_inv fm fi et ix fns ix' :
  entities_inv entities fm fi ix →
  foldlM (index_entity_field entities et (entity_mask entities (et_name et)))
         ix fns = Ok ix' →
  entities_inv entities fm fi ix' ∧
  entity_indices ix' = entity_indices ix ∧
  (∀ k, is_Some (entity_field_indices ix !! k) →
        is_Some (entity_field_indices ix' !! k)) ∧
  (∀ f, f ∈ fns → is_Some (entity_field_indices ix' !! (et_name et, f))).
Proof.
  intros Hinv.
  apply (foldlM_ind (fun pre ix' =>
    entities_inv entities fm fi ix' ∧
    entity_indices ix' = entity_indices ix ∧
    (∀ k, is_Some (entity_field_indices ix !! k) →
          is_Some (entity_field_indices ix' !! k)) ∧
    (∀ f, f ∈ pre →
          is_Some (entity_field_indices ix' !! (et_name et, f))))).
  { split; [done|]. split; [done|]. split; [done|].
    intros f Hf. by apply elem_of_nil in Hf. }
  intros pre fn ix0 ix1 _ ((Hfm & Hfi & He & Hef) & Hsame & Hmono & Hdom) Hs.
  apply index_entity_field_Ok in Hs as (fmask & Hmask & Hlen & ->).
  cbn. split; [|split; [done|split]].
  - split; [done|]. split; [done|]. cbn. split; [done|].
    intros t f ef Hl. destruct (decide ((et_name et, fn) = (t, f))) as [E|Hne].
    + rewrite E, lookup_insert_eq in Hl. injection Hl as <-.
      injection E as <- <-. exists fmask. split; [congruence | done].
    + rewrite lookup_insert_ne in Hl by done. by apply Hef.
  - intros k Hk. destruct (decide ((et_name et, fn) = k)) as [<-|Hne];
      [by rewrite lookup_insert_eq | rewrite lookup_insert_ne by done].
    by apply Hmono.
  - intros f [Hf|Hf]%elem_of_app.
    + destruct (decide (fn = f)) as [->|Hne];
        [by rewrite lookup_insert_eq|].
      rewrite lookup_insert_ne by congruence. by apply Hdom.
    + apply list_elem_of_singleton in Hf as ->. by rewrite lookup_insert_eq.
Qed.

Lemma index_entity_Ok fm fi ix et ix' :
  entities_inv entities fm fi ix → index_entity entities ix et = Ok ix' →
  entities_inv entities fm fi ix' ∧
  (∀ ets, entities_dom ets ix → entities_dom (ets ++ [et]) ix').
Proof.
  intros (Hfm & Hfi & He & Hef) Hs. unfold index_entity in Hs.
  inv_bind Hs as eidx Heidx. apply masked_select_Ok in Heidx as [_ ->].
  apply (index_entity_fields_inv fm fi) in Hs as (Hinv & Hsame & Hmono & Hdom).
  - split; [done|]. cbn in Hsame, Hmono.
    intros ets Hets et' [Het'|Het']%elem_of_app.
    + destruct (Hets _ Het') as [Hi Hf]. split.
      * rewrite Hsame.
        destruct (decide (et_name et = et_name et')) as [->|Hne];
          [by rewrite lookup_insert_eq | by rewrite lookup_insert_ne].
      * intros f Hin. apply Hmono. by apply Hf.
    + apply list_elem_of_singleton in Het' as ->. split; [|done].
      rewrite Hsame. by rewrite lookup_insert_eq.
  - split; [done|]. split; [done|]. cbn. split; [|done].
    intros n e Hl. destruct (decide (et_name et = n)) as [<-|Hne].
    + rewrite lookup_insert_eq in Hl. congruence.
    + rewrite lookup_insert_ne in Hl by done. by apply He.
Qed.

Lemma index_entities_inv fm fi ix ets ix' :
  entities_inv entities fm fi ix →
  foldlM (index_entity entities) ix ets = Ok ix' →
  entities_inv entities fm fi ix' ∧ entities_dom ets ix'.
Proof.
  intros Hinv.
  apply (foldlM_ind (fun pre ix' =>
           entities_inv entities fm fi ix' ∧ entities_dom pre ix')).
  { split; [done|]. intros et Het. by apply elem_of_nil in Het. }
  intros pre et ix0 ix1 _ [Hi Hd] Hs.
  destruct (index_entity_Ok _ _ _ _ _ Hi Hs) as [Hi' Hd']. split; [done|].
  by apply Hd'.
Qed.

(** The finished index dictionaries. *)
Lemma assemble_indices_Ok ix :
  assemble_indices self entities = Ok ix →
  fields_inv entities (s_data_fields (schema self))
    {| entity_indices := ∅; entity_masks := ∅;
       field_indices := field_indices ix; field_masks := field_masks ix;
       entity_field_indices := ∅; entity_field_masks := ∅ |} ∧
  entities_inv entities (field_masks ix) (field_indices ix) ix ∧
  entities_dom (s_entity_types (schema self)) ix.
Proof.
  unfold assemble_indices. intros Ha. inv_bind Ha as ix1 H1.
  apply index_fields_inv in H1.
  assert (entities_inv entities (field_masks ix1) (field_indices ix1) ix1) as Hinv.
  { destruct H1 as (He & Hef & _ & Hm). split; [done|]. split; [done|]. split.
    - intros n e Hn. by rewrite He, lookup_empty in Hn.
    - intros t f ef Hn. by rewrite Hef, lookup_empty in Hn. }
  destruct (index_entities_inv _ _ _ _ _ Hinv Ha) as [Hinv' Hdom].
  destruct Hinv' as (Hfm & Hfi & Hrest). rewrite Hfm, Hfi.
  split; [|split; [|done]].
  - destruct H1 as (He & Hef & Hd & Hm). by split; [|split; [|split]].
  - by split; [|split].
Qed.

(** C9: for every entity type [t] of the schema and every data field
    [f] it declares, the forward pass computes
    [entity_field_indices[(t, f)]] as exactly the intersection of
    [entity_indices[t]] and [field_indices[f]]. *)
Theorem C9_entity_field_indices_intersection ix et f :
  assemble_indices self entities = Ok ix →
  et ∈ s_entity_types (schema self) → f ∈ data_fields et →
  ∃ e fi,
    entity_indices ix !! et_name et = Some e ∧
    field_indices ix !! f = Some fi ∧
    entity_field_indices ix !! (et_name et, f)
    = Some (list_intersection e fi).
Proof.
  intros Ha Het Hf.
  destruct (assemble_indices_Ok _ Ha) as (Hfields & Hinv & Hdom).
  destruct Hfields as (_ & _ & _ & Hm). cbn in Hm.
  destruct Hinv as (_ & _ & He & Hef).
  destruct (Hdom _ Het) as [[e Hei] Hfs]. destruct (Hfs _ Hf) as [ef Hefi].
  destruct (Hef _ _ _ Hefi) as (mask & Hmask & ->).
  destruct (Hm _ _ Hmask) as (Hlen & Hfi & _).
  exists e, (select_by index_space mask). split; [done|]. split; [done|].
  rewrite Hefi. f_equal. rewrite (He _ _ Hei).
  apply select_by_and.
  - apply NoDup_seq.
  - by rewrite length_entity_mask, length_index_space.
  - by rewrite length_index_space.
Qed.

End Indexing.

(** *** Tensors *)

Lemma zeros_lookup n c i :
  i < n → t_rows (zeros n c) !! i = Some (replicate c s_zero).
Proof. intros Hi. cbn. by apply lookup_replicate_2. Qed.

Lemma zeros_not_nan c : Forall (fun x => s_isnan x = false) (replicate c s_zero).
Proof. apply Forall_replicate, s_zero_not_nan. Qed.

Lemma foldl_insert_rows (rows : list (list R)) (ws : list (nat * list R)) :
  let rows' := foldl (fun rows ir => <[ir.1 := ir.2]> rows) rows ws in
  length rows' = length rows ∧
  ∀ i, i ∉ ws.*1 → rows' !! i = rows !! i.
Proof.
  revert rows. induction ws as [|[j r] ws IH]; intros rows; cbn; [done|].
  destruct (IH (<[j := r]> rows)) as [Hlen Hl]. split.
  - by rewrite Hlen, length_insert.
  - intros i [Hne Hi]%not_elem_of_cons. rewrite Hl by done.
    by rewrite list_lookup_insert_ne.
Qed.

Lemma index_put_Ok (t : tensor R) idx v t' :
  index_put t idx v = Ok t' →
  t_cols t' = t_cols t ∧ nrows t' = nrows t ∧
  ∀ i, i ∉ idx → t_rows t' !! i = t_rows t !! i.
Proof.
  unfold index_put.
  destruct (negb _); [done|]. destruct (negb _); [done|]. intros [= <-]. cbn.
  destruct (foldl_insert_rows (t_rows t) (zip idx (t_rows v))) as [Hlen Hl].
  split; [done|]. split; [done|]. intros i Hi. apply Hl.
  intros Hin. apply Hi. apply list_elem_of_fmap in Hin as ([j r] & -> & Hjr).
  by apply elem_of_zip_l in Hjr.
Qed.

(** *** Field encoding (ensemble.py:158-166) *)

Section Encoding.

Variable self : GraphAutoencoder R.
Variable entities : Batch R.
Variable ix : Indices.

Lemma encode_field_Ok acc f acc' :
  encode_field self entities ix acc f = Ok acc' →
  ∃ t idx, encoding_ok self entities ix (f_name f) t ∧
           field_indices ix !! f_name f = Some idx ∧
           acc'.1 = <[f_name f := t]> acc.1 ∧
           acc'.2 = (if 0 <? length idx then acc.2 ++ [f_name f] else acc.2).
Proof.
  unfold encode_field. intros He.
  inv_bind He as enc Henc. inv_bind He as idx Hidx.
  apply getitem_Ok in Henc, Hidx.
  destruct (0 <? length idx) eqn:Elen.
  - inv_bind He as col Hcol. inv_bind He as vals Hvals.
    inv_bind He as encoded Hencoded. inv_bind He as t Ht.
    injection He as <-. exists t, idx.
    split; [|by rewrite Elen].
    apply index_put_Ok in Ht as (Hc & Hn & Hrows).
    exists enc, idx. split; [done|]. split; [done|]. split; [done|]. split.
    { rewrite Hn. unfold nrows. cbn. by rewrite length_replicate. }
    split.
    + intros i Hi Hlt. rewrite Hrows by done. by apply zeros_lookup.
    + intros ->. done.
  - injection He as <-.
    exists (zeros (num_entities entities) (fe_output_size enc)), idx.
    split; [|by rewrite Elen].
    exists enc, idx. split; [done|]. split; [done|]. split; [done|]. split.
    { unfold nrows. cbn. by rewrite length_replicate. }
    split; [|done]. intros i _ Hlt. by apply zeros_lookup.
Qed.

Lemma encode_fields_Ok encs log :
  encode_fields self entities ix = Ok (encs, log) →
  (∀ f, f ∈ s_data_fields (schema self) → is_Some (encs !! f_name f)) ∧
  (∀ n t, encs !! n = Some t → encoding_ok self entities ix n t) ∧
  (∀ n, n ∈ log → ∃ idx, field_indices ix !! n = Some idx ∧ idx ≠ []).
Proof.
  unfold encode_fields. intros He.
  apply (foldlM_ind (fun pre acc =>
    (∀ f, f ∈ pre → is_Some (acc.1 !! f_name f)) ∧
    (∀ n t, acc.1 !! n = Some t → encoding_ok self entities ix n t) ∧
    (∀ n, n ∈ acc.2 → ∃ idx, field_indices ix !! n = Some idx ∧ idx ≠ [])))
    in He; [exact He | |].
  { cbn. split; [|split].
    - intros f Hf. by apply elem_of_nil in Hf.
    - intros n t Hn. by rewrite lookup_empty in Hn.
    - intros n Hn. by apply elem_of_nil in Hn. }
  intros pre f acc0 acc1 _ (Hdom & Hok & Hlog) Hs.
  apply encode_field_Ok in Hs as (t & idx & Ht & Hidx & -> & ->).
  split; [|split].
  - intros f' [Hf'|Hf']%elem_of_app.
    + destruct (decide (f_name f = f_name f')) as [->|Hne];
        [by rewrite lookup_insert_eq | rewrite lookup_insert_ne by done].
      by apply Hdom.
    + apply list_elem_of_singleton in Hf' as ->. by rewrite lookup_insert_eq.
  - intros n t' Hn. destruct (decide (f_name f = n)) as [<-|Hne].
    + rewrite lookup_insert_eq in Hn. congruence.
    + rewrite lookup_insert_ne in Hn by done. by apply Hok.
  - intros n Hn. destruct (0 <? length idx) eqn:Elen; [|by apply Hlog].
    apply elem_of_app in Hn as [Hn|Hn]; [by apply Hlog|].
    apply list_elem_of_singleton in Hn as ->. exists idx. split; [done|].
    intros ->. cbn in Elen. done.
Qed.

End Encoding.

(** A row that holds a NaN sums to NaN. *)
Lemma foldl_add_nan (row : list R) acc :
  s_isnan acc = true → s_isnan (foldl s_add acc row) = true.
Proof.
  revert acc. induction row as [|x row IH]; intros acc Ha; [done|].
  cbn. apply IH. by apply s_add_nan_l.
Qed.

Lemma row_sum_nan (row : list R) :
  Exists (fun x => s_isnan x = true) row → s_isnan (row_sum row) = true.
Proof.
  intros Hex. unfold row_sum. generalize (s_zero (R:=R)).
  induction Hex as [x row Hx|x row _ IH]; intros acc; cbn.
  - apply foldl_add_nan. by apply s_add_nan_r.
  - apply IH.
Qed.

Lemma NoDup_fmap_elem_inj {A B} (g : A → B) (l : list A) x y :
  NoDup (g <$> l) → x ∈ l → y ∈ l → g x = g y → x = y.
Proof.
  intros Hnd [i Hi]%list_elem_of_lookup [j Hj]%list_elem_of_lookup Hg.
  assert (i = j) as ->; [|congruence].
  eapply NoDup_lookup; [done | |];
    rewrite list_lookup_fmap; [by rewrite Hi | by rewrite Hj, Hg].
Qed.

(** C5: after field encoding, every row of a field's encoding tensor
    whose presence mask is false is exactly zero, and not NaN; the tensor
    has one row per entity and the encoder's output width.  A field of a
    non-sequential kind all of whose rows are missing (hold a NaN) has an
    all-false mask and an all-zero encoding, and its encoder is not
    called. *)
Theorem C5_absent_rows_stay_zero (self : GraphAutoencoder R)
  (entities : Batch R) ix encs log f :
  assemble_indices self entities = Ok ix →
  encode_fields self entities ix = Ok (encs, log) →
  f ∈ s_data_fields (schema self) →
  ∃ enc mask t,
    field_encoders self !! f_name f = Some enc ∧
    field_masks ix !! f_name f = Some mask ∧
    encs !! f_name f = Some t ∧
    nrows t = num_entities entities ∧ t_cols t = fe_output_size enc ∧
    (∀ i row, mask !! i = Some false → t_rows t !! i = Some row →
       row = replicate (fe_output_size enc) s_zero ∧
       Forall (fun x => s_isnan x = false) row) ∧
    (NoDup (f_name <$> s_data_fields (schema self)) →
     is_sequential f = false →
     (∃ col, b_data entities !! f_name f = Some col ∧
             Forall (Exists (fun x => s_isnan x = true)) (t_rows col)) →
     mask = replicate (length (b_types entities)) false ∧
     t = zeros (num_entities entities) (fe_output_size enc) ∧
     f_name f ∉ log).
Proof.
  intros Ha He Hf.
  destruct (assemble_indices_Ok _ _ _ Ha) as ((_ & _ & Hdom & Hm) & _ & _).
  cbn in Hdom, Hm.
  destruct (encode_fields_Ok _ _ _ _ _ He) as (Hedom & Hok & Hlog).
  destruct (Hdom _ Hf) as [mask Hmask]. destruct (Hedom _ Hf) as [t Ht].
  destruct (Hm _ _ Hmask) as (Hlen & Hfi & f' & col' & Hf' & Hname & Hcol' & Hfm).
  destruct (Hok _ _ Ht) as (enc & idx & Henc & Hidx & Hc & Hn & Hz & Hempty).
  assert (idx = select_by (index_space entities) mask) as -> by congruence.
  exists enc, mask, t. repeat (split; [done|]). split.
  - intros i row Hi Hrow.
    assert (row = replicate (fe_output_size enc) s_zero) as ->.
    { assert (Some row = Some (replicate (fe_output_size enc) s_zero)) as Hr;
        [|by injection Hr].
      rewrite <- Hrow. apply Hz.
      - intros (j & Hj & Hmj)%elem_of_select_by.
        apply lookup_seq in Hj as [-> _]. cbn in Hi. congruence.
      - rewrite <- Hn. by eapply lookup_lt_Some. }
    split; [done | apply zeros_not_nan].
  - intros Hnd Hseq (col & Hcol & Hnan).
    assert (f' = f) as -> by (by eapply NoDup_fmap_elem_inj).
    assert (col' = col) as -> by congruence.
    assert (mask = replicate (length (b_types entities)) false) as Hall.
    { unfold field_mask in Hfm. rewrite Hseq in Hfm.
      destruct (nrows col =? 0); [done|]. injection Hfm as <-.
      rewrite length_fmap in Hlen. rewrite <- Hlen.
      clear -Hnan. induction Hnan as [|row rows Hrow _ IH]; [done|].
      cbn. rewrite (row_sum_nan _ Hrow). cbn. by f_equal. }
    assert (select_by (index_space entities) mask = []) as Hnil.
    { apply select_by_all_false. intros i. rewrite Hall.
      intros [? _]%lookup_replicate. done. }
    split; [done|]. split; [by apply Hempty|].
    intros (idx' & Hidx' & Hne)%Hlog. congruence.
Qed.

(** *** Relation summaries (ensemble.py:202-225) *)

Section Relations.

Variable self : GraphAutoencoder R.
Variable entities : Batch R.
Variable adjacencies : gmap string (list (list bool)).

Lemma set_row_Ok (t : tensor R) i v t' :
  set_row t i v = Ok t' →
  length v = t_cols t ∧ i < nrows t ∧
  t' = mkTensor (t_cols t) (<[i := v]> (t_rows t)).
Proof.
  unfold set_row. destruct (Nat.eqb_spec (length v) (t_cols t)); [|done].
  destruct (Nat.ltb_spec i (nrows t)); [|done]. cbn. by intros [= <-].
Qed.

Lemma relation_row_Ok summarize prev rel reps i index reps' :
  relation_row entities adjacencies summarize prev rel reps (i, index)
  = Ok reps' →
  (neighbours entities adjacencies rel index = [] ∧ reps' = reps) ∨
  (∃ row, summary_of summarize prev (t_cols reps) (neighbours entities adjacencies rel index) row ∧
          set_row reps i row = Ok reps').
Proof.
  unfold relation_row, neighbours. cbn.
  destruct (adjacencies !! rel) as [m|]; [|intros [= <-]; by left].
  intros Hr. inv_bind Hr as related Hrel. unfold related_indices in Hrel.
  inv_bind Hrel as arow Harow. unfold list_item in Harow.
  destruct (m !! index) as [arow'|]; [|done]. injection Harow as ->. cbn.
  apply masked_select_Ok in Hrel as [_ ->].
  destruct (select_by _ arow) as [|j nbrs] eqn:E; cbn in Hr.
  - injection Hr as <-. by left.
  - inv_bind Hr as obns Hobns. inv_bind Hr as v Hv. right. exists v.
    split; [|done]. right. split; [done|]. by exists obns.
Qed.

Lemma relation_reps_Ok summarizers ix prev et rel t :
  relation_reps self entities adjacencies summarizers ix prev et rel = Ok t →
  relation_block self entities adjacencies summarizers ix prev et rel t.
Proof.
  unfold relation_reps. intros Hr.
  inv_bind Hr as summarize Hs. inv_bind Hr as eidx He. inv_bind Hr as w Hw.
  apply getitem_Ok in Hs, He.
  assert (bottleneck_size self = Some w) as Hbn.
  { unfold bottleneck_width in Hw. destruct (bottleneck_size self); [|done].
    congruence. }
  exists summarize, eidx, w. repeat (split; [done|]).
  set (n := length eidx) in *.
  apply (foldlM_ind_prefix (fun pre t =>
    t_cols t = w ∧ nrows t = n ∧
    ∀ i, i < n →
      if decide (i < length pre)
      then ∃ index row, eidx !! i = Some index ∧ t_rows t !! i = Some row ∧
             summary_of summarize prev w (neighbours entities adjacencies rel index) row
      else t_rows t !! i = Some (replicate w s_zero))) in Hr.
  - destruct Hr as (Hc & Hn & Hrows). split; [done|]. split; [done|].
    intros i index Hi. assert (i < n) as Hlt by (by eapply lookup_lt_Some).
    specialize (Hrows i Hlt). rewrite length_zip, length_seq in Hrows.
    rewrite decide_True in Hrows by (fold n; lia).
    destruct Hrows as (index' & row & Hi' & Hrow & Hsum).
    exists row. split; [done|]. congruence.
  - split; [done|]. split; [unfold nrows; cbn; by rewrite length_replicate|].
    intros i Hi. cbn. by apply lookup_replicate_2.
  - intros pre [i0 index0] post t0 t1 Hl (Hc & Hn & Hrows) Hstep.
    assert (i0 = length pre ∧ eidx !! i0 = Some index0 ∧ i0 < n) as (-> & Hi0 & Hlt).
    { assert (zip (seq 0 n) eidx !! length pre = Some (i0, index0)) as Hz.
      { rewrite Hl. by rewrite list_lookup_middle. }
      apply lookup_zip_with_Some in Hz as (a & b & [= <- <-] & Ha & Hb).
      apply lookup_seq in Ha as [-> ?]. done. }
    rewrite length_app. cbn.
    apply relation_row_Ok in Hstep as [[Hnb ->]|(row & Hsum & Hset)].
    + split; [done|]. split; [done|]. intros i Hi. specialize (Hrows i Hi).
      destruct (decide (i < length pre)).
      * rewrite decide_True by lia. done.
      * destruct (decide (i = length pre)) as [->|Hne].
        -- rewrite decide_True by lia. exists index0, (replicate w s_zero).
           split; [done|]. split; [done|]. left. done.
        -- rewrite decide_False by lia. done.
    + apply set_row_Ok in Hset as (Hlen & _ & ->). cbn.
      split; [done|]. split; [unfold nrows in *; cbn; by rewrite length_insert|].
      intros i Hi. specialize (Hrows i Hi).
      destruct (decide (i = length pre)) as [->|Hne].
      * rewrite decide_True by lia. exists index0, row. split; [done|].
        split; [|by rewrite <- Hc].
        apply list_lookup_insert_eq. unfold nrows in Hn. lia.
      * rewrite list_lookup_insert_ne by done.
        destruct (decide (i < length pre)).
        -- rewrite decide_True by lia. done.
        -- rewrite decide_False by lia. done.
Qed.

(** For a relation that the adjacency does not mention, or whose
    adjacency rows are all false for the entities of the type, the
    computation of the relation's block does not raise (given the
    relation's summarizer, the type's indices and a bottleneck width,
    which the loop needs for any relation), and the block is the zero
    tensor with one row per entity of the type and exactly
    [bottleneck_size] columns.  ([forward_absent_relation] adds that the
    whole forward computation treats the two cases alike.) *)
Lemma relation_reps_without_edges (summarizers : gmap string (Summarizer R))
  (ix : Indices) (prev : tensor R) (et : EntityType) (rel : string)
  (summarize : Summarizer R) (eidx : list nat) (w : nat) :
  summarizers !! rel = Some summarize →
  entity_indices ix !! et_name et = Some eidx →
  bottleneck_size self = Some w →
  (adjacencies !! rel = None ∨
   ∃ m, adjacencies !! rel = Some m ∧
        ∀ index, index ∈ eidx →
          ∃ row, m !! index = Some row ∧
                 length row = length (b_types entities) ∧
                 Forall (fun b => b = false) row) →
  relation_reps self entities adjacencies summarizers ix prev et rel
  = Ok (zeros (length eidx) w) ∧
  t_cols (zeros (length eidx) w) = w ∧
  Forall (fun row => row = replicate w s_zero)
         (t_rows (zeros (length eidx) w)).
Proof.
  intros Hs He Hw Hadj. split; [|split; [done|]].
  - unfold relation_reps, getitem, bottleneck_width. rewrite Hs, He, Hw. cbn.
    apply foldlM_id. intros [i index] Hin. unfold relation_row. cbn.
    destruct Hadj as [->|(m & -> & Hrows)]; [done|].
    apply elem_of_zip_r in Hin.
    destruct (Hrows _ Hin) as (row & Hrow & Hlen & Hfalse).
    unfold related_indices, list_item. rewrite Hrow. cbn.
    unfold masked_select. rewrite length_index_space, Hlen, Nat.eqb_refl. cbn.
    rewrite select_by_all_false; [done|].
    intros j Hj. apply list_elem_of_lookup_2 in Hj.
    rewrite Forall_forall in Hfalse. by apply Hfalse in Hj.
  - cbn. by apply Forall_replicate.
Qed.

(** C2, as amended: the blocks concatenated at a depth >= 1 for an
    entity type are, first, one block per outgoing relation, whose row
    for an entity summarizes, with the relation's target-side
    summarizer, the rows of [prev] at the true entries of the entity's
    row of the relation's adjacency matrix; then, when reverse relations
    are enabled, one block per incoming relation, each row of which is a
    summary by the relation's source-side summarizer (and no incoming
    blocks otherwise). *)
Theorem C2_relation_summaries (ix : Indices) (prev : tensor R)
  (et : EntityType) (reps : list (tensor R)) :
  other_reps self entities adjacencies ix prev et = Ok reps →
  ∃ outgoing incoming,
    reps = outgoing ++ incoming ∧
    Forall2 (relation_block self entities adjacencies (relation_target_summarizers self) ix prev et)
            (relation_fields et) outgoing ∧
    (if reverse_relations self
     then Forall2 (incoming_block self ix prev et)
                  (reverse_relation_fields et) incoming
     else incoming = []).
Proof.
  unfold other_reps. intros Ho.
  inv_bind Ho as outgoing Hout. inv_bind Ho as incoming Hinc.
  injection Ho as <-. exists outgoing, incoming. split; [done|]. split.
  - apply mapM_Ok in Hout. eapply Forall2_impl; [exact Hout|].
    intros rel t. apply relation_reps_Ok.
  - destruct (reverse_relations self); [|by injection Hinc].
    apply mapM_Ok in Hinc. eapply Forall2_impl; [exact Hinc|].
    intros rel t Hr. apply relation_reps_Ok in Hr
      as (summarize & eidx & w & ? & ? & ? & ? & ? & Hrows).
    exists summarize, eidx, w. repeat (split; [done|]).
    intros i index Hi. destruct (Hrows _ _ Hi) as (row & ? & ?).
    by exists row, (neighbours entities adjacencies rel index).
Qed.

End Relations.

(** *** The snapshot read by the propagation loop (ensemble.py:197-239) *)

(** Every depth reads the bottlenecks the loop started from. *)
Lemma propagate_fixed_snapshot (self : GraphAutoencoder R)
  (entities : Batch R) adjacencies ix st0 :
  propagate self entities adjacencies ix st0
  = foldlM (propagate_depth self entities adjacencies ix (bottlenecks st0))
           st0 (seq 1 (depth self)).
Proof. reflexivity. Qed.

(** With a single round of propagation that is the snapshot of the
    previous depth. *)
Lemma propagate_depth1_as_specified (self : GraphAutoencoder R)
  (entities : Batch R) adjacencies ix st0 :
  depth self = 1 →
  propagate self entities adjacencies ix st0
  = propagate_spec self entities adjacencies ix st0.
Proof. intros Hd. unfold propagate, propagate_spec. by rewrite Hd. Qed.

(** *** An absent relation is a relation without edges *)

Lemma foldlM_ext_in {A B} (f g : B → A → result B) b l :
  (∀ b x, x ∈ l → f b x = g b x) → foldlM f b l = foldlM g b l.
Proof.
  revert b. induction l as [|x l IH]; intros b Hfg; cbn; [done|].
  rewrite Hfg by (by left). destruct (g b x); cbn; [|done].
  apply IH. intros; apply Hfg; by right.
Qed.

Lemma mapM_ext {A B} (f g : A → result B) l :
  (∀ x, f x = g x) → mapM f l = mapM g l.
Proof.
  intros Hfg. induction l as [|x l IH]; cbn; [done|].
  rewrite Hfg. destruct (g x); cbn; [|done]. by rewrite IH.
Qed.

Lemma depth0_indices (self : GraphAutoencoder R) (entities : Batch R) ix st :
  depth0 self entities = Ok (ix, st) → assemble_indices self entities = Ok ix.
Proof.
  unfold depth0. intros Hd.
  inv_bind Hd as ix' Hix. inv_bind Hd as enc Henc.
  inv_bind Hd as inputs Hinputs. inv_bind Hd as w Hw. inv_bind Hd as st' Hst.
  by injection Hd as <- <-.
Qed.

Section Absent.

Variable self : GraphAutoencoder R.
Variable entities : Batch R.
Variable adjacencies : gmap string (list (list bool)).
Variable rel : string.
Hypothesis Habsent : adjacencies !! rel = None.

(** The adjacency with an all-false square matrix added for [rel]. *)
Local Abbreviation N := (length (b_types entities)).
Local Abbreviation adjacencies' :=
  (<[rel := replicate N (replicate N false)]> adjacencies).

Lemma relation_row_absent summarize prev rel' reps i index :
  index < N →
  relation_row entities adjacencies summarize prev rel' reps (i, index)
  = relation_row entities adjacencies' summarize prev rel' reps (i, index).
Proof.
  intros Hlt. unfold relation_row.
  destruct (decide (rel = rel')) as [<-|Hne].
  - rewrite Habsent, lookup_insert_eq. cbn.
    unfold related_indices, list_item. rewrite lookup_replicate_2 by done.
    cbn. unfold masked_select.
    rewrite length_index_space, length_replicate, Nat.eqb_refl. cbn.
    rewrite select_by_all_false; [done|].
    intros j [? _]%lookup_replicate. done.
  - by rewrite lookup_insert_ne.
Qed.

Lemma relation_reps_absent summarizers ix prev et rel' :
  assemble_indices self entities = Ok ix →
  relation_reps self entities adjacencies summarizers ix prev et rel'
  = relation_reps self entities adjacencies' summarizers ix prev et rel'.
Proof.
  intros Hix. unfold relation_reps.
  destruct (getitem summarizers rel') as [summarize|]; cbn; [|done].
  destruct (getitem (entity_indices ix) (et_name et)) as [eidx|] eqn:He;
    cbn; [|done].
  destruct (bottleneck_width self) as [w|]; cbn; [|done].
  apply foldlM_ext_in. intros reps [i index] Hin.
  apply relation_row_absent.
  apply getitem_Ok in He.
  destruct (assemble_indices_Ok _ _ _ Hix) as (_ & (_ & _ & Hent & _) & _).
  rewrite (Hent _ _ He) in Hin. apply elem_of_zip_r in Hin.
  apply elem_of_select_by in Hin as (j & Hj & _).
  apply lookup_seq in Hj. lia.
Qed.

(** The whole forward computation cannot tell a relation missing from
    the adjacency from one whose matrix is all false. *)
Lemma forward_absent_relation :
  forward self entities adjacencies = forward self entities adjacencies'.
Proof.
  unfold forward.
  destruct (depth0 self entities) as [[ix st0]|] eqn:Hd0; cbn; [|done].
  apply depth0_indices in Hd0.
  assert (∀ prev et,
            other_reps self entities adjacencies ix prev et
            = other_reps self entities adjacencies' ix prev et) as Hother.
  { intros prev et. unfold other_reps.
    rewrite (mapM_ext (relation_reps self entities adjacencies
                         (relation_target_summarizers self) ix prev et)
               (relation_reps self entities adjacencies'
                  (relation_target_summarizers self) ix prev et))
      by (intros; by apply relation_reps_absent).
    rewrite (mapM_ext (relation_reps self entities adjacencies
                         (relation_source_summarizers self) ix prev et)
               (relation_reps self entities adjacencies'
                  (relation_source_summarizers self) ix prev et))
      by (intros; by apply relation_reps_absent).
    done. }
  assert (propagate self entities adjacencies ix st0
          = propagate self entities adjacencies' ix st0) as ->; [|done].
  unfold propagate. apply foldlM_ext_in. intros st d _.
  unfold propagate_depth. apply foldlM_ext_in. intros st' et _.
  unfold propagate_entity, deeper_input. by rewrite Hother.
Qed.

End Absent.

(** *** The width of the depth-0 input (ensemble.py:57-61, 174-178) *)

Lemma hcat_cols (a b t : tensor R) :
  hcat a b = Ok t → t_cols t = t_cols a + t_cols b.
Proof. unfold hcat. destruct (nrows a =? nrows b); [|done]. by intros [= <-]. Qed.

Lemma cat1_cols (t0 : tensor R) ts t :
  cat1 (t0 :: ts) = Ok t → t_cols t = t_cols t0 + sum_list_with t_cols ts.
Proof.
  cbn. apply (foldlM_ind (fun pre acc =>
                t_cols acc = t_cols t0 + sum_list_with t_cols pre)).
  - cbn. lia.
  - intros pre x acc acc' _ Hacc Hx. apply hcat_cols in Hx.
    rewrite sum_list_with_app. cbn. lia.
Qed.

Lemma index_select_cols (t : tensor R) idx t' :
  index_select t idx = Ok t' → t_cols t' = t_cols t.
Proof.
  unfold index_select. intros Hs. inv_bind Hs as rows Hrows.
  by injection Hs as <-.
Qed.

Lemma sum_list_with_ext_in {A} (f g : A → nat) l :
  (∀ x, x ∈ l → f x = g x) → sum_list_with f l = sum_list_with g l.
Proof.
  induction l as [|x l IH]; intros Hfg; cbn; [done|].
  rewrite Hfg by (by left). rewrite IH; [done|]. intros; apply Hfg; by right.
Qed.

(** The columns of a depth-0 input: the literal 8, then the widths of
    the type's field encodings. *)
Lemma autoencoder_input_cols ix (encs : gmap string (tensor R)) et t :
  autoencoder_input ix encs et = Ok t →
  (∀ fn, fn ∈ data_fields et → is_Some (encs !! fn)) ∧
  t_cols t
  = 8 + sum_list_with (fun fn => default 0 (t_cols <$> encs !! fn))
                      (data_fields et).
Proof.
  unfold autoencoder_input. intros Ha.
  inv_bind Ha as eidx Heidx. inv_bind Ha as fields Hfields.
  apply cat1_cols in Ha. rewrite Ha. cbn. rewrite sum_list_with_app. cbn.
  apply mapM_Ok in Hfields. clear Ha Heidx.
  induction Hfields as [|fn ft fns fts Hfn _ IH]; cbn.
  { split; [|lia]. intros fn Hfn. by apply elem_of_nil in Hfn. }
  inv_bind Hfn as enc Henc. apply getitem_Ok in Henc.
  apply index_select_cols in Hfn. destruct IH as [IHdom IH].
  split.
  - intros fn' [->|Hin]%elem_of_cons; [by eexists | by apply IHdom].
  - rewrite Henc. cbn. lia.
Qed.

(** A dictionary filled by a loop over items with distinct keys holds,
    for each item, the value computed for it. *)
Lemma foldlM_insert_lookup {A V} (key : A → string) (val : A → result V)
  (l : list A) (m : gmap string V) :
  NoDup (key <$> l) →
  foldlM (fun d x => v ← val x; Ok (<[key x := v]> d)) ∅ l = Ok m →
  ∀ x, x ∈ l → ∃ v, m !! key x = Some v ∧ val x = Ok v.
Proof.
  intros Hnd.
  apply (foldlM_ind_prefix (fun pre d =>
           ∀ x, x ∈ pre → ∃ v, d !! key x = Some v ∧ val x = Ok v)).
  { intros x Hx. by apply elem_of_nil in Hx. }
  intros pre x post d d' Hl Hpre Hstep. inv_bind Hstep as v Hv.
  injection Hstep as <-. intros y [Hy|Hy]%elem_of_app.
  - destruct (Hpre _ Hy) as (vy & Hvy & Hval). exists vy. split; [|done].
    rewrite lookup_insert_ne; [done|]. intros Hk.
    rewrite Hl, fmap_app in Hnd. apply NoDup_app in Hnd as (_ & Hdisj & _).
    apply (Hdisj (key y)); [by apply list_elem_of_fmap_2|].
    rewrite fmap_cons, <- Hk. by left.
  - apply list_elem_of_singleton in Hy as ->. exists v.
    by rewrite lookup_insert_eq.
Qed.

Lemma init_boundary_size_Ok cfg (encs : gmap string (FieldEncoder R)) et b :
  init_boundary_size cfg encs et = Ok b →
  b = c_base_entity_representation_size cfg
      + sum_list_with (fun fn => default 0 (fe_output_size <$> encs !! fn))
                      (data_fields et).
Proof.
  unfold init_boundary_size.
  apply (foldlM_ind (fun pre b =>
    b = c_base_entity_representation_size cfg
        + sum_list_with (fun fn => default 0 (fe_output_size <$> encs !! fn))
                        pre)).
  - cbn. lia.
  - intros pre fn b0 b1 _ -> Hstep. inv_bind Hstep as enc Henc.
    apply getitem_Ok in Henc. injection Hstep as <-.
    rewrite sum_list_with_app. cbn. rewrite Henc. cbn. lia.
Qed.

Lemma init_Ok (cls : Classes R) cfg g :
  init cls cfg = Ok g →
  ∃ encs bs,
    init_boundary_sizes cfg encs = Ok bs ∧
    field_encoders g = encs ∧ boundary_sizes g = bs ∧
    schema g = c_schema cfg.
Proof.
  unfold init. intros Hi.
  inv_bind Hi as encs Hencs. inv_bind Hi as bs Hbs. inv_bind Hi as aes Haes.
  inv_bind Hi as psize Hps. inv_bind Hi as projs Hprojs.
  inv_bind Hi as decs Hdecs. injection Hi as <-. by exists encs, bs.
Qed.

Lemma depth0_entities_inputs (self : GraphAutoencoder R) ix st ets st' :
  foldlM (depth0_entity self ix) st ets = Ok st' →
  autoencoder_inputs st' = autoencoder_inputs st.
Proof.
  apply (foldlM_inv (fun st' => autoencoder_inputs st' = autoencoder_inputs st));
    [done|].
  intros et st0 st1 _ Hst Hstep. unfold depth0_entity in Hstep.
  inv_bind Hstep as aes Haes. inv_bind Hstep as ae Hae.
  inv_bind Hstep as input Hin. inv_bind Hstep as out Hout.
  destruct out as [entity_outputs bns]. inv_bind Hstep as bn Hbn.
  by injection Hstep as <-.
Qed.

Lemma depth0_Ok (self : GraphAutoencoder R) (entities : Batch R) ix st :
  depth0 self entities = Ok (ix, st) →
  ∃ encs log,
    assemble_indices self entities = Ok ix ∧
    encode_fields self entities ix = Ok (encs, log) ∧
    assemble_inputs self ix encs = Ok (autoencoder_inputs st).
Proof.
  unfold depth0. intros Hd.
  inv_bind Hd as ix' Hix. inv_bind Hd as enc Henc. destruct enc as [encs log].
  inv_bind Hd as inputs Hinputs. inv_bind Hd as w Hw. inv_bind Hd as st' Hst.
  injection Hd as <- <-. apply depth0_entities_inputs in Hst. cbn in Hst.
  exists encs, log. by rewrite Hst.
Qed.

(** For a model built by [__init__] over entity types with distinct
    names, the depth-0 input of a type is as wide as its boundary size
    with the literal 8 in place of the configured base width: the two
    agree exactly when the base width is 8. *)
Lemma depth0_input_width (cls : Classes R) cfg g (entities : Batch R)
  ix st et :
  init cls cfg = Ok g → depth0 g entities = Ok (ix, st) →
  NoDup (et_name <$> s_entity_types (c_schema cfg)) →
  et ∈ s_entity_types (c_schema cfg) →
  ∃ t bsz,
    autoencoder_inputs st !! et_name et = Some t ∧
    boundary_sizes g !! et_name et = Some bsz ∧
    t_cols t + c_base_entity_representation_size cfg = bsz + 8.
Proof.
  intros Hinit Hd0 Hnd Het.
  apply init_Ok in Hinit as (fencs & bs & Hbs & Hfe & Hbsz & Hschema).
  apply depth0_Ok in Hd0 as (encs & log & Hix & Henc & Hinputs).
  unfold assemble_inputs in Hinputs. rewrite Hschema in Hinputs.
  destruct (foldlM_insert_lookup et_name (autoencoder_input ix encs)
              _ _ Hnd Hinputs _ Het) as (t & Ht & Hin).
  unfold init_boundary_sizes in Hbs.
  destruct (foldlM_insert_lookup et_name (init_boundary_size cfg fencs)
              _ _ Hnd Hbs _ Het) as (b & Hb & Hbv).
  exists t, b. split; [done|]. split; [by rewrite Hbsz|].
  apply autoencoder_input_cols in Hin as [Hdom ->].
  apply init_boundary_size_Ok in Hbv as ->.
  destruct (encode_fields_Ok _ _ _ _ _ Henc) as (_ & Hok & _).
  rewrite (sum_list_with_ext_in
             (fun fn => default 0 (t_cols <$> encs !! fn))
             (fun fn => default 0 (fe_output_size <$> fencs !! fn))); [lia|].
  intros fn Hfn. destruct (Hdom _ Hfn) as [e He]. rewrite He. cbn.
  destruct (Hok _ _ He) as (enc & idx & Hfenc & _ & Hc & _).
  rewrite Hfe in Hfenc. by rewrite Hfenc.
Qed.

(** *** Construction (ensemble.py:26-114) *)

Lemma is_ok_bind {A B} (m : result A) (f : A → result B) :
  (∀ a, m = Ok a → is_ok (f a) = false) → is_ok (m ≫= f) = false.
Proof. destruct m as [a|e]; cbn; [eauto | done]. Qed.




End Facts.

End EnsembleFacts.

(** ** The scenario, evaluated *)

Module ScenarioFacts.

Import Ensemble Scenario EnsembleFacts.

(** C1 (the code departs from it): [prev_bottlenecks] is cloned once,
    before the loop over depths, and never refreshed, so every depth
    reads the bottlenecks of depth 0.  In the scenario with depth 2, Doc 2
    has bottleneck 9 after depth 0 and 10 after depth 1; the depth-2 input
    of Person 0, who authored Doc 2, ends with the summary 9, where the
    propagation worded by the specification gives 10; the final
    bottlenecks differ accordingly. *)
Theorem C1_depth2_reads_depth0_snapshot :
  let g := model (config 2 (Some [1]) true 8) in
  let ix := indices_of g the_batch in
  let st0 := depth0_state g the_batch in
  depth0 g the_batch = Ok (ix, st0) ∧
  bottlenecks st0 = mkTensor 1 [[Num 30]; [Num 0]; [Num 9]] ∧
  bottlenecks <$> propagate_depth g the_batch the_adjacency ix
                    (bottlenecks st0) st0 1
  = Ok (mkTensor 1 [[Num 40]; [Num 1]; [Num 10]]) ∧
  (fun st => autoencoder_inputs st !! "Person")
    <$> propagate g the_batch the_adjacency ix st0
  = Ok (Some (mkTensor 10
          [[Num 0; Num 0; Num 0; Num 0; Num 0; Num 0; Num 0; Num 0;
            Num 30; Num 9];
           [Num 0; Num 0; Num 0; Num 0; Num 0; Num 0; Num 0; Num 0;
            Num 0; Num 0]])) ∧
  (fun st => autoencoder_inputs st !! "Person")
    <$> propagate_spec g the_batch the_adjacency ix st0
  = Ok (Some (mkTensor 10
          [[Num 0; Num 0; Num 0; Num 0; Num 0; Num 0; Num 0; Num 0;
            Num 30; Num 10];
           [Num 0; Num 0; Num 0; Num 0; Num 0; Num 0; Num 0; Num 0;
            Num 0; Num 0]])) ∧
  o_bottlenecks <$> forward g the_batch the_adjacency
  = Ok (mkTensor 1 [[Num 41]; [Num 2]; [Num 11]]) ∧
  o_bottlenecks <$> forward_spec g the_batch the_adjacency
  = Ok (mkTensor 1 [[Num 42]; [Num 2]; [Num 11]]).
Proof. cbv zeta. repeat split; by vm_compute. Qed.

(** C2 fails as stated: in the scenario at depth 1, the block of the
    outgoing relation [authored] of [Person] is computed with the
    target-side summarizer (9 for Person 0), not the source-side one
    (which gives 1009); and the block of the incoming relation of [Doc]
    reads row 2 of the adjacency matrix, which is empty, where the
    transposed matrix names Person 0 as neighbour (bottleneck 30). *)
Lemma C2_counterexample :
  let g := model (config 1 (Some [1]) true 8) in
  let ix := indices_of g the_batch in
  let prev := bottlenecks (depth0_state g the_batch) in
  other_reps g the_batch the_adjacency ix prev person
  = Ok [mkTensor 1 [[Num 9]; [Num 0]]] ∧
  other_reps_spec g the_batch the_adjacency ix prev person
  = Ok [mkTensor 1 [[Num 1009]; [Num 0]]] ∧
  other_reps g the_batch the_adjacency ix prev doc
  = Ok [mkTensor 1 [[Num 0]]] ∧
  other_reps_spec g the_batch the_adjacency ix prev doc
  = Ok [mkTensor 1 [[Num 30]]].
Proof. cbv zeta. repeat split; by vm_compute. Qed.

(** C4 (the code departs from it): the zero block of the depth-0 input
    has the literal width 8, whatever base width the model was built
    with.  With base width 4, [Person] has boundary size 5, and its
    depth-0 input has 9 columns.  ([depth0_input_width] gives the width
    for every model and batch.) *)
Theorem C4_base_block_has_width_8 :
  let cfg := config 0 (Some [1]) false 4 in
  let g := model cfg in
  is_ok (init classes cfg) = true ∧
  base_entity_representation_size g = 4 ∧
  boundary_sizes g !! "Person" = Some 5 ∧
  is_ok (depth0 g the_batch) = true ∧
  autoencoder_inputs (depth0_state g the_batch) !! "Person"
  = Some (mkTensor 9
            [[Num 0; Num 0; Num 0; Num 0; Num 0; Num 0; Num 0; Num 0; Num 30];
             [Num 0; Num 0; Num 0; Num 0; Num 0; Num 0; Num 0; Num 0; Num 0]]).
Proof. cbv zeta. repeat split; by vm_compute. Qed.


(** *** The theorems above, applied to the scenario *)

(** Depth 0 on the scenario: the forward computation succeeds, and the
    adjacency may be dropped altogether. *)
Lemma C3_witness :
  is_ok (forward (model (config 0 (Some [1]) true 8)) the_batch the_adjacency)
  = true ∧
  forward (model (config 0 (Some [1]) true 8)) the_batch the_adjacency
  = forward (model (config 0 (Some [1]) true 8)) the_batch ∅.
Proof.
  split; [by vm_compute|].
  apply C3_depth0_ignores_adjacency. by vm_compute.
Defined.

(** The indices of ([Person], [age]) in the scenario. *)
Lemma C9_witness :
  let g := model (config 1 (Some [1]) true 8) in
  let ix := indices_of g the_batch in
  ∃ e fi,
    entity_indices ix !! et_name person = Some e ∧
    field_indices ix !! "age" = Some fi ∧
    entity_field_indices ix !! (et_name person, "age")
    = Some (list_intersection e fi).
Proof.
  cbv zeta.
  apply (C9_entity_field_indices_intersection
           (model (config 1 (Some [1]) true 8)) the_batch).
  - by vm_compute.
  - assert (schema (model (config 1 (Some [1]) true 8)) = the_schema) as ->
      by (by vm_compute).
    by left.
  - by left.
Defined.


(** The blocks computed for [Person] at depth 1 of the scenario. *)
Lemma C2_witness :
  let g := model (config 1 (Some [1]) true 8) in
  let ix := indices_of g the_batch in
  let prev := bottlenecks (depth0_state g the_batch) in
  ∃ outgoing incoming,
    [mkTensor 1 [[Num 9]; [Num 0]]] = outgoing ++ incoming ∧
    Forall2 (relation_block g the_batch the_adjacency
               (relation_target_summarizers g) ix prev person)
            (relation_fields person) outgoing ∧
    (if reverse_relations g
     then Forall2 (incoming_block g ix prev person)
                  (reverse_relation_fields person) incoming
     else incoming = []).
Proof.
  cbv zeta.
  apply (C2_relation_summaries (model (config 1 (Some [1]) true 8))
           the_batch the_adjacency).
  by vm_compute.
Defined.

(** With every age missing: the mask of [age] is all false, its
    encoding all zero, and the encoder of [age] is not among those
    called. *)
Lemma C5_witness :
  let g := model (config 1 (Some [1]) true 8) in
  let ix := indices_of g missing_batch in
  let encs := (encodings_of g missing_batch).1 in
  let log := (encodings_of g missing_batch).2 in
  field_masks ix !! "age" = Some [false; false; false] ∧
  encs !! "age" = Some (zeros 3 1) ∧
  log = ["title"] ∧ "age" ∉ log.
Proof.
  cbv zeta.
  destruct (C5_absent_rows_stay_zero
              (model (config 1 (Some [1]) true 8)) missing_batch
              (indices_of (model (config 1 (Some [1]) true 8)) missing_batch)
              (encodings_of (model (config 1 (Some [1]) true 8))
                 missing_batch).1
              (encodings_of (model (config 1 (Some [1]) true 8))
                 missing_batch).2
              {| f_name := "age"; f_class := NumericFieldC;
                 type_name := "numeric" |})
    as (enc & mask & t & Henc & Hmask & Ht & _ & _ & _ & Hmissing).
  - by vm_compute.
  - by vm_compute.
  - assert (schema (model (config 1 (Some [1]) true 8)) = the_schema) as ->
      by (by vm_compute).
    by left.
  - destruct Hmissing as (Hm & Hz & Hlog).
    + assert (schema (model (config 1 (Some [1]) true 8)) = the_schema) as ->
        by (by vm_compute).
      apply (bool_decide_unpack _). by vm_compute.
    + by vm_compute.
    + exists (mkTensor 1 [[NaN]; [NaN]; [NaN]]). split; [by vm_compute|].
      repeat constructor.
    + assert (enc = encoder {| f_name := "age"; f_class := NumericFieldC;
                               type_name := "numeric" |}) as ->.
      { assert (Some enc = Some (encoder {| f_name := "age";
                  f_class := NumericFieldC; type_name := "numeric" |}))
          as Heq; [|by injection Heq].
        rewrite <- Henc. by vm_compute. }
      cbn in Hm, Hz, Hlog, Hmask, Ht. subst mask t.
      split; [done|]. split; [done|]. split; [by vm_compute | done].
Defined.

End ScenarioFacts.

(** * Further properties of the code *)

(** ** fields.py: the codecs *)

Module FieldsCoverage.

Import Fields FieldsFacts.

Section Categorical.

Context `{Countable K}.

Lemma cat_wf_init : cat_wf (CategoricalField_init (K:=K)).
Proof.
  unfold cat_wf, CategoricalField_init. cbn.
  rewrite map_size_singleton. split; [lia|]. split; [done|]. split; [done|].
  split; [done|]. split; [|split].
  - intros v i Hv. by rewrite lookup_singleton_ne in Hv.
  - intros i k [<- <-]%lookup_singleton_Some. split; [lia | by left].
  - intros i Hi. assert (i = 0) as -> by lia. by rewrite lookup_singleton_eq.
Qed.

Lemma cat_wf_observe (self : CategoricalField (K:=K)) v :
  cat_wf self → cat_wf (CategoricalField_observe_value self v).
Proof.
  intros (Hpos & Hmk & Hmv & Hr0 & Hraw & Hrl & Hdense).
  unfold cat_wf, CategoricalField_observe_value, setdefault_len.
  destruct (cf_lookup self !! RawKey v) as [j|] eqn:E; cbn.
  - destruct (Hraw _ _ E) as (Hj0 & Hjn & Hrj).
    rewrite (insert_id _ _ _ Hrj). done.
  - set (n := size (cf_lookup self)) in *.
    rewrite map_size_insert_None by done. fold n.
    split; [lia|]. split; [by rewrite lookup_insert_ne|].
    split; [by rewrite lookup_insert_ne|].
    split; [by rewrite lookup_insert_ne by lia|]. split; [|split].
    + intros v' i. destruct (decide (v' = v)) as [->|Hne].
      * rewrite lookup_insert_eq. intros [= <-]. rewrite lookup_insert_eq.
        split; [lia|]. split; [lia | done].
      * rewrite lookup_insert_ne by congruence. intros Hv'.
        destruct (Hraw _ _ Hv') as (? & ? & ?).
        rewrite lookup_insert_ne by lia. split; [done|]. split; [lia | done].
    + intros i k. destruct (decide (i = n)) as [->|Hne].
      * rewrite lookup_insert_eq. intros [= <-]. split; [lia|]. right.
        by rewrite lookup_insert_eq.
      * rewrite lookup_insert_ne by done. intros Hk.
        destruct (Hrl _ _ Hk) as [Hlt Hor]. split; [lia|].
        destruct Hor as [->|Hlk]; [by left|]. right.
        rewrite lookup_insert_ne; [done|]. intros <-. congruence.
    + intros i Hi. destruct (decide (i = n)) as [->|Hne].
      * by rewrite lookup_insert_eq.
      * rewrite lookup_insert_ne by done. apply Hdense. lia.
Qed.

Lemma cat_wf_observed (vs : list K) : cat_wf (CategoricalField_observed vs).
Proof.
  unfold CategoricalField_observed.
  induction vs as [|v vs IH] using rev_ind; [apply cat_wf_init|].
  rewrite foldl_app. cbn. by apply cat_wf_observe.
Qed.

(** X1: after any series of observations, [encode] and [decode] are
    inverse to each other on raw values: [v] encodes to [i] exactly when
    [i] decodes to [v]. *)
Theorem CategoricalField_encode_decode_inverse (vs : list K) (v : K) (i : nat) :
  CategoricalField_encode (CategoricalField_observed vs) (RawKey v) = Some i ↔
  CategoricalField_decode (CategoricalField_observed vs) i = Ok (RawKey v).
Proof.
  destruct (cat_wf_observed vs) as (_ & _ & _ & Hr0 & Hraw & Hrl & _).
  unfold CategoricalField_encode, CategoricalField_decode. split.
  - intros He. destruct (Hraw _ _ He) as (_ & _ & ->). done.
  - destruct (cf_rlookup _ !! i) as [k|] eqn:E; [|done]. intros [= ->].
    destruct (Hrl _ _ E) as [_ [->|Hk]]; [congruence | done].
Qed.

(** X2: index 0 is the missing value on both sides, but through two
    different [Missing()] objects: after any series of observations
    index 0 decodes to an object that [encode] does not know, so the
    round trip through [decode] and [encode] loses index 0, and no raw
    value is ever encoded as 0. *)
Theorem CategoricalField_missing_index (vs : list K) :
  CategoricalField_decode (CategoricalField_observed vs) 0 = Ok MissingVal ∧
  CategoricalField_encode (CategoricalField_observed vs) MissingVal = None ∧
  ∀ v, CategoricalField_encode (CategoricalField_observed vs) (RawKey v)
       ≠ Some 0.
Proof.
  destruct (cat_wf_observed vs) as (_ & _ & Hmv & Hr0 & Hraw & _).
  unfold CategoricalField_encode, CategoricalField_decode.
  rewrite Hr0. split; [done|]. split; [done|].
  intros v Hv. destruct (Hraw _ _ Hv). lia.
Qed.

(** X3: after any series of observations [decode] accepts exactly the
    indices below [len(field)] and raises [Exception] for all others. *)
Theorem CategoricalField_decode_domain (vs : list K) (i : nat) :
  (i < CategoricalField_len (CategoricalField_observed vs) →
   is_ok (CategoricalField_decode (CategoricalField_observed vs) i) = true) ∧
  (CategoricalField_len (CategoricalField_observed vs) ≤ i →
   CategoricalField_decode (CategoricalField_observed vs) i
   = Raise Exception).
Proof.
  destruct (cat_wf_observed vs) as (_ & _ & _ & _ & _ & Hrl & Hdense).
  unfold CategoricalField_decode, CategoricalField_len. split.
  - intros Hi. by destruct (Hdense _ Hi) as [k ->].
  - intros Hi. destruct (cf_rlookup _ !! i) as [k|] eqn:E; [|done].
    destruct (Hrl _ _ E). lia.
Qed.

(** X4: indices are never reassigned: whatever [encode] and [decode]
    answer after some observations, they still answer after any further
    ones. *)
Theorem CategoricalField_indices_stable (vs ws : list K) :
  cf_lookup (CategoricalField_observed vs)
    ⊆ cf_lookup (CategoricalField_observed (vs ++ ws)) ∧
  cf_rlookup (CategoricalField_observed vs)
    ⊆ cf_rlookup (CategoricalField_observed (vs ++ ws)).
Proof.
  induction ws as [|w ws [IHl IHr]] using rev_ind.
  { by rewrite app_nil_r. }
  rewrite app_assoc. unfold CategoricalField_observed at 2 4.
  rewrite foldl_app. cbn. fold (CategoricalField_observed (vs ++ ws)).
  destruct (cat_wf_observed (vs ++ ws)) as (_ & _ & _ & _ & Hraw & Hrl & _).
  set (self := CategoricalField_observed (vs ++ ws)) in *.
  unfold CategoricalField_observe_value, setdefault_len.
  destruct (cf_lookup self !! RawKey w) as [j|] eqn:E; cbn.
  - destruct (Hraw _ _ E) as (_ & _ & Hj). by rewrite (insert_id _ _ _ Hj).
  - split.
    + etrans; [exact IHl|]. by apply insert_subseteq.
    + etrans; [exact IHr|]. apply insert_subseteq.
      destruct (cf_rlookup self !! size (cf_lookup self)) as [k|] eqn:Ek;
        [|done].
      destruct (Hrl _ _ Ek). lia.
Qed.

(** X5: after any series of observations [encode] returns an index for
    exactly the values that were observed ([None] for every other one),
    and [len(field)] is the number of distinct observed values plus one. *)
Theorem CategoricalField_known_values (vs : list K) :
  (∀ v, is_Some (CategoricalField_encode (CategoricalField_observed vs)
                   (RawKey v)) ↔ v ∈ vs) ∧
  CategoricalField_len (CategoricalField_observed vs)
  = S (size (list_to_set vs : gset K)).
Proof.
  unfold CategoricalField_encode, CategoricalField_len.
  unfold CategoricalField_observed.
  induction vs as [|v vs [IHd IHs]] using rev_ind.
  { cbn. split; [|by rewrite map_size_singleton, size_empty].
    intros v. rewrite lookup_singleton_ne by done. split.
    - by intros [? ?].
    - by intros ?%elem_of_nil. }
  rewrite foldl_app. cbn.
  set (self := foldl CategoricalField_observe_value CategoricalField_init vs)
    in *.
  rewrite list_to_set_snoc_L.
  unfold CategoricalField_observe_value, setdefault_len.
  destruct (cf_lookup self !! RawKey v) as [j|] eqn:E; cbn.
  - assert (v ∈ vs) as Hv by (apply IHd; by eexists). split.
    + intros v'. rewrite IHd, elem_of_app, list_elem_of_singleton.
      split; [by left | by intros [?| ->]].
    + rewrite IHs. f_equal. f_equal. apply set_eq. intros x.
      rewrite elem_of_union, elem_of_singleton, elem_of_list_to_set.
      split; [by left | by intros [?| ->]].
  - assert (v ∉ vs) as Hv.
    { intros [? Hj]%IHd. congruence. }
    split.
    + intros v'. rewrite elem_of_app, list_elem_of_singleton, <- IHd.
      destruct (decide (v' = v)) as [->|Hne].
      * rewrite lookup_insert_eq. split; [by right | by eexists].
      * rewrite lookup_insert_ne by congruence.
        split; [by left | by intros [?|?]].
    + rewrite map_size_insert_None by done. rewrite IHs.
      rewrite size_union, size_singleton; [lia|].
      intros x Hx%elem_of_list_to_set ->%elem_of_singleton. done.
Qed.

End Categorical.

Section Sequential.

Context `{Countable K}.

(** One turn of the loop of [_observe_value] on well-formed tables. *)
Lemma observe_element_step lk rl (v : K) :
  seq_wf lk rl →
  observe_element (lk, rl) v
  = match lk !! Some v with
    | Some _ => (lk, rl)
    | None => (<[Some v := size lk]> lk, <[size lk := Some v]> rl)
    end ∧
  rl !! size lk = None.
Proof.
  intros (H0 & Hlk & Hrl). split.
  - unfold observe_element, setdefault_len. cbn.
    destruct (lk !! Some v) as [i|] eqn:E; cbn; [|done].
    destruct (Hlk _ _ E) as [_ Hi]. by rewrite (insert_id _ _ _ Hi).
  - destruct (rl !! size lk) as [k|] eqn:E; [|done].
    apply Hrl, Hlk in E as [? _]. lia.
Qed.

Lemma seq_tables_spec (es : list K) :
  seq_wf (seq_tables es).1 (seq_tables es).2 ∧
  (∀ e, is_Some ((seq_tables es).1 !! Some e) ↔ e ∈ es) ∧
  size (seq_tables es).1 = S (size (list_to_set es : gset K)).
Proof.
  unfold seq_tables. induction es as [|v es (Hwf & IHd & IHs)] using rev_ind.
  { cbn. split; [|split].
    - split; [done|]. split.
      + intros k i [<- <-]%lookup_singleton_Some.
        rewrite map_size_singleton. split; [lia | done].
      + by intros i k [<- <-]%lookup_singleton_Some.
    - intros e. rewrite lookup_singleton_ne by done. split.
      + by intros [? ?].
      + by intros ?%elem_of_nil.
    - by rewrite map_size_singleton, size_empty. }
  rewrite foldl_app. cbn.
  destruct (foldl observe_element _ es) as [lk rl] eqn:Et. cbn in *.
  destruct (observe_element_step lk rl v Hwf) as [-> Hfresh].
  rewrite list_to_set_snoc_L.
  destruct Hwf as (H0 & Hlk & Hrl).
  destruct (lk !! Some v) as [j|] eqn:E; cbn.
  - assert (v ∈ es) as Hv by (apply IHd; by eexists).
    split; [done|]. split.
    + intros e. rewrite IHd, elem_of_app, list_elem_of_singleton.
      split; [by left | by intros [?| ->]].
    + rewrite IHs. f_equal. f_equal. apply set_eq. intros x.
      rewrite elem_of_union, elem_of_singleton, elem_of_list_to_set.
      split; [by left | by intros [?| ->]].
  - assert (v ∉ es) as Hv.
    { intros [? Hj]%IHd. congruence. }
    split; [|split].
    + unfold seq_wf. rewrite map_size_insert_None by done. split; [|split].
      * by rewrite lookup_insert_ne.
      * intros k i. destruct (decide (k = Some v)) as [->|Hne].
        -- rewrite lookup_insert_eq. intros [= <-].
           rewrite lookup_insert_eq. split; [lia | done].
        -- rewrite lookup_insert_ne by done. intros Hk.
           destruct (Hlk _ _ Hk) as [? ?].
           rewrite lookup_insert_ne by lia. split; [lia | done].
      * intros i k. destruct (decide (i = size lk)) as [->|Hne].
        -- rewrite lookup_insert_eq. intros [= <-].
           by rewrite lookup_insert_eq.
        -- rewrite lookup_insert_ne by done. intros Hk.
           rewrite lookup_insert_ne; [by apply Hrl|].
           intros <-. apply Hrl in Hk. congruence.
    + intros e. rewrite elem_of_app, list_elem_of_singleton, <- IHd.
      destruct (decide (e = v)) as [->|Hne].
      * rewrite lookup_insert_eq. split; [by right | by eexists].
      * rewrite lookup_insert_ne by congruence.
        split; [by left | by intros [?|?]].
    + rewrite map_size_insert_None by done. rewrite IHs.
      rewrite size_union, size_singleton; [lia|].
      intros x Hx%elem_of_list_to_set ->%elem_of_singleton. done.
Qed.

(** The tables depend on the elements observed, in order, and not on how
    they were grouped into sequences. *)
Lemma SequentialField_observed_tables (vss : list (list K)) :
  (sf_lookup (SequentialField_observed vss),
   sf_rlookup (SequentialField_observed vss)) = seq_tables (concat vss).
Proof.
  unfold SequentialField_observed, seq_tables.
  induction vss as [|vs vss IH] using rev_ind; [done|].
  rewrite foldl_app, concat_app, foldl_app. cbn.
  rewrite app_nil_r, <- IH. by rewrite <- surjective_pairing.
Qed.

Lemma SequentialField_observed_spec (vss : list (list K)) :
  seq_wf (sf_lookup (SequentialField_observed vss))
         (sf_rlookup (SequentialField_observed vss)) ∧
  (∀ e, is_Some (sf_lookup (SequentialField_observed vss) !! Some e)
        ↔ e ∈ concat vss) ∧
  size (sf_lookup (SequentialField_observed vss))
  = S (size (list_to_set (concat vss) : gset K)).
Proof.
  pose proof (seq_tables_spec (concat vss)) as Hs.
  rewrite <- SequentialField_observed_tables in Hs. exact Hs.
Qed.

(** [mapM] of a lookup either succeeds on every element or raises the
    [KeyError] of the first element that is absent. *)
Lemma mapM_getitem (lk : gmap (option K) nat) (v : list K) :
  (Forall (fun e => is_Some (lk !! Some e)) v →
   ∃ idx, mapM (fun e => getitem lk (Some e)) v = Ok idx ∧
          Forall2 (fun e i => lk !! Some e = Some i) v idx) ∧
  (¬ Forall (fun e => is_Some (lk !! Some e)) v →
   mapM (fun e => getitem lk (Some e)) v = Raise KeyError).
Proof.
  induction v as [|e v [IHok IHr]]; cbn.
  { split; [intros _; exists []; by split | intros []; constructor]. }
  split.
  - intros [[i Hi] Hv]%Forall_cons. destruct (IHok Hv) as (idx & -> & Hf).
    assert (getitem lk (Some e) = Ok i) as -> by (by apply getitem_Ok).
    cbn. exists (i :: idx). split; [done | by constructor].
  - intros Hn. destruct (lk !! Some e) as [i|] eqn:E.
    + assert (getitem lk (Some e) = Ok i) as -> by (by apply getitem_Ok).
      cbn. rewrite IHr; [done|]. intros Hv. apply Hn.
      constructor; [by eexists | done].
    + unfold getitem. by rewrite E.
Qed.

(** X6: after any series of observations [encode] succeeds on exactly the
    sequences made of observed elements, giving one index between 1 and
    [len(field) - 1] for each element; a sequence with an element never
    observed raises [KeyError]. *)
Theorem SequentialField_encode_domain (vss : list (list K)) (v : list K) :
  (Forall (fun e => e ∈ concat vss) v →
   ∃ idx, SequentialField_encode (SequentialField_observed vss) v = Ok idx ∧
          length idx = length v ∧
          Forall (fun i => 0 < i < SequentialField_len
                                     (SequentialField_observed vss)) idx) ∧
  (¬ Forall (fun e => e ∈ concat vss) v →
   SequentialField_encode (SequentialField_observed vss) v
   = Raise KeyError).
Proof.
  destruct (SequentialField_observed_spec vss) as ((H0 & Hlk & Hrl) & Hd & _).
  unfold SequentialField_encode, SequentialField_len.
  set (lk := sf_lookup (SequentialField_observed vss)) in *.
  destruct (mapM_getitem lk v) as [Hok Hr].
  assert (Forall (fun e => e ∈ concat vss) v
          ↔ Forall (fun e => is_Some (lk !! Some e)) v) as Hiff.
  { apply Forall_iff. intros e. by rewrite Hd. }
  split.
  - intros Hv. destruct (Hok (proj1 Hiff Hv)) as (idx & -> & Hf).
    exists idx. split; [done|]. split.
    + symmetry. by eapply Forall2_length.
    + clear -Hf H0 Hlk. induction Hf as [|e i v idx He _ IH]; constructor;
        [|done].
      destruct (Hlk _ _ He) as [Hlt _]. split; [|done].
      destruct i; [|lia]. apply Hlk in He as [_ He].
      apply Hlk in H0 as [_ H0]. congruence.
  - intros Hn. apply Hr. by rewrite <- Hiff.
Qed.

(** X7: [encode] loses nothing: after any series of observations two
    sequences with the same encoding are the same sequence. *)
Theorem SequentialField_encode_injective (vss : list (list K))
  (v w : list K) (idx : list nat) :
  SequentialField_encode (SequentialField_observed vss) v = Ok idx →
  SequentialField_encode (SequentialField_observed vss) w = Ok idx →
  v = w.
Proof.
  destruct (SequentialField_observed_spec vss) as ((_ & Hlk & _) & _ & _).
  unfold SequentialField_encode.
  set (lk := sf_lookup (SequentialField_observed vss)) in *.
  intros Hv%EnsembleFacts.mapM_Ok Hw%EnsembleFacts.mapM_Ok.
  revert w Hw. induction Hv as [|e i v idx He _ IH]; intros w Hw.
  - by inversion Hw.
  - inversion Hw as [|e' ? w' ? He' Hw']; subst. f_equal; [|by apply IH].
    apply getitem_Ok in He, He'.
    destruct (Hlk _ _ He) as [_ H1]. destruct (Hlk _ _ He') as [_ H2].
    congruence.
Qed.

(** X8: [max_length] is the length of the longest sequence observed (0
    when none was), and [len(field)] is the number of distinct elements
    observed plus one. *)
Theorem SequentialField_sizes (vss : list (list K)) :
  max_length (SequentialField_observed vss) = max_list (length <$> vss) ∧
  SequentialField_len (SequentialField_observed vss)
  = S (size (list_to_set (concat vss) : gset K)).
Proof.
  split; [|apply SequentialField_observed_spec].
  unfold SequentialField_observed.
  induction vss as [|vs vss IH] using rev_ind; [done|].
  rewrite foldl_app, fmap_app. cbn. rewrite IH.
  rewrite !max_list_with_foldr, foldr_app. cbn.
  generalize (length <$> vss). intros l. unfold id.
  induction l as [|x l IHl]; cbn; lia.
Qed.

(** X9: a [CharacterField] is a [SequentialField] under another name:
    after the same observations both hold the same tables and the same
    maximal length, and [encode] and [decode] answer alike. *)
Theorem CharacterField_as_SequentialField (vss : list (list K))
  (v : list K) (idx : list nat) :
  chf_lookup (CharacterField_observed vss)
  = sf_lookup (SequentialField_observed vss) ∧
  chf_rlookup (CharacterField_observed vss)
  = sf_rlookup (SequentialField_observed vss) ∧
  max_observed_length (CharacterField_observed vss)
  = max_length (SequentialField_observed vss) ∧
  CharacterField_encode (CharacterField_observed vss) v
  = SequentialField_encode (SequentialField_observed vss) v ∧
  CharacterField_decode (CharacterField_observed vss) idx
  = SequentialField_decode (SequentialField_observed vss) idx.
Proof.
  assert (chf_lookup (CharacterField_observed vss)
          = sf_lookup (SequentialField_observed vss) ∧
          chf_rlookup (CharacterField_observed vss)
          = sf_rlookup (SequentialField_observed vss) ∧
          max_observed_length (CharacterField_observed vss)
          = max_length (SequentialField_observed vss)) as (Hl & Hr & Hm).
  { unfold CharacterField_observed, SequentialField_observed.
    induction vss as [|vs vss (IHl & IHr & IHm)] using rev_ind; [done|].
    rewrite !foldl_app. cbn. by rewrite IHl, IHr, IHm. }
  split; [done|]. split; [done|]. split; [done|].
  unfold CharacterField_encode, SequentialField_encode. by rewrite Hl.
Qed.

End Sequential.

Section Distribution.

Context `{Countable K}.

Lemma observe_categories_spec (cats : list K) (ks : list K) :
  NoDup cats →
  cats `prefix_of` foldl observe_category cats ks ∧
  NoDup (foldl observe_category cats ks) ∧
  (∀ k, k ∈ foldl observe_category cats ks ↔ k ∈ cats ∨ k ∈ ks).
Proof.
  revert cats. induction ks as [|k ks IH]; intros cats Hnd; cbn.
  { split; [done|]. split; [done|]. intros k. split; [by left|].
    by intros [?|?%elem_of_nil]. }
  assert (NoDup (observe_category cats k) ∧
          cats `prefix_of` observe_category cats k ∧
          ∀ k', k' ∈ observe_category cats k ↔ k' ∈ cats ∨ k' = k)
    as (Hnd' & Hpre & Hin).
  { unfold observe_category. destruct (decide (k ∈ cats)) as [Hk|Hk].
    - split; [done|]. split; [done|]. intros k'.
      split; [by left | by intros [?| ->]].
    - split; [|split].
      + apply NoDup_app. split; [done|]. split; [|apply NoDup_singleton].
        by intros x Hx ->%list_elem_of_singleton.
      + by apply prefix_app_r.
      + intros k'. by rewrite elem_of_app, list_elem_of_singleton. }
  destruct (IH _ Hnd') as (Hp & Hn & Hi).
  split; [by etrans|]. split; [done|].
  intros k'. rewrite Hi, Hin, elem_of_cons. tauto.
Qed.

Lemma DistributionField_observed_NoDup {V} (vs : list (list (K * V))) :
  NoDup (categories (DistributionField_observed vs)).
Proof.
  unfold DistributionField_observed.
  induction vs as [|v vs IH] using rev_ind; [constructor|].
  rewrite foldl_app. cbn.
  by destruct (observe_categories_spec _ (v.*1) IH) as (_ & Hn & _).
Qed.

(** X10: after any series of observations [categories] lists every key
    that occurred in an observed dictionary, each one once, and nothing
    else. *)
Theorem DistributionField_categories_exact {V} (vs : list (list (K * V))) :
  NoDup (categories (DistributionField_observed vs)) ∧
  ∀ k, k ∈ categories (DistributionField_observed vs)
       ↔ k ∈ concat ((fun v : list (K * V) => v.*1) <$> vs).
Proof.
  split; [apply DistributionField_observed_NoDup|].
  unfold DistributionField_observed.
  induction vs as [|v vs IH] using rev_ind; [done|].
  rewrite foldl_app, fmap_app, concat_app. cbn. rewrite app_nil_r.
  destruct (observe_categories_spec _ (v.*1)
              (DistributionField_observed_NoDup vs)) as (_ & _ & Hi).
  intros k. unfold DistributionField_observed in Hi.
  by rewrite Hi, IH, elem_of_app.
Qed.

(** X11: further observations only append to [categories]: the list after
    some observations is a prefix of the list after any further ones, so
    the position of a category, which is its position in every encoded
    vector, never changes. *)
Theorem DistributionField_categories_stable {V} (vs ws : list (list (K * V))) :
  categories (DistributionField_observed vs)
    `prefix_of` categories (DistributionField_observed (vs ++ ws)).
Proof.
  induction ws as [|w ws IH] using rev_ind.
  { by rewrite app_nil_r. }
  rewrite app_assoc. unfold DistributionField_observed at 2.
  rewrite foldl_app. cbn. fold (DistributionField_observed (vs ++ ws)).
  etrans; [exact IH|].
  apply observe_categories_spec, DistributionField_observed_NoDup.
Qed.

End Distribution.

(** *** NumericField *)

Lemma SFltb_trans a b c :
  SFltb a b = true → SFltb b c = true → SFltb a c = true.
Proof.
  unfold SFltb.
  destruct a as [[]|[]| |[] m1 e1], b as [[]|[]| |[] m2 e2],
    c as [[]|[]| |[] m3 e3]; cbn; try done;
    rewrite !Pos.compare_cont_spec; cbn;
    destruct (Z.compare_spec e1 e2), (Z.compare_spec e2 e3),
      (Z.compare_spec e1 e3); try done; try lia; subst;
    destruct (Pos.compare_spec m1 m2), (Pos.compare_spec m2 m3),
      (Pos.compare_spec m1 m3); cbn; try done; try lia.
Qed.

Lemma SFltb_nan_l f : SFltb S754_nan f = false.
Proof. done. Qed.

Lemma SFltb_nan_r f : SFltb f S754_nan = false.
Proof. by destruct f. Qed.

Section Numeric.

Variable float_of_str : string → option spec_float.

Abbreviation observe := (NumericField_observe_value float_of_str).
Abbreviation observe_all := (NumericField_observe_all float_of_str).

Lemma observe_all_snoc self vs v :
  observe_all self (vs ++ [v]) = (observe (observe_all self vs) v).1.
Proof. unfold NumericField_observe_all. by rewrite foldl_app. Qed.

(** X12: a NaN is kept as a bound only when it is the first value
    observed.  Observed first, it stays [max_val] and [min_val] whatever
    is observed afterwards; observed by a field that has bounds already,
    it is returned and leaves both bounds as they were. *)
Theorem NumericField_nan_bounds :
  (∀ vs, max_val (observe_all NumericField_init (RFloat S754_nan :: vs))
         = Some (PyFloat S754_nan) ∧
         min_val (observe_all NumericField_init (RFloat S754_nan :: vs))
         = Some (PyFloat S754_nan)) ∧
  (∀ e mx mn,
     observe {| nf_empty := e; max_val := Some mx; min_val := Some mn |}
       (RFloat S754_nan)
     = ({| nf_empty := false; max_val := Some mx; min_val := Some mn |},
        Ok S754_nan)).
Proof.
  split.
  - intros vs. induction vs as [|v vs [IHx IHn]] using rev_ind.
    { by vm_compute. }
    rewrite app_comm_cons, observe_all_snoc.
    destruct (observe_all _ _) as [e mx mn]. cbn in IHx, IHn. subst.
    unfold NumericField_observe_value, py_float.
    destruct v as [z|f|s]; cbn -[float_of_int].
    + destruct (float_of_int z); cbn; done.
    + by rewrite ?SFltb_nan_l, ?SFltb_nan_r.
    + by destruct (float_of_str s).
  - intros e mx mn. unfold NumericField_observe_value. cbn.
    destruct mx as [x|x], mn as [y|y]; cbn; by rewrite ?SFltb_nan_r.
Qed.

(** Once a value has been observed without an exception both bounds are
    set, and they stay set. *)
Lemma observe_bounds_set self v r :
  (observe self v).2 = Ok r ∨
  (is_Some (max_val self) ∧ is_Some (min_val self)) →
  (max_val self = None ↔ min_val self = None) →
  is_Some (max_val (observe self v).1) ∧
  is_Some (min_val (observe self v).1).
Proof.
  destruct self as [e mx mn]. unfold NumericField_observe_value. cbn.
  intros Hor Hiff.
  destruct (py_float float_of_str v) as [f|x]; cbn in *.
  - destruct mx as [mx|], mn as [mn|]; cbn in *.
    + destruct (py_max mx v); cbn; [|split; by eexists].
      destruct (py_min mn v); cbn; split; by eexists.
    + destruct Hiff as [_ H2]. by specialize (H2 eq_refl).
    + destruct Hiff as [H1 _]. by specialize (H1 eq_refl).
    + split; by eexists.
  - destruct Hor as [?|[? ?]]; [done | by split].
Qed.

Lemma observe_all_bounds vs :
  max_val (observe_all NumericField_init vs) = None
  ↔ min_val (observe_all NumericField_init vs) = None.
Proof.
  induction vs as [|v vs IH] using rev_ind; [done|].
  rewrite observe_all_snoc.
  destruct (observe_all _ vs) as [e mx mn]. cbn in IH.
  unfold NumericField_observe_value. cbn.
  destruct (py_float float_of_str v) as [f|x]; cbn; [|done].
  destruct mx as [mx|], mn as [mn|]; cbn.
  - destruct (py_max mx v); cbn; [|done].
    destruct (py_min mn v); cbn; done.
  - destruct IH as [_ H2]. by specialize (H2 eq_refl).
  - destruct IH as [H1 _]. by specialize (H1 eq_refl).
  - done.
Qed.

(** X13: an observation that raises leaves [max_val] and [min_val] as
    they were, whatever was observed before (the field is no longer
    [empty], though). *)
Theorem NumericField_failed_observation (vs : list raw) (v : raw)
  (e : pyexn) :
  (observe (observe_all NumericField_init vs) v).2 = Raise e →
  max_val (observe (observe_all NumericField_init vs) v).1
  = max_val (observe_all NumericField_init vs) ∧
  min_val (observe (observe_all NumericField_init vs) v).1
  = min_val (observe_all NumericField_init vs) ∧
  nf_empty (observe (observe_all NumericField_init vs) v).1 = false.
Proof.
  pose proof (observe_all_bounds vs) as Hiff.
  destruct (observe_all _ vs) as [em mx mn]. cbn in Hiff.
  unfold NumericField_observe_value. cbn.
  destruct (py_float float_of_str v) as [f|x]; cbn; [|done].
  destruct mx as [mx|], mn as [mn|]; cbn.
  - destruct (py_max mx v) as [m|x] eqn:Ex; cbn; [|done].
    destruct (py_min mn v) as [m'|x] eqn:En; cbn; [done|].
    destruct v; cbn in *; done.
  - destruct Hiff as [_ H2]. by specialize (H2 eq_refl).
  - destruct Hiff as [H1 _]. by specialize (H1 eq_refl).
  - done.
Qed.

(** X14: a string that [float] can read is accepted by a fresh field but
    by no other: once a value [v] has been observed without an
    exception, observing a string raises, whatever else was observed in
    between: [TypeError] from [max] when [float] reads the string, the
    [ValueError] of [float] otherwise. *)
Theorem NumericField_string_after_first (v : raw) (vs : list raw)
  (s : string) (r : spec_float) :
  (observe NumericField_init v).2 = Ok r →
  (observe (observe_all NumericField_init (v :: vs)) (RStr s)).2
  = Raise (if float_of_str s is Some _ then TypeError else ValueError).
Proof.
  intros Hv.
  assert (is_Some (max_val (observe_all NumericField_init (v :: vs))))
    as [mx Hmx].
  { induction vs as [|w vs IH] using rev_ind.
    - change (observe_all NumericField_init [v])
        with (observe NumericField_init v).1.
      eapply observe_bounds_set; [by left | done].
    - rewrite app_comm_cons, observe_all_snoc.
      pose proof (observe_all_bounds (v :: vs)) as Hiff.
      eapply (observe_bounds_set _ _ r); [right | done].
      split; [done|]. destruct IH as [m Hm].
      apply not_eq_None_Some. intros E. apply Hiff in E. congruence. }
  destruct (observe_all _ (v :: vs)) as [e mx' mn]. cbn in Hmx. subst.
  unfold NumericField_observe_value. cbn.
  by destruct (float_of_str s).
Qed.

(** X15: after a series of floats (at least one) observed by a fresh
    field, [max_val] and [min_val] are floats from the series, no float
    of the series is greater than [max_val] and none is smaller than
    [min_val]. *)
Theorem NumericField_float_bounds (f0 : spec_float) (fs : list spec_float) :
  ∃ mx mn,
    max_val (observe_all NumericField_init (RFloat <$> f0 :: fs))
      = Some (PyFloat mx) ∧
    min_val (observe_all NumericField_init (RFloat <$> f0 :: fs))
      = Some (PyFloat mn) ∧
    mx ∈ f0 :: fs ∧ mn ∈ f0 :: fs ∧
    ∀ f, f ∈ f0 :: fs →
         num_gt (PyFloat f) (PyFloat mx) = false ∧
         num_lt (PyFloat f) (PyFloat mn) = false.
Proof.
  (* on two floats [num_gt a b] is [SFltb b a] *)
  enough (Hs :
    ∃ mx mn,
      max_val (observe_all NumericField_init (RFloat <$> f0 :: fs))
        = Some (PyFloat mx) ∧
      min_val (observe_all NumericField_init (RFloat <$> f0 :: fs))
        = Some (PyFloat mn) ∧
      mx ∈ f0 :: fs ∧ mn ∈ f0 :: fs ∧
      ∀ f, f ∈ f0 :: fs → SFltb mx f = false ∧ SFltb f mn = false)
    by exact Hs.
  induction fs as [|f' fs (mx & mn & Hx & Hn & Hxi & Hni & Hb)] using rev_ind.
  { exists f0, f0. split; [done|]. split; [done|].
    split; [by left|]. split; [by left|].
    intros f ->%list_elem_of_singleton. by rewrite SFltb_irrefl. }
  rewrite app_comm_cons, fmap_app. cbn [fmap list_fmap].
  rewrite observe_all_snoc.
  change (RFloat f0 :: (RFloat <$> fs)) with (RFloat <$> f0 :: fs) in *.
  destruct (observe_all _ _) as [e mx' mn']. cbn in Hx, Hn. subst.
  unfold NumericField_observe_value. cbn.
  exists (if SFltb mx f' then f' else mx), (if SFltb f' mn then f' else mn).
  split; [by destruct (SFltb mx f')|].
  split; [by destruct (SFltb f' mn)|].
  change (f0 :: fs ++ [f']) with ((f0 :: fs) ++ [f']).
  split.
  { destruct (SFltb mx f'); apply elem_of_app; [right; by left | by left]. }
  split.
  { destruct (SFltb f' mn); apply elem_of_app; [right; by left | by left]. }
  intros f [Hf| ->%list_elem_of_singleton]%elem_of_app.
  - destruct (Hb _ Hf) as [H1 H2]. split.
    + destruct (SFltb mx f') eqn:E; [|done].
      destruct (SFltb f' f) eqn:E'; [|done].
      by rewrite (SFltb_trans _ _ _ E E') in H1.
    + destruct (SFltb f' mn) eqn:E; [|done].
      destruct (SFltb f f') eqn:E'; [|done].
      by rewrite (SFltb_trans _ _ _ E' E) in H2.
  - split.
    + destruct (SFltb mx f') eqn:E; [apply SFltb_irrefl | done].
    + destruct (SFltb f' mn) eqn:E; [apply SFltb_irrefl | done].
Qed.

End Numeric.

(** *** Instances *)

(** Two encodings of [b, a] after [a, b] was observed. *)
Lemma SequentialField_encode_injective_witness :
  SequentialField_encode (SequentialField_observed [["a"; "b"]%string])
    ["b"; "a"]%string = Ok [2; 1] ∧
  ["b"; "a"]%string = ["b"; "a"]%string.
Proof.
  split; [by vm_compute|].
  apply (SequentialField_encode_injective [["a"; "b"]%string]
           ["b"; "a"]%string ["b"; "a"]%string [2; 1]); by vm_compute.
Defined.

(** With a [float] that reads no string: after the float +0.0, observing
    the string [x] raises [ValueError] and leaves the bounds at +0.0. *)
Lemma NumericField_failed_observation_witness :
  let s := NumericField_observe_all (fun _ => None) NumericField_init
             [RFloat (S754_zero false)] in
  max_val (NumericField_observe_value (fun _ => None) s (RStr "x")).1
  = max_val s ∧
  min_val (NumericField_observe_value (fun _ => None) s (RStr "x")).1
  = min_val s ∧
  nf_empty (NumericField_observe_value (fun _ => None) s (RStr "x")).1
  = false.
Proof.
  cbv zeta.
  apply (NumericField_failed_observation (fun _ => None)
           [RFloat (S754_zero false)] (RStr "x") ValueError).
  by vm_compute.
Defined.

(** With a [float] that reads every string as +0.0: after the float +0.0
    and the integer 3, the string [1] raises [TypeError]. *)
Lemma NumericField_string_after_first_witness :
  (NumericField_observe_value (fun _ => Some (S754_zero false))
     (NumericField_observe_all (fun _ => Some (S754_zero false))
        NumericField_init [RFloat (S754_zero false); RInt 3])
     (RStr "1")).2
  = Raise TypeError.
Proof.
  apply (NumericField_string_after_first (fun _ => Some (S754_zero false))
           (RFloat (S754_zero false)) [RInt 3] "1" (S754_zero false)).
  by vm_compute.
Defined.

End FieldsCoverage.

(** ** ensemble.py: construction and the forward computation *)

Module EnsembleCoverage.

Import Ensemble EnsembleFacts.

Section Coverage.

Context {R : Type} `{Scalar R}.

(** What [__init__] copies from its arguments. *)
Lemma init_attributes (cls : Classes R) cfg g :
  init cls cfg = Ok g →
  bottleneck_size g = bottleneck_of (c_autoencoder_shapes cfg) ∧
  depth g = c_depth cfg ∧
  reverse_relations g = c_reverse_relations cfg ∧
  schema g = c_schema cfg ∧
  init_entity_autoencoders cls cfg (bottleneck_of (c_autoencoder_shapes cfg))
    (boundary_sizes g) = Ok (entity_autoencoders g).
Proof.
  unfold init. intros Hi.
  inv_bind Hi as encs Hencs. inv_bind Hi as bs Hbs. inv_bind Hi as aes Haes.
  inv_bind Hi as psize Hps. inv_bind Hi as projs Hprojs.
  inv_bind Hi as decs Hdecs. by injection Hi as <-.
Qed.

(** X16: a model built from an empty shape sequence has no bottleneck
    width, and its [forward] raises on every batch and adjacency.
    (Construction itself succeeds for such a sequence when no entity type
    has a relation to count.) *)
Theorem forward_without_bottleneck (cls : Classes R) (cfg : Config)
  (g : GraphAutoencoder R) (entities : Batch R)
  (adjacencies : gmap string (list (list bool))) :
  init cls cfg = Ok g →
  bottleneck_of (c_autoencoder_shapes cfg) = None →
  is_ok (forward g entities adjacencies) = false.
Proof.
  intros (Hbn & _)%init_attributes Hnone. rewrite Hnone in Hbn.
  unfold forward. apply is_ok_bind. intros [ix st] Hd0. exfalso.
  unfold depth0 in Hd0.
  inv_bind Hd0 as ix' Hix. inv_bind Hd0 as enc Henc.
  inv_bind Hd0 as inputs Hin. inv_bind Hd0 as w Hw.
  unfold bottleneck_width in Hw. by rewrite Hbn in Hw.
Qed.

(** X17: [forward] raises when the batch has no column for some data
    field of the schema, whether or not an entity type uses the field. *)
Theorem forward_missing_column (self : GraphAutoencoder R)
  (entities : Batch R) (adjacencies : gmap string (list (list bool)))
  (f : FieldSpec) :
  f ∈ s_data_fields (schema self) →
  b_data entities !! f_name f = None →
  is_ok (forward self entities adjacencies) = false.
Proof.
  intros Hf Hcol. unfold forward. apply is_ok_bind. intros [ix st] Hd0.
  exfalso. apply depth0_indices in Hd0. unfold assemble_indices in Hd0.
  inv_bind Hd0 as ix' Hix.
  assert (is_ok (foldlM (index_field entities) no_indices
                   (s_data_fields (schema self))) = false) as Hr;
    [|by rewrite Hix in Hr].
  eapply foldlM_raises; [exact Hf|]. intros acc.
  unfold index_field, getitem. by rewrite Hcol.
Qed.

(** The loop over the data fields raises nothing but the [Exception] of
    ensemble.py:52. *)
Lemma init_field_encoders_raises (cls : Classes R) fs
  (acc : gmap string (FieldEncoder R)) :
  (∃ encs,
     foldlM (fun encs f =>
               match field_model_classes cls (f_class f) with
               | None => Raise Exception
               | Some fac => Ok (<[f_name f := fac.1 f]> encs)
               end) acc fs = Ok encs ∧
     ∀ f, f ∈ fs → is_Some (field_model_classes cls (f_class f))) ∨
  (foldlM (fun encs f =>
             match field_model_classes cls (f_class f) with
             | None => Raise Exception
             | Some fac => Ok (<[f_name f := fac.1 f]> encs)
             end) acc fs = Raise Exception).
Proof.
  revert acc. induction fs as [|f fs IH]; intros acc; cbn.
  { left. eexists. split; [done|]. by intros f ?%elem_of_nil. }
  destruct (field_model_classes cls (f_class f)) as [fac|] eqn:E; cbn;
    [|by right].
  destruct (IH (<[f_name f := fac.1 f]> acc)) as [(encs & -> & Hall)| ->];
    [left | by right].
  eexists. split; [done|].
  intros f' [->|Hf']%elem_of_cons; [by eexists | by apply Hall].
Qed.

(** X18: constructing a model raises [Exception] when the registry has no
    entry for the class of some data field of the schema. *)
Theorem init_unregistered_field (cls : Classes R) (cfg : Config)
  (f : FieldSpec) :
  f ∈ s_data_fields (c_schema cfg) →
  field_model_classes cls (f_class f) = None →
  init cls cfg = Raise Exception.
Proof.
  intros Hf Hnone. unfold init, init_field_encoders.
  destruct (init_field_encoders_raises cls (s_data_fields (c_schema cfg)) ∅)
    as [(encs & _ & Hall)| ->]; [|done].
  destruct (Hall _ Hf) as [fac Hfac]. congruence.
Qed.

(** *** The index lists of the entity types (ensemble.py:150-152) *)

Lemma select_by_nil_r {A} (xs : list A) : select_by xs [] = [].
Proof. unfold select_by. by destruct xs. Qed.

Lemma select_by_seq_sorted (a n : nat) (mask : list bool) :
  StronglySorted lt (select_by (seq a n) mask).
Proof.
  revert a mask. induction n as [|n IH]; intros a mask; [constructor|].
  destruct mask as [|b mask]; [rewrite select_by_nil_r; constructor|].
  cbn [seq]. rewrite select_by_cons. destruct b; [|apply IH].
  constructor; [apply IH|]. apply Forall_forall.
  intros i (j & Hj & _)%elem_of_select_by.
  apply lookup_seq in Hj. lia.
Qed.

Lemma elem_of_entity_indices (entities : Batch R) (n : string) (i : nat) :
  i ∈ select_by (index_space entities) (entity_mask entities n)
  ↔ b_types entities !! i = Some n.
Proof.
  rewrite elem_of_select_by. unfold index_space, entity_mask. split.
  - intros (j & [-> _]%lookup_seq & Hm). cbn in Hm.
    change (0 + j) with j. rewrite list_lookup_fmap in Hm.
    destruct (b_types entities !! j) as [n'|]; [|done]. cbn in Hm.
    injection Hm as Hm. apply bool_decide_eq_true in Hm. by subst.
  - intros Hi. exists i. split.
    + apply lookup_seq. split; [done|]. by eapply lookup_lt_Some.
    + rewrite list_lookup_fmap, Hi. cbn. by rewrite bool_decide_eq_true_2.
Qed.

(** X19: the index list of an entity type of the schema holds, in
    ascending order, exactly the rows of the batch tagged with the
    type's name.  So the lists of types with different names are
    disjoint, and a row tagged with a name the schema does not declare
    is in none. *)
Theorem entity_indices_partition (self : GraphAutoencoder R)
  (entities : Batch R) (ix : Indices) (et : EntityType) :
  assemble_indices self entities = Ok ix →
  et ∈ s_entity_types (schema self) →
  ∃ eidx,
    entity_indices ix !! et_name et = Some eidx ∧
    StronglySorted lt eidx ∧
    ∀ i, i ∈ eidx ↔ b_types entities !! i = Some (et_name et).
Proof.
  intros Hix Het.
  destruct (assemble_indices_Ok _ _ _ Hix) as (_ & (_ & _ & Hent & _) & Hdom).
  destruct (Hdom _ Het) as [[eidx He] _]. exists eidx. split; [done|].
  rewrite (Hent _ _ He). split.
  - apply select_by_seq_sorted.
  - intros i. apply elem_of_entity_indices.
Qed.

(** *** The bottleneck tensor (ensemble.py:184-239) *)

Section Bottlenecks.

Variable self : GraphAutoencoder R.
Variable entities : Batch R.
Variable adjacencies : gmap string (list (list bool)).
Variable ix : Indices.

(** A property of the bottleneck tensor that the assignments
    [bottlenecks[entity_indices[name]] = bns] keep is kept by the whole
    computation: nothing else writes to the tensor. *)
Variable P : tensor R → Prop.
Hypothesis HP : ∀ et eidx t b t',
  et ∈ s_entity_types (schema self) →
  entity_indices ix !! et_name et = Some eidx →
  P t → index_put t eidx b = Ok t' → P t'.

Lemma depth0_entity_keeps st et st' :
  et ∈ s_entity_types (schema self) →
  depth0_entity self ix st et = Ok st' →
  P (bottlenecks st) → P (bottlenecks st').
Proof.
  intros Het Hstep HPst. unfold depth0_entity in Hstep.
  inv_bind Hstep as aes Haes. inv_bind Hstep as ae Hae.
  inv_bind Hstep as input Hin. inv_bind Hstep as out Hout.
  destruct out as [entity_outputs bns]. inv_bind Hstep as bn Hbn.
  injection Hstep as <-. cbn. destruct bns as [b|].
  - inv_bind Hbn as eidx He. apply getitem_Ok in He. eauto.
  - by injection Hbn as <-.
Qed.

Lemma propagate_entity_keeps prev d st et st' :
  et ∈ s_entity_types (schema self) →
  propagate_entity self entities adjacencies ix prev d st et = Ok st' →
  P (bottlenecks st) → P (bottlenecks st').
Proof.
  intros Het Hstep HPst. unfold propagate_entity in Hstep.
  inv_bind Hstep as di Hdi. destruct di as [o input].
  inv_bind Hstep as aes Haes. inv_bind Hstep as ae Hae.
  inv_bind Hstep as out Hout. destruct out as [entity_outputs bns].
  destruct entity_outputs as [o'|]; [|done].
  inv_bind Hstep as bn Hbn. injection Hstep as <-. cbn.
  destruct (negb (t_cols o' =? 0)).
  - destruct bns as [b|]; [|done].
    inv_bind Hbn as eidx He. apply getitem_Ok in He. eauto.
  - by injection Hbn as <-.
Qed.

Lemma propagate_keeps st st' :
  propagate self entities adjacencies ix st = Ok st' →
  P (bottlenecks st) → P (bottlenecks st').
Proof.
  unfold propagate. intros Hp HPst. revert Hp.
  apply (foldlM_inv (fun st => P (bottlenecks st))); [done|].
  intros d st1 st2 _ HP1. unfold propagate_depth.
  apply (foldlM_inv (fun st => P (bottlenecks st))); [done|].
  intros et st3 st4 Het HP3 Hstep. by eapply propagate_entity_keeps.
Qed.

Lemma forward_keeps out w :
  assemble_indices self entities = Ok ix →
  forward self entities adjacencies = Ok out →
  bottleneck_size self = Some w →
  P (zeros (num_entities entities) w) → P (o_bottlenecks out).
Proof.
  intros Hix Hf Hw HP0. unfold forward in Hf.
  inv_bind Hf as d0 Hd0. destruct d0 as [ix' st0].
  inv_bind Hf as st1 Hst1. unfold finish in Hf.
  inv_bind Hf as resized Hres. inv_bind Hf as recs Hrecs.
  injection Hf as <-. cbn.
  pose proof (depth0_indices _ _ _ _ Hd0) as Hix'.
  assert (ix' = ix) as -> by congruence.
  eapply propagate_keeps; [exact Hst1|].
  unfold depth0 in Hd0. inv_bind Hd0 as ix0 Hix0. inv_bind Hd0 as enc Henc.
  inv_bind Hd0 as inputs Hin. inv_bind Hd0 as w' Hw'.
  inv_bind Hd0 as st Hst. injection Hd0 as -> ->.
  unfold bottleneck_width in Hw'. rewrite Hw in Hw'. injection Hw' as <-.
  revert Hst. apply (foldlM_inv (fun st => P (bottlenecks st))); [done|].
  intros et st3 st4 Het HP3 Hstep. by eapply depth0_entity_keeps.
Qed.

End Bottlenecks.

Lemma forward_Ok_inv (self : GraphAutoencoder R) (entities : Batch R)
  adjacencies out :
  forward self entities adjacencies = Ok out →
  ∃ ix w resized,
    assemble_indices self entities = Ok ix ∧
    bottleneck_size self = Some w ∧
    decode_fields self resized = Ok (reconstructions out) ∧
    t_cols resized = projected_size self ∧
    nrows resized = num_entities entities ∧
    o_ids out = b_ids entities ∧ o_types out = b_types entities ∧
    autoencoder_boundary_pairs out = [].
Proof.
  intros Hf. unfold forward in Hf.
  inv_bind Hf as d0 Hd0. destruct d0 as [ix st0].
  inv_bind Hf as st1 Hst1. unfold finish in Hf.
  inv_bind Hf as resized Hres. inv_bind Hf as recs Hrecs.
  injection Hf as <-. cbn.
  pose proof (depth0_indices _ _ _ _ Hd0) as Hix.
  unfold depth0 in Hd0. inv_bind Hd0 as ix0 Hix0. inv_bind Hd0 as enc Henc.
  inv_bind Hd0 as inputs Hin. inv_bind Hd0 as w Hw.
  unfold bottleneck_width in Hw.
  destruct (bottleneck_size self) as [w'|] eqn:Ew; [|done].
  exists ix, w', resized. split; [done|]. split; [done|]. split; [done|].
  cut (t_cols resized = projected_size self ∧
       nrows resized = num_entities entities); [by intros [? ?]|].
  revert Hres. unfold project.
  apply (foldlM_inv (fun t => t_cols t = projected_size self ∧
                              nrows t = num_entities entities)).
  - split; [done|]. unfold nrows, zeros. cbn. by rewrite length_replicate.
  - intros kv t t' _ [Hc Hn] Hstep. inv_bind Hstep as indices Hi.
    inv_bind Hstep as p Hp. inv_bind Hstep as v Hv.
    apply index_put_Ok in Hstep as (-> & -> & _). done.
Qed.

Lemma decode_fields_dom (self : GraphAutoencoder R) resized recs :
  decode_fields self resized = Ok recs →
  ∀ n, is_Some (recs !! n) ↔ n ∈ f_name <$> s_data_fields (schema self).
Proof.
  unfold decode_fields.
  apply (foldlM_ind (fun pre recs =>
           ∀ n, is_Some (recs !! n) ↔ n ∈ f_name <$> pre)).
  - intros n. rewrite lookup_empty. split; [by intros [? ?]|].
    by intros ?%elem_of_nil.
  - intros pre f recs0 recs1 _ IH Hstep. inv_bind Hstep as dec Hdec.
    inv_bind Hstep as r Hr. injection Hstep as <-. intros n.
    rewrite fmap_app, elem_of_app, <- IH. cbn.
    rewrite list_elem_of_singleton.
    destruct (decide (n = f_name f)) as [->|Hne].
    + rewrite lookup_insert_eq. split; [by right | by eexists].
    + rewrite lookup_insert_ne by done. split; [by left | by intros [?|?]].
Qed.

Lemma forward_bottlenecks_shape (self : GraphAutoencoder R)
  (entities : Batch R) adjacencies ix out w :
  assemble_indices self entities = Ok ix →
  forward self entities adjacencies = Ok out →
  bottleneck_size self = Some w →
  t_cols (o_bottlenecks out) = w ∧
  nrows (o_bottlenecks out) = num_entities entities.
Proof.
  intros Hix Hf Hw.
  apply (forward_keeps self entities adjacencies ix
           (fun t => t_cols t = w ∧ nrows t = num_entities entities))
    with (w := w); try done.
  - intros et eidx t b t' _ _ [Hc Hn] (-> & -> & _)%index_put_Ok. done.
  - split; [done|]. unfold nrows, zeros. cbn. by rewrite length_replicate.
Qed.

(** X20: when [forward] returns, the bottleneck tensor has one row per
    entity of the batch and as many columns as the last element of the
    shape sequence; the id and entity-type columns are handed back as
    they came; there is one reconstruction per data field of the schema
    and no other; and the list of boundary pairs is empty. *)
Theorem forward_output_shape (self : GraphAutoencoder R)
  (entities : Batch R) (adjacencies : gmap string (list (list bool)))
  (out : Output R) :
  forward self entities adjacencies = Ok out →
  bottleneck_size self = Some (t_cols (o_bottlenecks out)) ∧
  nrows (o_bottlenecks out) = num_entities entities ∧
  o_ids out = b_ids entities ∧ o_types out = b_types entities ∧
  (∀ n, is_Some (reconstructions out !! n)
        ↔ n ∈ f_name <$> s_data_fields (schema self)) ∧
  autoencoder_boundary_pairs out = [].
Proof.
  intros Hf.
  destruct (forward_Ok_inv _ _ _ _ Hf)
    as (ix & w & resized & Hix & Hw & Hdec & _ & _ & Hids & Htys & Hpairs).
  destruct (forward_bottlenecks_shape _ _ _ _ _ _ Hix Hf Hw) as [Hc Hn].
  split; [by rewrite Hc|]. split; [done|]. split; [done|]. split; [done|].
  split; [|done]. by eapply decode_fields_dom.
Qed.

(** X21: a row of the batch whose type name the schema does not declare
    takes no part in the computation of the bottlenecks: its row of the
    returned bottleneck tensor is zero. *)
Theorem forward_untyped_row_zero (self : GraphAutoencoder R)
  (entities : Batch R) (adjacencies : gmap string (list (list bool)))
  (out : Output R) (i : nat) :
  forward self entities adjacencies = Ok out →
  i < num_entities entities →
  untyped self entities i →
  t_rows (o_bottlenecks out) !! i
  = Some (replicate (t_cols (o_bottlenecks out)) s_zero).
Proof.
  intros Hf Hi Hun.
  destruct (forward_Ok_inv _ _ _ _ Hf) as (ix & w & _ & Hix & Hw & _).
  destruct (forward_bottlenecks_shape _ _ _ _ _ _ Hix Hf Hw) as [-> _].
  apply (forward_keeps self entities adjacencies ix
           (fun t => t_rows t !! i = Some (replicate w s_zero)))
    with (w := w); try done.
  - intros et eidx t b t' Het He Ht (_ & _ & Hrows)%index_put_Ok.
    rewrite Hrows; [done|]. intros Hin.
    destruct (assemble_indices_Ok _ _ _ Hix) as (_ & (_ & _ & Hent & _) & _).
    rewrite (Hent _ _ He) in Hin. apply elem_of_entity_indices in Hin.
    by apply (Hun et).
  - by apply zeros_lookup.
Qed.

(** X22: all reconstructions are decoded from one and the same
    projected tensor, which has one row per entity of the batch and
    [projected_size] columns: with distinct field names, the
    reconstruction of a data field is what the field's decoder returns
    for that tensor. *)
Theorem forward_reconstructions (self : GraphAutoencoder R)
  (entities : Batch R) (adjacencies : gmap string (list (list bool)))
  (out : Output R) :
  forward self entities adjacencies = Ok out →
  NoDup (f_name <$> s_data_fields (schema self)) →
  ∃ resized,
    t_cols resized = projected_size self ∧
    nrows resized = num_entities entities ∧
    ∀ f, f ∈ s_data_fields (schema self) →
      ∃ dec r, field_decoders self !! f_name f = Some dec ∧
               dec resized = Ok r ∧
               reconstructions out !! f_name f = Some r.
Proof.
  intros Hf Hnd.
  destruct (forward_Ok_inv _ _ _ _ Hf)
    as (_ & _ & resized & _ & _ & Hdec & Hc & Hn & _).
  exists resized. split; [done|]. split; [done|]. intros f Hin.
  unfold decode_fields in Hdec.
  rewrite (foldlM_ext_in _
             (fun recs f =>
                r ← (dec ← getitem (field_decoders self) (f_name f);
                     dec resized);
                Ok (<[f_name f := r]> recs))) in Hdec.
  2:{ intros recs f' _.
      by destruct (getitem (field_decoders self) (f_name f')). }
  destruct (foldlM_insert_lookup f_name _ _ _ Hnd Hdec _ Hin)
    as (r & Hr & Hval).
  inv_bind Hval as dec Hget. apply getitem_Ok in Hget. by exists dec, r.
Qed.

(** *** Gathering and scattering rows (ensemble.py:163-166) *)

Lemma select_by_NoDup {A} (xs : list A) (mask : list bool) :
  NoDup xs → NoDup (select_by xs mask).
Proof.
  intros Hnd. revert mask. induction Hnd as [|x xs Hx Hnd IH]; intros mask.
  { unfold select_by. cbn. constructor. }
  destruct mask as [|b mask]; [rewrite select_by_nil_r; constructor|].
  rewrite select_by_cons. destruct b; [|apply IH].
  constructor; [|apply IH].
  intros (j & Hj & _)%elem_of_select_by. apply Hx.
  by eapply list_elem_of_lookup_2.
Qed.

Lemma foldl_insert_rows_written (rows : list (list R))
  (ws : list (nat * list R)) j r :
  NoDup ws.*1 → Forall (fun w => w.1 < length rows) ws → (j, r) ∈ ws →
  foldl (fun rows ir => <[ir.1 := ir.2]> rows) rows ws !! j = Some r.
Proof.
  revert rows. induction ws as [|[j0 r0] ws IH]; intros rows Hnd Hlt Hin.
  { by apply elem_of_nil in Hin. }
  cbn in *. apply NoDup_cons in Hnd as [Hj0 Hnd].
  apply Forall_cons in Hlt as [Hlt0 Hlt]. cbn in Hlt0.
  apply elem_of_cons in Hin as [[= -> ->]|Hin].
  - destruct (foldl_insert_rows (<[j0 := r0]> rows) ws) as [_ Hl].
    rewrite Hl by done. by apply list_lookup_insert_eq.
  - apply IH; [done| |done].
    eapply Forall_impl; [exact Hlt|]. intros w Hw. cbn in Hw.
    by rewrite length_insert.
Qed.

Lemma index_put_rows (t : tensor R) idx v t' k i :
  index_put t idx v = Ok t' → NoDup idx → idx !! k = Some i →
  t_rows t' !! i = t_rows v !! k.
Proof.
  unfold index_put.
  destruct (negb _) eqn:Eshape; [done|].
  destruct (negb (forallb _ _)) eqn:Ebound; [done|]. intros [= <-] Hnd Hk.
  cbn. apply negb_false_iff, andb_true_iff in Eshape as [_ Hrows].
  apply Nat.eqb_eq in Hrows. unfold nrows in Hrows.
  apply negb_false_iff in Ebound.
  assert (is_Some (t_rows v !! k)) as [r Hr].
  { apply lookup_lt_is_Some. rewrite Hrows. by eapply lookup_lt_Some. }
  rewrite Hr. apply foldl_insert_rows_written.
  - by rewrite fst_zip by lia.
  - apply Forall_forall. intros [j rj] Hj%elem_of_zip_l. cbn.
    rewrite forallb_forall in Ebound.
    apply list_elem_of_In, Ebound, Nat.ltb_lt in Hj. done.
  - apply list_elem_of_lookup. exists k. apply lookup_zip_Some. done.
Qed.

Lemma encode_field_written (self : GraphAutoencoder R) (entities : Batch R)
  ix acc f acc' :
  encode_field self entities ix acc f = Ok acc' →
  ∃ enc idx t,
    field_encoders self !! f_name f = Some enc ∧
    field_indices ix !! f_name f = Some idx ∧
    acc'.1 = <[f_name f := t]> acc.1 ∧
    (idx = [] → t = zeros (num_entities entities) (fe_output_size enc)) ∧
    (idx ≠ [] →
     ∃ col values encoded,
       b_data entities !! f_name f = Some col ∧
       index_select col idx = Ok values ∧
       fe_apply enc values = Ok encoded ∧
       index_put (zeros (num_entities entities) (fe_output_size enc))
         idx encoded = Ok t).
Proof.
  unfold encode_field. intros He.
  inv_bind He as enc Henc. inv_bind He as idx Hidx.
  apply getitem_Ok in Henc, Hidx. exists enc, idx.
  destruct idx as [|i0 idx]; cbn in He.
  - injection He as <-. eexists. split; [done|]. split; [done|].
    split; [done|]. split; done.
  - inv_bind He as col Hcol. inv_bind He as vals Hvals.
    inv_bind He as encoded Hencoded. inv_bind He as t Ht.
    injection He as <-. apply getitem_Ok in Hcol. exists t.
    split; [done|]. split; [done|]. split; [done|]. split; [done|].
    intros _. by exists col, vals, encoded.
Qed.

(** X25: the encoder of a data field sees the rows that hold a value and
    no others, gathered in batch order, and its [k]-th output row becomes
    the encoding of the [k]-th such entity; a field without any value in
    the batch is encoded as zeros without its encoder being called on
    anything. *)
Theorem encode_fields_scatter (self : GraphAutoencoder R)
  (entities : Batch R) (ix : Indices) (encs : gmap string (tensor R))
  (log : list string) (f : FieldSpec) :
  assemble_indices self entities = Ok ix →
  encode_fields self entities ix = Ok (encs, log) →
  NoDup (f_name <$> s_data_fields (schema self)) →
  f ∈ s_data_fields (schema self) →
  ∃ enc idx t,
    field_encoders self !! f_name f = Some enc ∧
    field_indices ix !! f_name f = Some idx ∧
    encs !! f_name f = Some t ∧
    (idx = [] → t = zeros (num_entities entities) (fe_output_size enc)) ∧
    (idx ≠ [] →
     ∃ col values encoded,
       b_data entities !! f_name f = Some col ∧
       index_select col idx = Ok values ∧
       fe_apply enc values = Ok encoded ∧
       ∀ k i, idx !! k = Some i → t_rows t !! i = t_rows encoded !! k).
Proof.
  intros Hix Henc Hnd Hf.
  assert (∀ idx, field_indices ix !! f_name f = Some idx → NoDup idx)
    as Hnodup.
  { intros idx Hidx.
    destruct (assemble_indices_Ok _ _ _ Hix) as ((_ & _ & Hall & Hmasks) & _).
    cbn in Hall, Hmasks. destruct (Hall _ Hf) as [mask Hm].
    destruct (Hmasks _ _ Hm) as (_ & Hfi & _).
    rewrite Hidx in Hfi. injection Hfi as ->.
    apply select_by_NoDup, NoDup_seq. }
  revert Henc. unfold encode_fields. intros Henc.
  cut (∀ f, f ∈ s_data_fields (schema self) →
         ∃ enc idx t,
           field_encoders self !! f_name f = Some enc ∧
           field_indices ix !! f_name f = Some idx ∧
           (encs, log).1 !! f_name f = Some t ∧
           (idx = [] →
            t = zeros (num_entities entities) (fe_output_size enc)) ∧
           (idx ≠ [] →
            ∃ col values encoded,
              b_data entities !! f_name f = Some col ∧
              index_select col idx = Ok values ∧
              fe_apply enc values = Ok encoded ∧
              index_put (zeros (num_entities entities) (fe_output_size enc))
                idx encoded = Ok t)).
  { intros Hall. destruct (Hall _ Hf) as (enc & idx & t & ? & Hidx & ? & ? & Hpos).
    exists enc, idx, t. split; [done|]. split; [done|]. split; [done|].
    split; [done|]. intros Hne.
    destruct (Hpos Hne) as (col & values & encoded & ? & ? & ? & Hput).
    exists col, values, encoded. split; [done|]. split; [done|].
    split; [done|]. intros k i Hk.
    eapply index_put_rows; [exact Hput | by eapply Hnodup | done]. }
  revert Henc. generalize (encs, log). intros acc Henc.
  revert Hnd Henc. generalize (s_data_fields (schema self)). intros fs Hnd.
  apply (foldlM_ind_prefix (fun pre acc =>
    ∀ f, f ∈ pre →
      ∃ enc idx t,
        field_encoders self !! f_name f = Some enc ∧
        field_indices ix !! f_name f = Some idx ∧
        acc.1 !! f_name f = Some t ∧
        (idx = [] →
         t = zeros (num_entities entities) (fe_output_size enc)) ∧
        (idx ≠ [] →
         ∃ col values encoded,
           b_data entities !! f_name f = Some col ∧
           index_select col idx = Ok values ∧
           fe_apply enc values = Ok encoded ∧
           index_put (zeros (num_entities entities) (fe_output_size enc))
             idx encoded = Ok t))).
  { intros f' Hf'. by apply elem_of_nil in Hf'. }
  intros pre x post a a' Hl Hpre Hstep.
  apply encode_field_written in Hstep
    as (enc & idx & t & Henc' & Hidx & Ha' & Hzero & Hpos).
  intros y [Hy|Hy]%elem_of_app.
  - destruct (Hpre _ Hy) as (enc' & idx' & t' & ? & ? & Ht' & ? & ?).
    exists enc', idx', t'. split; [done|]. split; [done|].
    split; [|done]. rewrite Ha'.
    rewrite lookup_insert_ne; [done|]. intros Hk.
    rewrite Hl, fmap_app in Hnd. apply NoDup_app in Hnd as (_ & Hdisj & _).
    apply (Hdisj (f_name y)); [by apply list_elem_of_fmap_2|].
    rewrite fmap_cons, <- Hk. by left.
  - apply list_elem_of_singleton in Hy as ->. exists enc, idx, t.
    split; [done|]. split; [done|]. split; [|done].
    by rewrite Ha', lookup_insert_eq.
Qed.

(** *** The inputs of the deeper autoencoders (ensemble.py:201-229) *)

Lemma other_reps_blocks (self : GraphAutoencoder R) (entities : Batch R)
  adjacencies ix prev et reps :
  other_reps self entities adjacencies ix prev et = Ok reps →
  length reps = relation_count (reverse_relations self) et ∧
  Forall (fun t => bottleneck_size self = Some (t_cols t)) reps.
Proof.
  unfold other_reps, relation_count. intros Ho.
  inv_bind Ho as outgoing Hout. inv_bind Ho as incoming Hinc.
  injection Ho as <-.
  assert (∀ summarizers names blocks,
            mapM (relation_reps self entities adjacencies summarizers ix
                    prev et) names = Ok blocks →
            length blocks = length names ∧
            Forall (fun t => bottleneck_size self = Some (t_cols t)) blocks)
    as Hblocks.
  { intros summarizers names blocks Hm%mapM_Ok.
    induction Hm as [|rel t names blocks Hrel _ [IHl IHf]]; [done|].
    split; [cbn; by rewrite IHl|]. constructor; [|done].
    apply relation_reps_Ok in Hrel
      as (summarize & eidx & w & _ & _ & Hw & Hc & _).
    by rewrite Hc. }
  destruct (Hblocks _ _ _ Hout) as [Hl1 Hf1].
  rewrite length_app, Hl1, Forall_app.
  destruct (reverse_relations self).
  - destruct (Hblocks _ _ _ Hinc) as [Hl2 Hf2]. by rewrite Hl2.
  - injection Hinc as <-. split; [done|]. split; [done | constructor].
Qed.

Lemma sum_list_with_const {A} (f : A → nat) (l : list A) (w : nat) :
  Forall (fun x => f x = w) l → sum_list_with f l = length l * w.
Proof. induction 1 as [|x l Hx _ IH]; cbn; [done | by rewrite Hx, IH]. Qed.

(** X23: at every depth from 1 on, the input of an entity type's
    autoencoder is the previous output cut to the output width of the
    type's zero-depth autoencoder, followed by one block of bottleneck
    width for each outgoing relation and, with reverse relations, for
    each incoming one. *)
Theorem deeper_input_width (self : GraphAutoencoder R) (entities : Batch R)
  (adjacencies : gmap string (list (list bool))) (ix : Indices)
  (prev : tensor R) (st : State R) (et : EntityType)
  (output input : tensor R) :
  deeper_input self entities adjacencies ix prev st et = Ok (output, input) →
  ∃ aes ae0,
    entity_autoencoders self !! et_name et = Some aes ∧
    aes !! 0 = Some ae0 ∧
    t_cols output = ae_output_size ae0 ∧
    t_cols input
    = ae_output_size ae0
      + relation_count (reverse_relations self) et
        * default 0 (bottleneck_size self).
Proof.
  unfold deeper_input. intros Hd.
  inv_bind Hd as output0 Hout0. inv_bind Hd as aes Haes.
  inv_bind Hd as ae0 Hae0. inv_bind Hd as output' Hnarrow.
  inv_bind Hd as reps Hreps. inv_bind Hd as others Hothers.
  inv_bind Hd as input' Hinput. injection Hd as -> ->.
  apply getitem_Ok in Haes. exists aes, ae0. split; [done|].
  split. { unfold list_item in Hae0. by destruct (aes !! 0) as [a|]; simplify_eq. }
  assert (t_cols output = ae_output_size ae0) as Hc.
  { unfold narrow1 in Hnarrow.
    destruct (ae_output_size ae0 <=? t_cols output0); by simplify_eq. }
  split; [done|].
  apply cat1_cols in Hinput. rewrite Hinput, Hc. cbn. f_equal.
  rewrite Nat.add_0_r.
  destruct (other_reps_blocks _ _ _ _ _ _ _ Hreps) as [<- Hall].
  destruct reps as [|r0 rs]; cbn in Hothers.
  - by injection Hothers as <-.
  - apply cat1_cols in Hothers. rewrite Hothers.
    apply Forall_cons in Hall as [Hr0 Hrs]. rewrite Hr0. cbn.
    rewrite (sum_list_with_const _ _ (t_cols r0)); [lia|].
    eapply Forall_impl; [exact Hrs|]. intros t Ht. cbn in Ht. congruence.
Qed.

(** *** The autoencoder stacks built by [__init__] (ensemble.py:66-78) *)

Lemma add_bottlenecks_Ok (bn : option nat) names b b' :
  add_bottlenecks bn names b = Ok b' →
  b' = b + length names * default 0 bn.
Proof.
  unfold add_bottlenecks.
  apply (foldlM_ind (fun pre b' => b' = b + length pre * default 0 bn)).
  - cbn. lia.
  - intros pre x b0 b1 _ -> Hstep. unfold add_bottleneck in Hstep.
    destruct bn as [w|]; [|done]. injection Hstep as <-.
    rewrite length_app. cbn. lia.
Qed.

Lemma with_relations_Ok cfg (bn : option nat) et b b' :
  with_relations cfg bn et b = Ok b' →
  b' = b + relation_count (c_reverse_relations cfg) et * default 0 bn.
Proof.
  unfold with_relations, relation_count. intros Hw.
  inv_bind Hw as b1 Hb1. apply add_bottlenecks_Ok in Hb1 as ->.
  destruct (c_reverse_relations cfg).
  - apply add_bottlenecks_Ok in Hw as ->. lia.
  - injection Hw as <-. lia.
Qed.

Lemma stack_fold (cls : Classes R) name b shapes d a0 :
  foldlM (fun l (_ : nat) =>
            sh ← shape_list b (Some shapes);
            Ok (l ++ [Autoencoder_new cls name (length l) sh]))
         [a0] (seq 0 d)
  = Ok (a0 :: ((fun i => Autoencoder_new cls name (S i) (b :: shapes))
                 <$> seq 0 d)).
Proof.
  induction d as [|d IH]; [done|].
  rewrite seq_S, foldlM_app, IH. cbn.
  rewrite length_fmap, length_seq, fmap_app. done.
Qed.

(** X24: for each entity type [__init__] builds [depth + 1] autoencoders:
    the first on the shape sequence headed by the type's boundary size,
    every further one on the sequence headed by the boundary size plus
    one bottleneck width for each outgoing relation and, with reverse
    relations, for each incoming one. *)
Theorem init_autoencoder_stacks (cls : Classes R) (cfg : Config)
  (g : GraphAutoencoder R) (et : EntityType) :
  init cls cfg = Ok g →
  NoDup (et_name <$> s_entity_types (c_schema cfg)) →
  et ∈ s_entity_types (c_schema cfg) →
  ∃ bsz shapes,
    boundary_sizes g !! et_name et = Some bsz ∧
    c_autoencoder_shapes cfg = Some shapes ∧
    entity_autoencoders g !! et_name et
    = Some (Autoencoder_new cls (et_name et) 0 (bsz :: shapes)
            :: ((fun d =>
                   Autoencoder_new cls (et_name et) (S d)
                     ((bsz + relation_count (c_reverse_relations cfg) et
                             * default 0 (bottleneck_of (Some shapes)))
                      :: shapes))
                  <$> seq 0 (c_depth cfg))).
Proof.
  intros (_ & _ & _ & _ & Haes)%init_attributes Hnd Het.
  unfold init_entity_autoencoders in Haes.
  set (bn := bottleneck_of (c_autoencoder_shapes cfg)) in *.
  set (val := fun et : EntityType =>
         boundary_size ← getitem (boundary_sizes g) (et_name et);
         sh0 ← shape_list boundary_size (c_autoencoder_shapes cfg);
         boundary_size' ← with_relations cfg bn et boundary_size;
         foldlM (fun l (_ : nat) =>
                   sh ← shape_list boundary_size'
                          (c_autoencoder_shapes cfg);
                   Ok (l ++ [Autoencoder_new cls (et_name et)
                               (length l) sh]))
                [Autoencoder_new cls (et_name et) 0 sh0]
                (seq 0 (c_depth cfg))).
  rewrite (foldlM_ext_in _
             (fun aes et => v ← val et; Ok (<[et_name et := v]> aes)))
    in Haes.
  2:{ intros aes et' _. unfold val.
      destruct (getitem (boundary_sizes g) (et_name et')) as [b|]; cbn;
        [|done].
      destruct (shape_list b (c_autoencoder_shapes cfg)) as [sh0|]; cbn;
        [|done].
      by destruct (with_relations cfg bn et' b). }
  destruct (foldlM_insert_lookup et_name val _ _ Hnd Haes _ Het)
    as (stack & Hstack & Hval).
  unfold val in Hval. inv_bind Hval as bsz Hb. apply getitem_Ok in Hb.
  inv_bind Hval as sh0 Hsh0. inv_bind Hval as bsz' Hb'.
  apply with_relations_Ok in Hb' as ->. unfold bn in *.
  destruct (c_autoencoder_shapes cfg) as [shapes|] eqn:Es; [|done].
  injection Hsh0 as <-. rewrite stack_fold in Hval. injection Hval as <-.
  by exists bsz, shapes.
Qed.

(** *** The projected size (ensemble.py:92) *)

Lemma foldr_max_spec (x : nat) (l : list nat) :
  foldr Nat.max x l ∈ x :: l ∧ ∀ y, y ∈ x :: l → y ≤ foldr Nat.max x l.
Proof.
  induction l as [|a l [IHin IHle]]; cbn.
  { split; [by left|]. by intros y ->%list_elem_of_singleton. }
  split.
  - destruct (Nat.max_spec a (foldr Nat.max x l)) as [[_ ->]|[_ ->]].
    + apply elem_of_cons in IHin as [->|Hin]; [by left|].
      right. by right.
    + right. by left.
  - intros y [->|[->|Hy]%elem_of_cons]%elem_of_cons.
    + specialize (IHle x (ltac:(by left))). lia.
    + lia.
    + specialize (IHle y (ltac:(by right))). lia.
Qed.

(** X26: when no projected size is given, [__init__] takes the largest
    boundary size: it is the boundary size of some entity type, and no
    entity type has a larger one. *)
Theorem init_projected_size_default (cls : Classes R) (cfg : Config)
  (g : GraphAutoencoder R) :
  init cls cfg = Ok g →
  c_projected_size cfg = None →
  (∃ n, boundary_sizes g !! n = Some (projected_size g)) ∧
  ∀ n b, boundary_sizes g !! n = Some b → b ≤ projected_size g.
Proof.
  unfold init. intros Hi Hnone.
  inv_bind Hi as encs Hencs. inv_bind Hi as bs Hbs. inv_bind Hi as aes Haes.
  inv_bind Hi as psize Hps. inv_bind Hi as projs Hprojs.
  inv_bind Hi as decs Hdecs. injection Hi as <-. cbn.
  unfold init_projected_size in Hps. rewrite Hnone in Hps.
  unfold max_value in Hps.
  destruct ((map_to_list bs).*2) as [|x l] eqn:E; [done|].
  injection Hps as <-.
  destruct (foldr_max_spec x l) as [Hin Hle]. rewrite <- E in Hin, Hle.
  split.
  - apply list_elem_of_fmap in Hin as ([n b] & Hb & Hnb). cbn in Hb.
    exists n. apply elem_of_map_to_list in Hnb. by rewrite Hb.
  - intros n b Hb. apply Hle. apply list_elem_of_fmap.
    exists (n, b). split; [done|]. by apply elem_of_map_to_list.
Qed.

(** X27: a schema without entity types cannot be constructed unless a
    projected size is given: there is no boundary size to take the
    largest of. *)
Theorem init_no_entity_types (cls : Classes R) (cfg : Config) :
  s_entity_types (c_schema cfg) = [] →
  c_projected_size cfg = None →
  is_ok (init cls cfg) = false.
Proof.
  intros Hets Hnone. unfold init.
  apply is_ok_bind. intros encs _.
  unfold init_boundary_sizes, init_entity_autoencoders, init_projected_size.
  rewrite Hets, Hnone. cbn. unfold max_value.
  by rewrite map_to_list_empty.
Qed.

End Coverage.

End EnsembleCoverage.

(** ** The scenario: instances of the properties above *)

Module ScenarioCoverage.

Import Ensemble Scenario EnsembleFacts EnsembleCoverage.

Local Abbreviation g1 := (model (config 1 (Some [1]) true 8)).

Lemma schema_g1 : schema g1 = the_schema.
Proof. by vm_compute. Qed.

Lemma the_schema_names :
  NoDup (f_name <$> s_data_fields the_schema) ∧
  NoDup (et_name <$> s_entity_types the_schema).
Proof. split; apply (bool_decide_unpack _); by vm_compute. Qed.

(** The plain schema with an empty shape sequence constructs, and its
    [forward] raises. *)
Lemma forward_without_bottleneck_witness :
  is_ok (forward (model (plain_config 0 (Some []))) plain_batch ∅) = false.
Proof.
  apply (forward_without_bottleneck classes (plain_config 0 (Some []))).
  - by vm_compute.
  - reflexivity.
Defined.

(** The batch without its [title] column. *)
Lemma forward_missing_column_witness :
  is_ok (forward g1 untitled_batch the_adjacency) = false.
Proof.
  apply (forward_missing_column g1 untitled_batch the_adjacency
           {| f_name := "title"; f_class := SequentialFieldC;
              type_name := "sequential" |}).
  - rewrite schema_g1. right. by left.
  - by vm_compute.
Defined.

(** A field of a class without registry entry. *)
Lemma init_unregistered_field_witness :
  init classes odd_config = Raise Exception.
Proof.
  apply (init_unregistered_field classes odd_config odd_field).
  - apply elem_of_app. right. by left.
  - reflexivity.
Defined.

(** The rows of type [Person] in the batch. *)
Lemma entity_indices_partition_witness :
  ∃ eidx,
    entity_indices (indices_of g1 the_batch) !! et_name person = Some eidx ∧
    StronglySorted lt eidx ∧
    ∀ i, i ∈ eidx ↔ b_types the_batch !! i = Some (et_name person).
Proof.
  apply (entity_indices_partition g1 the_batch).
  - by vm_compute.
  - rewrite schema_g1. by left.
Defined.

(** The output for the scenario at depth 1. *)
Lemma forward_output_shape_witness :
  let out := output_of g1 the_batch the_adjacency in
  bottleneck_size g1 = Some (t_cols (o_bottlenecks out)) ∧
  nrows (o_bottlenecks out) = num_entities the_batch ∧
  o_ids out = b_ids the_batch ∧ o_types out = b_types the_batch ∧
  (∀ n, is_Some (reconstructions out !! n)
        ↔ n ∈ f_name <$> s_data_fields (schema g1)) ∧
  autoencoder_boundary_pairs out = [].
Proof.
  cbv zeta. apply (forward_output_shape g1 the_batch the_adjacency).
  by vm_compute.
Defined.

(** The row of the [Robot] in the batch that has one. *)
Lemma forward_untyped_row_zero_witness :
  let out := output_of g1 stray_batch stray_adjacency in
  t_rows (o_bottlenecks out) !! 3
  = Some (replicate (t_cols (o_bottlenecks out)) s_zero).
Proof.
  cbv zeta. apply (forward_untyped_row_zero g1 stray_batch stray_adjacency).
  - by vm_compute.
  - cbn. lia.
  - intros et. rewrite schema_g1.
    intros [->|[->|?%elem_of_nil]%elem_of_cons]%elem_of_cons;
      [discriminate | discriminate | done].
Defined.

Lemma forward_reconstructions_witness :
  let out := output_of g1 the_batch the_adjacency in
  ∃ resized,
    t_cols resized = projected_size g1 ∧
    nrows resized = num_entities the_batch ∧
    ∀ f, f ∈ s_data_fields (schema g1) →
      ∃ dec r, field_decoders g1 !! f_name f = Some dec ∧
               dec resized = Ok r ∧
               reconstructions out !! f_name f = Some r.
Proof.
  cbv zeta. apply (forward_reconstructions g1 the_batch the_adjacency).
  - by vm_compute.
  - rewrite schema_g1. apply the_schema_names.
Defined.

(** The depth-1 input of [Person]: the 9 columns of the zero-depth
    autoencoder's output and one block of width 1 for [authored]. *)
Lemma deeper_input_width_witness :
  let oi := deeper_input_of g1 the_batch the_adjacency person in
  ∃ aes ae0,
    entity_autoencoders g1 !! et_name person = Some aes ∧
    aes !! 0 = Some ae0 ∧
    t_cols oi.1 = ae_output_size ae0 ∧
    t_cols oi.2
    = ae_output_size ae0
      + relation_count (reverse_relations g1) person
        * default 0 (bottleneck_size g1).
Proof.
  cbv zeta.
  apply (deeper_input_width g1 the_batch the_adjacency
           (indices_of g1 the_batch)
           (bottlenecks (depth0_state g1 the_batch))
           (depth0_state g1 the_batch)).
  by vm_compute.
Defined.

(** The two autoencoders of [Person] at depth 1. *)
Lemma init_autoencoder_stacks_witness :
  ∃ bsz shapes,
    boundary_sizes g1 !! et_name person = Some bsz ∧
    c_autoencoder_shapes (config 1 (Some [1]) true 8) = Some shapes ∧
    entity_autoencoders g1 !! et_name person
    = Some (Autoencoder_new classes (et_name person) 0 (bsz :: shapes)
            :: ((fun d =>
                   Autoencoder_new classes (et_name person) (S d)
                     ((bsz + relation_count
                               (c_reverse_relations
                                  (config 1 (Some [1]) true 8)) person
                             * default 0 (bottleneck_of (Some shapes)))
                      :: shapes))
                  <$> seq 0 (c_depth (config 1 (Some [1]) true 8)))).
Proof.
  apply (init_autoencoder_stacks classes (config 1 (Some [1]) true 8) g1).
  - by vm_compute.
  - apply the_schema_names.
  - by left.
Defined.

(** The encoding of [age], present for the first person only. *)
Lemma encode_fields_scatter_witness :
  let ix := indices_of g1 the_batch in
  let encs := (encodings_of g1 the_batch).1 in
  ∃ enc idx t,
    field_encoders g1 !! "age" = Some enc ∧
    field_indices ix !! "age" = Some idx ∧
    encs !! "age" = Some t ∧
    (idx = [] → t = zeros (num_entities the_batch) (fe_output_size enc)) ∧
    (idx ≠ [] →
     ∃ col values encoded,
       b_data the_batch !! "age" = Some col ∧
       index_select col idx = Ok values ∧
       fe_apply enc values = Ok encoded ∧
       ∀ k i, idx !! k = Some i → t_rows t !! i = t_rows encoded !! k).
Proof.
  cbv zeta.
  apply (encode_fields_scatter g1 the_batch (indices_of g1 the_batch)
           (encodings_of g1 the_batch).1 (encodings_of g1 the_batch).2
           {| f_name := "age"; f_class := NumericFieldC;
              type_name := "numeric" |}).
  - by vm_compute.
  - by vm_compute.
  - rewrite schema_g1. apply the_schema_names.
  - rewrite schema_g1. by left.
Defined.

(** In the scenario both types have boundary size 9. *)
Lemma init_projected_size_default_witness :
  (∃ n, boundary_sizes g1 !! n = Some (projected_size g1)) ∧
  ∀ n b, boundary_sizes g1 !! n = Some b → b ≤ projected_size g1.
Proof.
  apply (init_projected_size_default classes (config 1 (Some [1]) true 8)).
  - by vm_compute.
  - reflexivity.
Defined.

Lemma init_no_entity_types_witness :
  is_ok (init classes empty_config) = false.
Proof.
  apply (init_no_entity_types classes empty_config); reflexivity.
Defined.

End ScenarioCoverage.

(** ** ensemble.py: relations without edges *)

Module EnsembleRuns.

Import Ensemble EnsembleFacts EnsembleCoverage.

(** *** Loops that do not raise *)

Lemma Ok_bind {A B} (a : A) (f : A → result B) : Ok a ≫= f = f a.
Proof. done. Qed.

Lemma foldlM_total_prefix {A B} (P : list A → B → Prop)
  (f : B → A → result B) l pre b :
  P pre b →
  (∀ pre' x b, x ∈ l → P pre' b → ∃ b', f b x = Ok b' ∧ P (pre' ++ [x]) b') →
  ∃ r, foldlM f b l = Ok r ∧ P (pre ++ l) r.
Proof.
  revert pre b. induction l as [|x l IH]; intros pre b Hb Hstep; cbn.
  { exists b. by rewrite app_nil_r. }
  destruct (Hstep pre x b) as (b' & -> & Hb'); [by left | done |]. cbn.
  destruct (IH (pre ++ [x]) b' Hb') as (r & Hr & HP).
  { intros pre' y b0 Hy. apply Hstep. by right. }
  exists r. split; [done|]. by rewrite <- app_assoc in HP.
Qed.

Lemma foldlM_total {A B} (P : list A → B → Prop) (f : B → A → result B)
  b l :
  P [] b →
  (∀ pre x b, x ∈ l → P pre b → ∃ b', f b x = Ok b' ∧ P (pre ++ [x]) b') →
  ∃ r, foldlM f b l = Ok r ∧ P l r.
Proof. intros H0 Hstep. by apply (foldlM_total_prefix P f l []). Qed.

Lemma foldlM_total_inv {A B} (P : B → Prop) (f : B → A → result B) b l :
  P b →
  (∀ x b, x ∈ l → P b → ∃ b', f b x = Ok b' ∧ P b') →
  ∃ r, foldlM f b l = Ok r ∧ P r.
Proof.
  intros H0 Hstep. apply (foldlM_total (fun _ => P)); [done|]. eauto.
Qed.

Lemma mapM_total {A B} (Q : A → B → Prop) (f : A → result B) l :
  (∀ x, x ∈ l → ∃ y, f x = Ok y ∧ Q x y) →
  ∃ r, mapM f l = Ok r ∧ Forall2 Q l r.
Proof.
  induction l as [|x l IH]; intros Hf; cbn.
  { exists []. split; [done | constructor]. }
  destruct (Hf x) as (y & -> & Hy); [by left|]. cbn.
  destruct IH as (r & -> & Hr). { intros; apply Hf; by right. }
  cbn. exists (y :: r). split; [done | by constructor].
Qed.

(** *** Dictionaries in insertion order *)

Lemma dict_get_set_eq {V} (d : list (string * V)) k v :
  dict_get (dict_set d k v) k = Ok v.
Proof.
  induction d as [|[k' v'] d IH]; cbn.
  - by rewrite decide_True.
  - destruct (decide (k' = k)); cbn;
      [by rewrite decide_True | by rewrite decide_False].
Qed.

Lemma dict_get_set_ne {V} (d : list (string * V)) k k' v :
  k' ≠ k → dict_get (dict_set d k v) k' = dict_get d k'.
Proof.
  intros Hne. induction d as [|[k0 v0] d IH]; cbn.
  - by rewrite decide_False.
  - destruct (decide (k0 = k)) as [->|Hk0]; cbn.
    + by rewrite !decide_False by done.
    + destruct (decide (k0 = k')); [done | apply IH].
Qed.

Lemma dict_set_Forall {V} (P : string * V → Prop) d k v :
  Forall P d → P (k, v) → Forall P (dict_set d k v).
Proof.
  intros Hd Hv. induction Hd as [|[k' v'] d Hkv Hd IH]; cbn.
  - by constructor.
  - destruct (decide (k' = k)); by constructor.
Qed.

Lemma dict_get_Forall {V} (P : string * V → Prop) d k v :
  Forall P d → dict_get d k = Ok v → P (k, v).
Proof.
  intros Hd. induction Hd as [|[k' v'] d Hkv Hd IH]; cbn; [done|].
  destruct (decide (k' = k)) as [->|Hne]; [by intros [= <-] | done].
Qed.

Lemma dict_get_set_is_ok {V} (d : list (string * V)) k k' v :
  is_ok (dict_get d k') = true →
  is_ok (dict_get (dict_set d k v) k') = true.
Proof.
  destruct (decide (k' = k)) as [->|Hne].
  - by rewrite dict_get_set_eq.
  - by rewrite dict_get_set_ne.
Qed.

Section Tensors.

Context {R : Type} `{Scalar R}.

(** *** Tensor operations on fitting shapes *)

Lemma nrows_zeros n c : nrows (zeros (R:=R) n c) = n.
Proof. unfold nrows, zeros. cbn. by rewrite length_replicate. Qed.

Lemma zeros_wf n c : tensor_wf (zeros (R:=R) n c).
Proof.
  unfold tensor_wf, zeros. cbn. apply Forall_replicate.
  by rewrite length_replicate.
Qed.

Lemma index_select_total (t : tensor R) idx :
  Forall (fun i => i < nrows t) idx →
  ∃ t', index_select t idx = Ok t' ∧
        t_cols t' = t_cols t ∧ nrows t' = length idx ∧
        (tensor_wf t → tensor_wf t').
Proof.
  intros Hidx. unfold index_select.
  destruct (mapM_total (fun i r => t_rows t !! i = Some r)
              (lookup_row (t_rows t)) idx) as (rows & -> & Hrows).
  { intros i Hi. rewrite Forall_forall in Hidx. apply Hidx in Hi.
    apply lookup_lt_is_Some in Hi as [r Hr]. exists r.
    unfold lookup_row. by rewrite Hr. }
  cbn. eexists. split; [done|]. split; [done|]. split.
  - unfold nrows. cbn. symmetry. by eapply Forall2_length.
  - unfold tensor_wf. cbn. intros Hwf. rewrite Forall_forall in Hwf.
    clear -Hrows Hwf. induction Hrows as [|i r idx rows Hr _ IH];
      constructor; [|done].
    apply Hwf. by eapply list_elem_of_lookup_2.
Qed.

Lemma foldl_insert_rows_wf (c : nat) (rows : list (list R))
  (ws : list (nat * list R)) :
  Forall (fun r => length r = c) rows →
  Forall (fun w => length w.2 = c) ws →
  Forall (fun r => length r = c)
         (foldl (fun rows ir => <[ir.1 := ir.2]> rows) rows ws).
Proof.
  revert rows. induction ws as [|[j r] ws IH]; intros rows Hr Hw; [done|].
  apply Forall_cons in Hw as [Hj Hw]. cbn in *. apply IH; [|done].
  by apply Forall_insert.
Qed.

Lemma index_put_total (t : tensor R) idx (v : tensor R) :
  t_cols v = t_cols t → nrows v = length idx →
  Forall (fun i => i < nrows t) idx →
  ∃ t', index_put t idx v = Ok t' ∧
        t_cols t' = t_cols t ∧ nrows t' = nrows t ∧
        (tensor_wf t → tensor_wf v → tensor_wf t').
Proof.
  intros Hc Hn Hidx. unfold index_put.
  assert (forallb (fun i => i <? nrows t) idx = true) as ->.
  { apply forallb_forall. intros i Hi%list_elem_of_In.
    rewrite Forall_forall in Hidx. apply Nat.ltb_lt. by apply Hidx. }
  rewrite Hc, Hn, !Nat.eqb_refl. cbn [andb negb].
  eexists. split; [done|].
  destruct (foldl_insert_rows (t_rows t) (zip idx (t_rows v))) as [Hlen _].
  split; [done|]. split; [done|].
  unfold tensor_wf. cbn. intros Hwt Hwv.
  apply foldl_insert_rows_wf; [done|].
  apply Forall_forall. intros [j r] Hjr%elem_of_zip_r. cbn.
  rewrite Forall_forall in Hwv. rewrite <- Hc. by apply Hwv.
Qed.

Lemma hcat_total (a b : tensor R) :
  nrows a = nrows b →
  ∃ t, hcat a b = Ok t ∧ nrows t = nrows a ∧
       t_cols t = t_cols a + t_cols b.
Proof.
  intros Hn. unfold hcat. rewrite Hn, Nat.eqb_refl. eexists.
  split; [done|]. split; [|done].
  unfold nrows in *. cbn. rewrite length_zip_with. lia.
Qed.

Lemma cat1_total (t0 : tensor R) ts :
  Forall (fun t => nrows t = nrows t0) ts →
  ∃ t, cat1 (t0 :: ts) = Ok t ∧ nrows t = nrows t0 ∧
       t_cols t = t_cols t0 + sum_list_with t_cols ts.
Proof.
  cbn. revert t0. induction ts as [|t1 ts IH]; intros t0 Hall; cbn.
  { exists t0. split; [done|]. split; [done | lia]. }
  apply Forall_cons in Hall as [H1 Hall].
  destruct (hcat_total t0 t1) as (a & -> & Hna & Hca); [done|]. cbn.
  destruct (IH a) as (t & -> & Hnt & Hct).
  { eapply Forall_impl; [exact Hall|]. intros x Hx. cbn in Hx. congruence. }
  exists t. split; [done|]. split; [congruence | lia].
Qed.

Lemma hcat_rows (a b t : tensor R) i :
  hcat a b = Ok t → i < nrows t →
  nrows t = nrows a ∧ nrows b = nrows a ∧
  t_rows t !! i
  = Some (default [] (t_rows a !! i) ++ default [] (t_rows b !! i)).
Proof.
  unfold hcat. destruct (nrows a =? nrows b) eqn:E; [|done].
  apply Nat.eqb_eq in E. intros [= <-]. unfold nrows in *. cbn.
  rewrite length_zip_with. intros Hi.
  split; [lia|]. split; [done|].
  destruct (lookup_lt_is_Some_2 (t_rows a) i) as [ra Hra]; [lia|].
  destruct (lookup_lt_is_Some_2 (t_rows b) i) as [rb Hrb]; [lia|].
  rewrite lookup_zip_with, Hra, Hrb. done.
Qed.

Lemma cat1_shape (t0 : tensor R) ts t :
  cat1 (t0 :: ts) = Ok t →
  nrows t = nrows t0 ∧ Forall (fun x => nrows x = nrows t0) ts.
Proof.
  cbn. revert t0. induction ts as [|t1 ts IH]; intros t0; cbn.
  { intros [= <-]. split; [done | constructor]. }
  intros Hc. inv_bind Hc as a Ha. destruct (IH _ Hc) as [Hn Hall].
  unfold hcat in Ha. destruct (nrows t0 =? nrows t1) eqn:E; [|done].
  apply Nat.eqb_eq in E. injection Ha as <-.
  assert (nrows {| t_cols := t_cols t0 + t_cols t1;
                   t_rows := zip_with app (t_rows t0) (t_rows t1) |}
          = nrows t0) as Hna.
  { unfold nrows in *. cbn. rewrite length_zip_with. lia. }
  rewrite Hna in Hn, Hall. split; [done|].
  constructor; [done | exact Hall].
Qed.

Lemma cat1_rows (t0 : tensor R) ts t i :
  cat1 (t0 :: ts) = Ok t → i < nrows t →
  nrows t = nrows t0 ∧ Forall (fun x => nrows x = nrows t0) ts ∧
  t_rows t !! i = Some (row_blocks (t0 :: ts) i).
Proof.
  cbn. revert t0. induction ts as [|t1 ts IH]; intros t0; cbn.
  { intros [= <-] Hi. split; [done|]. split; [constructor|].
    unfold row_blocks. cbn. rewrite app_nil_r.
    apply lookup_lt_is_Some_2 in Hi as [r Hr]. by rewrite Hr. }
  intros Hc Hi. inv_bind Hc as a Ha.
  destruct (IH a Hc Hi) as (Hn & Hall & Hrow).
  destruct (hcat_rows t0 t1 a i Ha) as (Hna & Hn1 & Hra); [lia|].
  split; [lia|]. split.
  - constructor; [done|]. eapply Forall_impl; [exact Hall|].
    intros x Hx. cbn in Hx. lia.
  - rewrite Hrow. unfold row_blocks. cbn. rewrite Hra. cbn.
    by rewrite app_assoc.
Qed.

End Tensors.

(** *** [forward] on a well-shaped model, batch and adjacency *)

Section Runs.

Context {R : Type} `{Scalar R}.

Variable self : GraphAutoencoder R.
Variable entities : Batch R.
Variable adjacencies : gmap string (list (list bool)).
Variable w : nat.

Hypothesis Hmodel : model_ok self w.
Hypothesis Hbatch : batch_ok self entities.
Hypothesis Hadj : adjacency_ok entities adjacencies.

Local Abbreviation N := (length (b_types entities)).

Lemma num_entities_N : num_entities entities = N.
Proof. unfold num_entities. by destruct Hbatch as (_ & -> & _). Qed.

(** The index dictionaries (ensemble.py:138-155). *)

Lemma field_mask_total f (col : tensor R) :
  nrows col = N → ∃ mask, field_mask f col = Ok mask ∧ length mask = N.
Proof.
  intros Hn. destruct Hbatch as (Hpos & _). unfold field_mask.
  destruct (is_sequential f).
  - destruct (t_cols col =? 0); eexists; (split; [done|]).
    + by rewrite length_replicate.
    + by rewrite length_fmap.
  - destruct (nrows col =? 0) eqn:E; [apply Nat.eqb_eq in E; lia|].
    eexists. split; [done|]. by rewrite length_fmap.
Qed.

Lemma index_field_total ix f :
  f ∈ s_data_fields (schema self) →
  ∃ ix', index_field entities ix f = Ok ix'.
Proof.
  intros Hf. destruct Hbatch as (_ & _ & Hcols).
  destruct (Hcols _ Hf) as (col & Hcol & Hn).
  destruct (field_mask_total f col Hn) as (mask & Hmask & Hlen).
  unfold index_field. apply getitem_Ok in Hcol. rewrite Hcol. cbn.
  rewrite Hmask. cbn.
  assert (masked_select (index_space entities) mask
          = Ok (select_by (index_space entities) mask)) as ->.
  { apply masked_select_Ok. by rewrite length_index_space. }
  cbn. by eexists.
Qed.

Lemma index_entity_total fm fi ix et :
  et ∈ s_entity_types (schema self) →
  (∀ f, f ∈ s_data_fields (schema self) →
        ∃ mask, fm !! f_name f = Some mask ∧ length mask = N) →
  entities_inv entities fm fi ix →
  ∃ ix', index_entity entities ix et = Ok ix'.
Proof.
  intros Het Hfm (Hm & Hrest). unfold index_entity.
  assert (masked_select (index_space entities)
            (entity_mask entities (et_name et))
          = Ok (select_by (index_space entities)
                  (entity_mask entities (et_name et)))) as ->.
  { apply masked_select_Ok.
    by rewrite length_index_space, length_entity_mask. }
  cbn.
  destruct Hmodel as (_ & _ & Hets). destruct (Hets _ Het) as (Hfields & _).
  match goal with |- ∃ ix', foldlM ?f ?ix0 ?l = Ok ix' =>
    destruct (foldlM_total_inv (fun ix => field_masks ix = fm) f ix0 l)
      as (ix' & Hix' & _); [done| |by exists ix']
  end.
  intros fn ix1 Hfn Hfm1.
  apply Hfields, list_elem_of_fmap in Hfn as (f & -> & Hf).
  destruct (Hfm _ Hf) as (mask & Hmask & Hlen).
  unfold index_entity_field. rewrite Hfm1.
  apply getitem_Ok in Hmask. rewrite Hmask. cbn.
  assert (mask_and (entity_mask entities (et_name et)) mask
          = Ok (zip_with andb (entity_mask entities (et_name et)) mask))
    as ->.
  { apply mask_and_Ok. by rewrite length_entity_mask. }
  cbn.
  assert (masked_select (index_space entities)
            (zip_with andb (entity_mask entities (et_name et)) mask)
          = Ok (select_by (index_space entities)
                  (zip_with andb (entity_mask entities (et_name et)) mask)))
    as ->.
  { apply masked_select_Ok.
    rewrite length_index_space, length_zip_with, length_entity_mask.
    split; [lia | done]. }
  cbn. eexists. split; [done|]. done.
Qed.

Lemma assemble_indices_total :
  ∃ ix, assemble_indices self entities = Ok ix.
Proof.
  unfold assemble_indices.
  destruct (foldlM_total_inv (fun _ => True) (index_field entities)
              no_indices (s_data_fields (schema self)))
    as (ix0 & Hix0 & _); [done| |].
  { intros f ix Hf _. destruct (index_field_total ix f Hf) as [ix' ->].
    by exists ix'. }
  rewrite Hix0. cbn.
  pose proof (index_fields_inv entities _ _ Hix0) as (He & Hef & Hdom & Hm).
  destruct (foldlM_total_inv
              (entities_inv entities (field_masks ix0) (field_indices ix0))
              (index_entity entities) ix0 (s_entity_types (schema self)))
    as (ix & Hix & _); [| |by exists ix].
  { split; [done|]. split; [done|]. rewrite He, Hef.
    split; intros *; by rewrite lookup_empty. }
  intros et ix1 Het Hinv.
  destruct (index_entity_total (field_masks ix0) (field_indices ix0) ix1 et)
    as [ix' Hix']; [done| |done|].
  { intros f Hf. destruct (Hdom _ Hf) as [mask Hmask]. exists mask.
    split; [done|]. by destruct (Hm _ _ Hmask) as (? & _). }
  exists ix'. split; [done|].
  by destruct (index_entity_Ok entities _ _ _ _ _ Hinv Hix').
Qed.

Section WithIndices.

Variable ix : Indices.
Hypothesis Hix : assemble_indices self entities = Ok ix.

Lemma select_by_index_space_lt mask :
  Forall (fun i => i < N) (select_by (index_space entities) mask).
Proof.
  apply Forall_forall. intros i (j & Hj & _)%elem_of_select_by.
  apply lookup_seq in Hj. lia.
Qed.

Lemma entity_indices_lt n eidx :
  entity_indices ix !! n = Some eidx → Forall (fun i => i < N) eidx.
Proof.
  intros He.
  destruct (assemble_indices_Ok _ _ _ Hix) as (_ & (_ & _ & Hent & _) & _).
  rewrite (Hent _ _ He). apply select_by_index_space_lt.
Qed.

Lemma entity_indices_total et :
  et ∈ s_entity_types (schema self) →
  ∃ eidx, entity_indices ix !! et_name et = Some eidx ∧
          Forall (fun i => i < N) eidx.
Proof.
  intros Het. destruct (assemble_indices_Ok _ _ _ Hix) as (_ & _ & Hdom).
  destruct (Hdom _ Het) as [[eidx He] _]. exists eidx. split; [done|].
  by eapply entity_indices_lt.
Qed.

Lemma field_indices_total f :
  f ∈ s_data_fields (schema self) →
  ∃ idx, field_indices ix !! f_name f = Some idx ∧
         Forall (fun i => i < N) idx.
Proof.
  intros Hf.
  destruct (assemble_indices_Ok _ _ _ Hix) as ((_ & _ & Hall & Hm) & _).
  cbn in Hall, Hm. destruct (Hall _ Hf) as [mask Hmask].
  destruct (Hm _ _ Hmask) as (_ & Hfi & _). eexists. split; [done|].
  apply select_by_index_space_lt.
Qed.

(** Field encoding (ensemble.py:158-166). *)

Lemma encode_field_total acc f :
  f ∈ s_data_fields (schema self) →
  ∃ acc', encode_field self entities ix acc f = Ok acc'.
Proof.
  intros Hf. destruct Hmodel as (_ & Hfields & _).
  destruct (Hfields _ Hf) as ((enc & Henc & Hok) & _).
  destruct (field_indices_total f Hf) as (idx & Hidx & Hlt).
  destruct Hbatch as (_ & Hids & Hcols).
  destruct (Hcols _ Hf) as (col & Hcol & Hn).
  unfold encode_field. apply getitem_Ok in Henc, Hidx, Hcol.
  rewrite Henc, Ok_bind, Hidx, Ok_bind.
  destruct (0 <? length idx); [|by eexists].
  rewrite Hcol, Ok_bind.
  destruct (index_select_total col idx) as (vals & -> & _ & Hnv & _).
  { by rewrite Hn. }
  rewrite Ok_bind. destruct (Hok vals) as (encoded & -> & Hce & Hne).
  rewrite Ok_bind.
  destruct (index_put_total
              (zeros (num_entities entities) (fe_output_size enc))
              idx encoded) as (t & -> & _); [done | congruence | |].
  { by rewrite nrows_zeros, num_entities_N. }
  rewrite Ok_bind. by eexists.
Qed.

Lemma encode_fields_total :
  ∃ acc, encode_fields self entities ix = Ok acc.
Proof.
  unfold encode_fields.
  destruct (foldlM_total_inv (fun _ => True) (encode_field self entities ix)
              (∅, []) (s_data_fields (schema self)))
    as (acc & Hacc & _); [done| |by exists acc].
  intros f acc Hf _. destruct (encode_field_total acc f Hf) as [acc' ->].
  by exists acc'.
Qed.

(** The zero-depth inputs (ensemble.py:169-178). *)

Lemma autoencoder_input_total (encs : gmap string (tensor R)) log et :
  encode_fields self entities ix = Ok (encs, log) →
  et ∈ s_entity_types (schema self) →
  ∃ t eidx,
    autoencoder_input ix encs et = Ok t ∧
    entity_indices ix !! et_name et = Some eidx ∧
    nrows t = length eidx ∧
    t_cols t
    = 8 + sum_list_with
            (fun fn => default 0 (fe_output_size
                                    <$> field_encoders self !! fn))
            (data_fields et).
Proof.
  intros Henc Het.
  destruct (encode_fields_Ok _ _ _ _ _ Henc) as (Hdom & Hok & _).
  destruct (entity_indices_total et Het) as (eidx & He & Hlt).
  destruct Hmodel as (_ & _ & Hets). destruct (Hets _ Het) as (Hfields & _).
  assert (∃ t, autoencoder_input ix encs et = Ok t ∧ nrows t = length eidx)
    as (t & Ht & Hn).
  { unfold autoencoder_input. apply getitem_Ok in He. rewrite He. cbn.
    match goal with |- ∃ t, mapM ?f ?l ≫= _ = _ ∧ _ =>
      destruct (mapM_total (fun _ t => nrows t = length eidx) f l)
        as (fields & -> & Hall)
    end.
    { intros fn Hfn.
      apply Hfields, list_elem_of_fmap in Hfn as (f & -> & Hf).
      destruct (Hdom _ Hf) as [enc Hencf].
      destruct (Hok _ _ Hencf) as (_ & _ & _ & _ & _ & Hrows & _).
      apply getitem_Ok in Hencf. rewrite Hencf. cbn.
      destruct (index_select_total enc eidx) as (sel & -> & _ & Hns & _).
      { by rewrite Hrows, num_entities_N. }
      by exists sel. }
    rewrite Ok_bind.
    destruct (cat1_total (zeros (length eidx) 8)
                (fields ++ [zeros (length eidx) 0]))
      as (t & Ht & Hnt & _).
    { rewrite nrows_zeros. apply Forall_app. split.
      - clear -Hall. induction Hall; by constructor.
      - constructor; [apply nrows_zeros | constructor]. }
    exists t. split; [exact Ht|]. by rewrite Hnt, nrows_zeros. }
  exists t, eidx. split; [done|]. split; [done|]. split; [done|].
  apply autoencoder_input_cols in Ht as [Hd ->]. f_equal.
  apply sum_list_with_ext_in. intros fn Hfn.
  destruct (Hd _ Hfn) as [e Hfe]. rewrite Hfe. cbn.
  destruct (Hok _ _ Hfe) as (enc & idx & Hfenc & _ & Hc & _).
  by rewrite Hfenc.
Qed.

Lemma assemble_inputs_total (encs : gmap string (tensor R)) log :
  encode_fields self entities ix = Ok (encs, log) →
  ∃ inputs,
    assemble_inputs self ix encs = Ok inputs ∧
    ∀ et, et ∈ s_entity_types (schema self) →
      ∃ t et' eidx,
        inputs !! et_name et = Some t ∧
        et' ∈ s_entity_types (schema self) ∧ et_name et' = et_name et ∧
        entity_indices ix !! et_name et = Some eidx ∧
        nrows t = length eidx ∧
        t_cols t
        = 8 + sum_list_with
                (fun fn => default 0 (fe_output_size
                                        <$> field_encoders self !! fn))
                (data_fields et').
Proof.
  intros Henc. unfold assemble_inputs.
  match goal with |- ∃ inputs, foldlM ?f ?b ?l = _ ∧ _ =>
    destruct (foldlM_total (fun pre (inputs : gmap string (tensor R)) =>
                ∀ et, et ∈ pre →
                  ∃ t et' eidx,
                    inputs !! et_name et = Some t ∧
                    et' ∈ s_entity_types (schema self) ∧
                    et_name et' = et_name et ∧
                    entity_indices ix !! et_name et = Some eidx ∧
                    nrows t = length eidx ∧
                    t_cols t
                    = 8 + sum_list_with
                            (fun fn => default 0
                               (fe_output_size
                                  <$> field_encoders self !! fn))
                            (data_fields et')) f b l)
      as (inputs & Hin & HP)
  end.
  - by intros et ?%elem_of_nil.
  - intros pre x inputs Hx HP.
    destruct (autoencoder_input_total encs log x Henc Hx)
      as (t & eidx & -> & He & Hn & Hc).
    rewrite Ok_bind. eexists. split; [done|].
    intros et [Het| ->%list_elem_of_singleton]%elem_of_app.
    + destruct (decide (et_name et = et_name x)) as [Heq|Hne].
      * exists t, x, eidx. rewrite Heq, lookup_insert_eq. done.
      * destruct (HP _ Het) as (t' & et' & eidx' & ? & ? & ? & ? & ? & ?).
        exists t', et', eidx'. by rewrite lookup_insert_ne.
    + exists t, x, eidx. by rewrite lookup_insert_eq.
  - by exists inputs.
Qed.

(** The zero-depth autoencoders (ensemble.py:184-194). *)

Lemma stack_of et :
  et ∈ s_entity_types (schema self) →
  ∃ aes ae0,
    entity_autoencoders self !! et_name et = Some aes ∧
    aes !! 0 = Some ae0 ∧
    Forall (autoencoder_ok w (ae_output_size ae0)) aes ∧
    ae_output_size ae0
    ≤ 8 + sum_list_with
            (fun fn => default 0 (fe_output_size
                                    <$> field_encoders self !! fn))
            (data_fields et).
Proof.
  intros Het. destruct Hmodel as (_ & _ & Hets).
  by destruct (Hets _ Het) as (_ & ? & _).
Qed.

Lemma depth0_entity_total (inputs : gmap string (tensor R)) st et :
  et ∈ s_entity_types (schema self) →
  (∀ et, et ∈ s_entity_types (schema self) →
     ∃ t et' eidx,
       inputs !! et_name et = Some t ∧
       et' ∈ s_entity_types (schema self) ∧ et_name et' = et_name et ∧
       entity_indices ix !! et_name et = Some eidx ∧
       nrows t = length eidx ∧
       t_cols t
       = 8 + sum_list_with
               (fun fn => default 0 (fe_output_size
                                       <$> field_encoders self !! fn))
               (data_fields et')) →
  autoencoder_inputs st = inputs →
  state_ok self entities ix w st →
  ∃ st',
    depth0_entity self ix st et = Ok st' ∧
    autoencoder_inputs st' = inputs ∧
    state_ok self entities ix w st' ∧
    is_ok (dict_get (autoencoder_outputs st') (et_name et)) = true ∧
    ∀ n, is_ok (dict_get (autoencoder_outputs st) n) = true →
         is_ok (dict_get (autoencoder_outputs st') n) = true.
Proof.
  intros Het Hinputs Hst (Hc & Hn & Hwf & Houts).
  destruct (Hinputs _ Het) as (t & et' & eidx & Ht & Het' & Hname & He
                               & Hnt & Hct).
  destruct (stack_of et' Het') as (aes & ae0 & Haes & Hae0 & Hall & Hle).
  rewrite Hname in Haes.
  assert (autoencoder_ok w (ae_output_size ae0) ae0) as Hok.
  { rewrite Forall_forall in Hall. apply Hall.
    by eapply list_elem_of_lookup_2. }
  destruct (Hok t) as (o & b & Hap & Hno & Hco & Hcb & Hnb & Hwb); [lia|].
  pose proof (entity_indices_lt _ _ He) as Hlt.
  destruct (index_put_total (bottlenecks st) eidx b)
    as (bn' & Hput & Hc' & Hn' & Hwf'); [congruence | congruence | |].
  { by rewrite Hn. }
  unfold depth0_entity.
  apply getitem_Ok in Haes as Haes'. rewrite Haes', Ok_bind.
  unfold list_item. rewrite Hae0, Ok_bind, Hst.
  apply getitem_Ok in Ht as Ht'. rewrite Ht', Ok_bind, Hap, Ok_bind.
  apply getitem_Ok in He as He'. rewrite He', Ok_bind, Hput, Ok_bind.
  eexists. split; [done|]. cbn. split; [done|]. split.
  - unfold state_ok. cbn.
    split; [congruence|]. split; [congruence|]. split; [by apply Hwf'|].
    apply dict_set_Forall; [done|].
    exists et, eidx, aes, ae0. cbn. split; [done|]. split; [done|].
    split; [done|]. split; [congruence|]. done.
  - split; [by rewrite dict_get_set_eq|].
    intros n. apply dict_get_set_is_ok.
Qed.

Lemma zero_state_ok inputs :
  state_ok self entities ix w
    {| autoencoder_inputs := inputs; autoencoder_outputs := [];
       bottlenecks := zeros (num_entities entities) w |}.
Proof.
  unfold state_ok. cbn [bottlenecks autoencoder_outputs].
  split; [done|]. split; [by rewrite nrows_zeros, num_entities_N|].
  split; [apply zeros_wf | constructor].
Qed.

Lemma depth0_total :
  ∃ st,
    depth0 self entities = Ok (ix, st) ∧
    state_ok self entities ix w st ∧
    ∀ et, et ∈ s_entity_types (schema self) →
          is_ok (dict_get (autoencoder_outputs st) (et_name et)) = true.
Proof.
  unfold depth0. rewrite Hix, Ok_bind.
  destruct encode_fields_total as [[encs log] Henc]. rewrite Henc, Ok_bind.
  destruct (assemble_inputs_total encs log Henc) as (inputs & Hin & Hinputs).
  cbn [fst]. rewrite Hin, Ok_bind.
  destruct Hmodel as (Hw & _). unfold bottleneck_width. rewrite Hw, Ok_bind.
  match goal with |- ∃ st, foldlM ?f ?b ?l ≫= _ = _ ∧ _ =>
    destruct (foldlM_total (fun pre st =>
                autoencoder_inputs st = inputs ∧
                state_ok self entities ix w st ∧
                ∀ et, et ∈ pre →
                  is_ok (dict_get (autoencoder_outputs st) (et_name et))
                  = true) f b l)
      as (st & Hst & _ & Hok & Hdone)
  end.
  - split; [done|]. split; [apply zero_state_ok|].
    by intros et ?%elem_of_nil.
  - intros pre et st Het (Hi & Hs & Hd).
    destruct (depth0_entity_total inputs st et Het Hinputs Hi Hs)
      as (st' & -> & Hi' & Hs' & Hnew & Hold).
    exists st'. split; [done|]. split; [done|]. split; [done|].
    intros et' [Hpre| ->%list_elem_of_singleton]%elem_of_app; [|done].
    by apply Hold, Hd.
  - rewrite Hst, Ok_bind. by exists st.
Qed.

(** The deeper autoencoders (ensemble.py:197-239), reading the
    bottlenecks [prev]. *)

Section Propagate.

Variable prev : tensor R.
Hypothesis Hprev : t_cols prev = w ∧ nrows prev = N ∧ tensor_wf prev.

Lemma relation_row_total summarize rel reps i index :
  summarizer_ok w summarize → t_cols reps = w → i < nrows reps →
  index < N →
  ∃ reps',
    relation_row entities adjacencies summarize prev rel reps (i, index)
    = Ok reps' ∧
    t_cols reps' = w ∧ nrows reps' = nrows reps.
Proof.
  intros Hs Hc Hi Hindex. destruct Hprev as (Hpc & Hpn & Hpw).
  unfold relation_row.
  destruct (adjacencies !! rel) as [m|] eqn:E; [|by exists reps].
  destruct (Hadj rel m index E Hindex) as (row & Hrow & Hlen).
  unfold related_indices, list_item. cbn [fst snd].
  rewrite Hrow, Ok_bind.
  assert (masked_select (index_space entities) row
          = Ok (select_by (index_space entities) row)) as ->.
  { apply masked_select_Ok. by rewrite length_index_space. }
  rewrite Ok_bind.
  destruct (0 <? length (select_by (index_space entities) row));
    [|by exists reps].
  destruct (index_select_total prev (select_by (index_space entities) row))
    as (obns & -> & Hoc & _ & Hwf).
  { rewrite Hpn. apply select_by_index_space_lt. }
  rewrite Ok_bind.
  destruct (Hs obns) as (v & -> & Hv); [by apply Hwf | congruence |].
  rewrite Ok_bind. unfold set_row. rewrite Hv, Hc, Nat.eqb_refl.
  assert ((i <? nrows reps) = true) as -> by (by apply Nat.ltb_lt).
  cbn [negb]. eexists. split; [done|]. split; [done|].
  unfold nrows. cbn. by rewrite length_insert.
Qed.

Lemma relation_reps_total summarizers et rel s eidx :
  summarizers !! rel = Some s → summarizer_ok w s →
  entity_indices ix !! et_name et = Some eidx →
  ∃ t,
    relation_reps self entities adjacencies summarizers ix prev et rel
    = Ok t ∧
    t_cols t = w ∧ nrows t = length eidx.
Proof.
  intros Hs Hok He. pose proof (entity_indices_lt _ _ He) as Hlt.
  destruct Hmodel as (Hw & _).
  unfold relation_reps, bottleneck_width. apply getitem_Ok in Hs, He.
  rewrite Hs, Ok_bind, He, Ok_bind, Hw, Ok_bind.
  apply (foldlM_total_inv (fun t => t_cols t = w ∧ nrows t = length eidx)).
  - split; [done | apply nrows_zeros].
  - intros [i index] reps Hin [Hc Hn].
    destruct (relation_row_total s rel reps i index)
      as (reps' & -> & Hc' & Hn'); [done | done | | |].
    + apply elem_of_zip_l, elem_of_seq in Hin. lia.
    + apply elem_of_zip_r in Hin. rewrite Forall_forall in Hlt.
      by apply Hlt.
    + exists reps'. split; [done|]. split; [done | congruence].
Qed.

Lemma Forall2_Forall_const {A B} (Q : B → Prop) (l : list A) (r : list B) :
  Forall2 (fun _ y => Q y) l r → Forall Q r.
Proof. induction 1; by constructor. Qed.

Lemma other_reps_total et eidx :
  et ∈ s_entity_types (schema self) → 0 < depth self →
  entity_indices ix !! et_name et = Some eidx →
  ∃ reps,
    other_reps self entities adjacencies ix prev et = Ok reps ∧
    Forall (fun t => nrows t = length eidx) reps.
Proof.
  intros Het Hd He. destruct Hmodel as (_ & _ & Hets).
  destruct (Hets _ Het) as (_ & _ & _ & Hsum).
  destruct (Hsum Hd) as [Hout Hin]. unfold other_reps.
  match goal with |- ∃ reps, mapM ?f ?l ≫= _ = _ ∧ _ =>
    destruct (mapM_total (fun _ t => nrows t = length eidx) f l)
      as (outgoing & -> & Ho%Forall2_Forall_const)
  end.
  { intros rel Hrel. destruct (Hout _ Hrel) as (s & Hs & Hok).
    destruct (relation_reps_total _ et rel s eidx Hs Hok He)
      as (t & -> & _ & Hn). by exists t. }
  rewrite Ok_bind. destruct (reverse_relations self).
  - match goal with |- ∃ reps, mapM ?f ?l ≫= _ = _ ∧ _ =>
      destruct (mapM_total (fun _ t => nrows t = length eidx) f l)
        as (incoming & -> & Hi%Forall2_Forall_const)
    end.
    { intros rel Hrel. destruct (Hin eq_refl _ Hrel) as (s & Hs & Hok).
      destruct (relation_reps_total _ et rel s eidx Hs Hok He)
        as (t & -> & _ & Hn). by exists t. }
    rewrite Ok_bind. eexists. split; [done|]. by apply Forall_app.
  - rewrite Ok_bind. eexists. split; [done|]. by rewrite app_nil_r.
Qed.

Lemma deeper_input_total st et :
  et ∈ s_entity_types (schema self) → 0 < depth self →
  state_ok self entities ix w st →
  is_ok (dict_get (autoencoder_outputs st) (et_name et)) = true →
  ∃ output input eidx aes ae0,
    deeper_input self entities adjacencies ix prev st et
    = Ok (output, input) ∧
    entity_indices ix !! et_name et = Some eidx ∧
    entity_autoencoders self !! et_name et = Some aes ∧
    aes !! 0 = Some ae0 ∧
    Forall (autoencoder_ok w (ae_output_size ae0)) aes ∧
    nrows input = length eidx ∧ ae_output_size ae0 ≤ t_cols input.
Proof.
  intros Het Hd (_ & _ & _ & Houts) Hget.
  destruct (dict_get (autoencoder_outputs st) (et_name et)) as [o|] eqn:Eo;
    [|done].
  destruct (dict_get_Forall _ _ _ _ Houts Eo)
    as (et0 & eidx & aes & ae0 & Het0 & Hname & He & Hno & Haes & Hae0 & Hle).
  cbn in Hname, He, Hno, Haes, Hle.
  destruct (stack_of et0 Het0) as (aes' & ae0' & Haes' & Hae0' & Hall & _).
  rewrite Hname, Haes in Haes'. injection Haes' as <-.
  rewrite Hae0 in Hae0'. injection Hae0' as <-.
  destruct (other_reps_total et eidx Het Hd He) as (reps & Hreps & Hrows).
  unfold deeper_input. rewrite Eo, Ok_bind.
  apply getitem_Ok in Haes as Haes'. rewrite Haes', Ok_bind.
  unfold list_item. rewrite Hae0, Ok_bind. unfold narrow1.
  assert ((ae_output_size ae0 <=? t_cols o) = true) as ->
    by (by apply Nat.leb_le).
  rewrite Ok_bind, Hreps, Ok_bind.
  set (output := {| t_cols := ae_output_size ae0;
                    t_rows := take (ae_output_size ae0) <$> t_rows o |}).
  assert (nrows output = length eidx) as Hnout.
  { unfold nrows, output in *. cbn. by rewrite length_fmap. }
  assert (∃ others,
            (if 0 <? length reps then cat1 reps
             else Ok (zeros (nrows output) 0)) = Ok others ∧
            nrows others = nrows output) as (others & -> & Hnoth).
  { destruct reps as [|r0 rs]; cbn [length Nat.ltb Nat.leb].
    - eexists. split; [done|]. apply nrows_zeros.
    - apply Forall_cons in Hrows as [Hr0 Hrs].
      destruct (cat1_total r0 rs) as (others & Hoth & Hno' & _).
      { eapply Forall_impl; [exact Hrs|]. intros x Hx. cbn in Hx. congruence. }
      exists others. split; [exact Hoth | congruence]. }
  rewrite Ok_bind.
  destruct (cat1_total output [others]) as (input & -> & Hni & Hci).
  { constructor; [done | constructor]. }
  rewrite Ok_bind. exists output, input, eidx, aes, ae0.
  split; [done|]. split; [done|]. split; [done|]. split; [done|].
  split; [done|]. split; [congruence|]. rewrite Hci. cbn. lia.
Qed.

Lemma stack_pick (aes : list (Autoencoder R)) (ae0 : Autoencoder R) d :
  aes !! 0 = Some ae0 →
  ∃ ae, (if length aes - 1 <? d then list_last aes else list_item aes d)
        = Ok ae ∧ ae ∈ aes.
Proof.
  intros H0. destruct (length aes - 1 <? d) eqn:E.
  - unfold list_last. destruct (last aes) as [ae|] eqn:El.
    + exists ae. split; [done|].
      apply last_Some in El as [l' ->]. apply elem_of_app. right. by left.
    + apply last_None in El. by subst.
  - apply Nat.ltb_ge in E. apply lookup_lt_Some in H0.
    destruct (lookup_lt_is_Some_2 aes d) as [ae Hae]; [lia|].
    exists ae. unfold list_item. rewrite Hae. split; [done|].
    by eapply list_elem_of_lookup_2.
Qed.

Lemma propagate_entity_total d st et :
  et ∈ s_entity_types (schema self) → 0 < depth self →
  state_ok self entities ix w st →
  (∀ et, et ∈ s_entity_types (schema self) →
         is_ok (dict_get (autoencoder_outputs st) (et_name et)) = true) →
  ∃ st',
    propagate_entity self entities adjacencies ix prev d st et = Ok st' ∧
    state_ok self entities ix w st' ∧
    ∀ et, et ∈ s_entity_types (schema self) →
          is_ok (dict_get (autoencoder_outputs st') (et_name et)) = true.
Proof.
  intros Het Hd Hst Houts.
  destruct (deeper_input_total st et Het Hd Hst (Houts _ Het))
    as (output & input & eidx & aes & ae0 & Hdi & He & Haes & Hae0 & Hall
        & Hni & Hci).
  destruct Hst as (Hc & Hn & Hwf & Hall_out).
  destruct (stack_pick aes ae0 d Hae0) as (ae & Hpick & Hin).
  rewrite Forall_forall in Hall.
  destruct (Hall _ Hin input Hci)
    as (o & b & Hap & Hno & Hco & Hcb & Hnb & Hwb).
  pose proof (entity_indices_lt _ _ He) as Hlt.
  destruct (index_put_total (bottlenecks st) eidx b)
    as (bn' & Hput & Hc' & Hn' & Hwf'); [congruence | congruence | |].
  { by rewrite Hn. }
  unfold propagate_entity. rewrite Hdi, Ok_bind. cbv beta iota.
  apply getitem_Ok in Haes as Haes'. rewrite Haes', Ok_bind, Hpick, Ok_bind.
  rewrite Hap, Ok_bind. cbv beta iota.
  apply getitem_Ok in He as He'.
  assert (∃ bn'',
            (if negb (t_cols o =? 0)
             then eidx ← getitem (entity_indices ix) (et_name et);
                  index_put (bottlenecks st) eidx b
             else Ok (bottlenecks st)) = Ok bn'' ∧
            t_cols bn'' = w ∧ nrows bn'' = N ∧ tensor_wf bn'')
    as (bn'' & -> & Hc'' & Hn'' & Hwf'').
  { destruct (negb (t_cols o =? 0)).
    - rewrite He', Ok_bind, Hput. exists bn'. split; [done|].
      split; [congruence|]. split; [congruence | by apply Hwf'].
    - by exists (bottlenecks st). }
  rewrite Ok_bind. eexists. split; [done|]. split.
  - unfold state_ok. cbn. split; [done|]. split; [done|]. split; [done|].
    apply dict_set_Forall; [done|].
    exists et, eidx, aes, ae0. cbn. split; [done|]. split; [done|].
    split; [done|]. split; [congruence|]. done.
  - intros et' Het'. cbn. by apply dict_get_set_is_ok, Houts.
Qed.

Lemma propagate_loop_total st :
  state_ok self entities ix w st →
  (∀ et, et ∈ s_entity_types (schema self) →
         is_ok (dict_get (autoencoder_outputs st) (et_name et)) = true) →
  ∃ st',
    foldlM (propagate_depth self entities adjacencies ix prev) st
           (seq 1 (depth self)) = Ok st' ∧
    state_ok self entities ix w st'.
Proof.
  intros Hst Houts.
  destruct (foldlM_total_inv (fun st =>
              state_ok self entities ix w st ∧
              ∀ et, et ∈ s_entity_types (schema self) →
                is_ok (dict_get (autoencoder_outputs st) (et_name et))
                = true)
              (propagate_depth self entities adjacencies ix prev) st
              (seq 1 (depth self)))
    as (st' & Hst' & Hs' & _); [done| |by exists st'].
  intros d st1 Hd%elem_of_seq [Hs1 Ho1]. unfold propagate_depth.
  apply (foldlM_total_inv (fun st =>
           state_ok self entities ix w st ∧
           ∀ et, et ∈ s_entity_types (schema self) →
             is_ok (dict_get (autoencoder_outputs st) (et_name et)) = true));
    [done|].
  intros et st2 Het [Hs2 Ho2].
  destruct (propagate_entity_total d st2 et) as (st3 & -> & Hs3 & Ho3);
    [done | lia | done | done |].
  by exists st3.
Qed.

End Propagate.

(** Projection and decoding (ensemble.py:242-256). *)

Lemma finish_total st :
  state_ok self entities ix w st →
  ∃ out, finish self entities ix st = Ok out.
Proof.
  intros (_ & _ & _ & Houts). unfold finish, project.
  match goal with |- ∃ out, foldlM ?f ?b ?l ≫= _ = _ =>
    destruct (foldlM_total_inv
                (fun t => t_cols t = projected_size self ∧ nrows t = N)
                f b l) as (resized & -> & _)
  end.
  { split; [done|]. by rewrite nrows_zeros, num_entities_N. }
  { intros kv t Hkv [Hc Hn]. rewrite Forall_forall in Houts.
    destruct (Houts _ Hkv)
      as (et & eidx & _ & _ & Het & Hname & He & Hno & _).
    destruct Hmodel as (_ & _ & Hets).
    destruct (Hets _ Het) as (_ & _ & (p & Hp & Hpok) & _).
    rewrite Hname in Hp. apply getitem_Ok in He as He', Hp.
    rewrite He', Ok_bind, Hp, Ok_bind.
    destruct (Hpok kv.2) as (v & -> & Hcv & Hnv). rewrite Ok_bind.
    destruct (index_put_total t eidx v) as (t' & -> & Hc' & Hn' & _);
      [congruence | congruence | |].
    { rewrite Hn. by eapply entity_indices_lt. }
    exists t'. split; [done|]. split; congruence. }
  rewrite Ok_bind. unfold decode_fields.
  match goal with |- ∃ out, foldlM ?f ?b ?l ≫= _ = _ =>
    destruct (foldlM_total_inv (fun _ => True) f b l) as (recs & -> & _);
      [done| |]
  end.
  { intros f recs Hf _. destruct Hmodel as (_ & Hfields & _).
    destruct (Hfields _ Hf) as (_ & dec & Hdec & Hok).
    destruct (getitem (field_decoders self) (f_name f)) as [dec'|e] eqn:E.
    - apply getitem_Ok in E.
      injection (eq_trans (eq_sym E) Hdec) as ->. rewrite Ok_bind.
      specialize (Hok resized). destruct (dec resized) as [r|]; [|done].
      rewrite Ok_bind. by eexists.
    - assert (Raise e = Ok dec) as Hbad
        by exact (eq_trans (eq_sym E) (proj2 (getitem_Ok _ _ _) Hdec)).
      discriminate. }
  rewrite Ok_bind. by eexists.
Qed.

End WithIndices.

(** On a well-shaped model, batch and adjacency [forward] returns. *)
Lemma forward_total : is_ok (forward self entities adjacencies) = true.
Proof.
  destruct assemble_indices_total as [ix Hix].
  destruct (depth0_total ix Hix) as (st0 & Hd0 & Hst0 & Houts).
  unfold forward. rewrite Hd0, Ok_bind. cbv beta iota.
  unfold propagate.
  destruct (propagate_loop_total ix Hix (bottlenecks st0)) with (st := st0)
    as (st1 & Hst1 & Hs1); [|done|done|].
  { by destruct Hst0 as (? & ? & ? & _). }
  cbv zeta. rewrite Hst1, Ok_bind.
  destruct (finish_total ix Hix st1 Hs1) as [out ->]. done.
Qed.

End Runs.

(** *** The block of a relation without edges *)

Section Edgeless.

Context {R : Type} `{Scalar R}.

Variable self : GraphAutoencoder R.
Variable entities : Batch R.
Variable adjacencies : gmap string (list (list bool)).

Lemma relation_reps_edgeless summarizers ix prev et rel t :
  edgeless adjacencies rel →
  relation_reps self entities adjacencies summarizers ix prev et rel = Ok t →
  ∃ eidx w,
    entity_indices ix !! et_name et = Some eidx ∧
    bottleneck_size self = Some w ∧
    t = zeros (length eidx) w.
Proof.
  intros Hedge Hr. unfold relation_reps in Hr.
  inv_bind Hr as summarize Hs. inv_bind Hr as eidx He.
  inv_bind Hr as w Hw. apply getitem_Ok in He.
  unfold bottleneck_width in Hw.
  destruct (bottleneck_size self) as [w'|] eqn:Ew; [|done].
  injection Hw as ->. exists eidx, w. split; [done|]. split; [done|].
  revert Hr. apply (foldlM_inv (fun t => t = zeros (length eidx) w)); [done|].
  intros [i index] reps reps' _ -> Hrow. unfold relation_row in Hrow.
  destruct Hedge as [Hnone|(m & Hm & Hrows)].
  - rewrite Hnone in Hrow. by injection Hrow as <-.
  - rewrite Hm in Hrow. inv_bind Hrow as related Hrel.
    unfold related_indices in Hrel. inv_bind Hrel as row Hitem.
    unfold list_item in Hitem. cbn in Hitem.
    destruct (m !! index) as [row'|] eqn:Erow; [|done].
    injection Hitem as ->.
    apply masked_select_Ok in Hrel as [_ ->].
    rewrite select_by_all_false in Hrow; [by injection Hrow as <-|].
    intros j Hj. apply list_elem_of_lookup_2 in Hj.
    specialize (Hrows _ _ Erow). rewrite Forall_forall in Hrows.
    by apply Hrows in Hj.
Qed.

Lemma other_reps_lookup ix prev et reps :
  other_reps self entities adjacencies ix prev et = Ok reps →
  (∀ j rel, relation_fields et !! j = Some rel →
     ∃ t, reps !! j = Some t ∧
          relation_reps self entities adjacencies
            (relation_target_summarizers self) ix prev et rel = Ok t) ∧
  (reverse_relations self = true →
   ∀ j rel, reverse_relation_fields et !! j = Some rel →
     ∃ t, reps !! (length (relation_fields et) + j) = Some t ∧
          relation_reps self entities adjacencies
            (relation_source_summarizers self) ix prev et rel = Ok t).
Proof.
  unfold other_reps. intros Ho.
  inv_bind Ho as outgoing Hout. inv_bind Ho as incoming Hinc.
  injection Ho as <-. apply mapM_Ok in Hout.
  pose proof (Forall2_length _ _ _ Hout) as Hlen. split.
  - intros j rel Hj.
    destruct (Forall2_lookup_l _ _ _ _ _ Hout Hj) as (t & Ht & Hrel).
    exists t. split; [|done]. by apply lookup_app_l_Some.
  - intros Hrev j rel Hj. rewrite Hrev in Hinc. apply mapM_Ok in Hinc.
    destruct (Forall2_lookup_l _ _ _ _ _ Hinc Hj) as (t & Ht & Hrel).
    exists t. split; [|done].
    rewrite lookup_app_r by lia. rewrite Hlen.
    by replace (length outgoing + j - length outgoing) with j by lia.
Qed.

Lemma deeper_input_structure ix prev st et output input :
  deeper_input self entities adjacencies ix prev st et = Ok (output, input) →
  ∃ reps,
    other_reps self entities adjacencies ix prev et = Ok reps ∧
    t_cols input = t_cols output + sum_list_with t_cols reps ∧
    nrows input = nrows output ∧
    Forall (fun t => nrows t = nrows output) reps ∧
    ∀ i, i < nrows input →
         t_rows input !! i = Some (row_blocks (output :: reps) i).
Proof.
  unfold deeper_input. intros Hd.
  inv_bind Hd as output0 Hout0. inv_bind Hd as aes Haes.
  inv_bind Hd as ae0 Hae0. inv_bind Hd as output' Hnarrow.
  inv_bind Hd as reps Hreps. inv_bind Hd as others Hothers.
  inv_bind Hd as input' Hinput. injection Hd as -> ->.
  exists reps. split; [done|].
  pose proof (cat1_cols _ _ _ Hinput) as Hc. cbn in Hc.
  assert (nrows input = nrows output ∧ nrows others = nrows output ∧
          ∀ i, i < nrows input →
               t_rows input !! i
               = Some (default [] (t_rows output !! i)
                       ++ default [] (t_rows others !! i)))
    as (Hni & Hno & Hrow).
  { cbn in Hinput. inv_bind Hinput as a Ha. injection Hinput as ->.
    assert (nrows input = nrows output ∧ nrows others = nrows output)
      as [Hni Hno].
    { unfold hcat in Ha.
      destruct (nrows output =? nrows others) eqn:E; [|done].
      apply Nat.eqb_eq in E. injection Ha as <-. unfold nrows in *. cbn.
      rewrite length_zip_with. lia. }
    split; [done|]. split; [done|]. intros i Hi.
    by destruct (hcat_rows _ _ _ i Ha Hi) as (_ & _ & ->). }
  destruct reps as [|r0 rs]; cbn in Hothers.
  - injection Hothers as <-. cbn in Hc.
    split; [cbn; lia|]. split; [done|]. split; [constructor|].
    intros i Hi. rewrite (Hrow i Hi). unfold row_blocks. cbn.
    rewrite lookup_replicate_2 by (unfold nrows in *; lia). cbn.
    by rewrite app_nil_r.
  - pose proof (cat1_cols _ _ _ Hothers) as Hco.
    split; [cbn; lia|]. split; [done|].
    destruct (cat1_shape _ _ _ Hothers) as [Hn0 Hall].
    split.
    { constructor; [lia|]. eapply Forall_impl; [exact Hall|].
      intros x Hx. cbn in Hx. lia. }
    intros i Hi. rewrite (Hrow i Hi).
    destruct (cat1_rows r0 rs others i Hothers) as (_ & _ & ->); [lia|].
    done.
Qed.

Lemma stack_pick_elem (aes : list (Autoencoder R)) d ae :
  (if length aes - 1 <? d then list_last aes else list_item aes d) = Ok ae →
  ae ∈ aes.
Proof.
  destruct (length aes - 1 <? d).
  - unfold list_last. destruct (last aes) as [a|] eqn:El; [|done].
    intros [= <-]. apply last_Some in El as [l' ->].
    apply elem_of_app. right. by left.
  - unfold list_item. destruct (aes !! d) as [a|] eqn:El; [|done].
    intros [= <-]. by eapply list_elem_of_lookup_2.
Qed.

(** One turn of the loop over the entity types at a depth >= 1. *)
Lemma propagate_entity_blocks (w : nat) (rel : string) ix prev d st et st' :
  bottleneck_size self = Some w → edgeless adjacencies rel →
  propagate_entity self entities adjacencies ix prev d st et = Ok st' →
  ∃ output input reps,
    deeper_input self entities adjacencies ix prev st et
    = Ok (output, input) ∧
    autoencoder_inputs st'
    = <[et_name et := input]> (autoencoder_inputs st) ∧
    (∃ aes ae o bns,
       entity_autoencoders self !! et_name et = Some aes ∧ ae ∈ aes ∧
       ae_apply ae input = Ok (Some o, bns)) ∧
    other_reps self entities adjacencies ix prev et = Ok reps ∧
    zero_block_input self w rel et output input reps.
Proof.
  intros Hw Hedge Hstep. unfold propagate_entity in Hstep.
  inv_bind Hstep as di Hdi. destruct di as [output input].
  inv_bind Hstep as aes Haes. inv_bind Hstep as ae Hae.
  inv_bind Hstep as out Hout. destruct out as [entity_outputs bns].
  destruct entity_outputs as [o|]; [|done].
  inv_bind Hstep as bn Hbn. injection Hstep as <-.
  exists output, input.
  destruct (deeper_input_structure _ _ _ _ _ _ Hdi)
    as (reps & Hreps & Hcols & Hrows & Hall & Hblocks).
  destruct (other_reps_blocks _ _ _ _ _ _ _ Hreps) as [Hlen Hwidth].
  destruct (other_reps_lookup _ _ _ _ Hreps) as [Hout_rel Hin_rel].
  assert (∀ summarizers t,
            t ∈ reps →
            relation_reps self entities adjacencies summarizers ix prev et
              rel = Ok t →
            t = zeros (nrows input) w) as Hzero.
  { intros summarizers t Hin Hrel.
    destruct (relation_reps_edgeless _ _ _ _ _ _ Hedge Hrel)
      as (eidx & w' & _ & Hw' & ->).
    rewrite Hw in Hw'. injection Hw' as <-.
    rewrite Forall_forall in Hall. specialize (Hall _ Hin).
    rewrite nrows_zeros in Hall. by rewrite Hrows, Hall. }
  exists reps. split; [done|]. split; [done|]. split.
  { apply getitem_Ok in Haes. exists aes, ae, o, bns. split; [done|].
    split; [by eapply stack_pick_elem | done]. }
  split; [done|]. split; [done|]. split; [done|]. split.
  { rewrite Hcols, <- Hlen. f_equal. apply sum_list_with_const.
    eapply Forall_impl; [exact Hwidth|]. intros t Ht. cbn in Ht.
    congruence. }
  split; [done|]. split.
  - intros j Hj. destruct (Hout_rel _ _ Hj) as (t & Ht & Hrel).
    rewrite Ht. f_equal. eapply Hzero; [|exact Hrel].
    by eapply list_elem_of_lookup_2.
  - intros Hrev j Hj. destruct (Hin_rel Hrev _ _ Hj) as (t & Ht & Hrel).
    rewrite Ht. f_equal. eapply Hzero; [|exact Hrel].
    by eapply list_elem_of_lookup_2.
Qed.

(** The inputs left in place when the loop over the depths ends. *)
Lemma propagate_final_inputs (w : nat) (rel : string) ix st0 st et :
  bottleneck_size self = Some w → edgeless adjacencies rel →
  propagate self entities adjacencies ix st0 = Ok st →
  0 < depth self →
  NoDup (et_name <$> s_entity_types (schema self)) →
  et ∈ s_entity_types (schema self) →
  ∃ output input reps,
    autoencoder_inputs st !! et_name et = Some input ∧
    zero_block_input self w rel et output input reps.
Proof.
  intros Hw Hedge Hp Hd Hnd Het. unfold propagate in Hp. cbv zeta in Hp.
  destruct (depth self) as [|n]; [lia|].
  rewrite seq_S, foldlM_app in Hp. inv_bind Hp as mid Hmid.
  cbn in Hp. inv_bind Hp as st1 Hlast. injection Hp as ->.
  unfold propagate_depth in Hlast. revert et Het.
  revert Hlast.
  apply (foldlM_ind_prefix (fun pre st =>
    ∀ et, et ∈ pre →
      ∃ output input reps,
        autoencoder_inputs st !! et_name et = Some input ∧
        zero_block_input self w rel et output input reps)).
  { by intros et ?%elem_of_nil. }
  intros pre x post sta stb Hl Hpre Hstep.
  destruct (propagate_entity_blocks w rel _ _ _ _ _ _ Hw Hedge Hstep)
    as (output & input & reps & _ & Hin & _ & _ & Hz).
  intros et [Het| ->%list_elem_of_singleton]%elem_of_app.
  - destruct (Hpre _ Het) as (output' & input' & reps' & Hi' & Hz').
    exists output', input', reps'. split; [|done]. rewrite Hin.
    rewrite lookup_insert_ne; [done|]. intros Hk.
    rewrite Hl, fmap_app in Hnd. apply NoDup_app in Hnd as (_ & Hdisj & _).
    apply (Hdisj (et_name et)); [by apply list_elem_of_fmap_2|].
    rewrite fmap_cons, <- Hk. by left.
  - exists output, input, reps. split; [|done].
    by rewrite Hin, lookup_insert_eq.
Qed.

(** C6: on a model, a batch and an adjacency of fitting shapes, with a
    relation [rel] that the adjacency does not mention or whose matrix is
    all false, [forward] returns.  In every turn of its loop over the
    entity types at a depth >= 1 the input handed to the type's
    autoencoder, and stored as the type's autoencoder input, is the
    previous output followed by one block per relation of the type
    ([row_blocks]), [bottleneck_size] columns each, in which the block of
    [rel], at the position of [rel] among the outgoing relations and,
    with reverse relations, among the incoming ones, is the zero tensor
    with one row per row of the input and exactly [bottleneck_size]
    columns ([zero_block_input]); and when the loop over the depths has
    run at least once, these are the inputs it leaves for every entity
    type (names being distinct). *)
Theorem C6_edgeless_relation (w : nat) (rel : string) :
  model_ok self w → batch_ok self entities →
  adjacency_ok entities adjacencies →
  edgeless adjacencies rel →
  is_ok (forward self entities adjacencies) = true ∧
  (∀ ix prev d st et st',
     propagate_entity self entities adjacencies ix prev d st et = Ok st' →
     ∃ output input reps,
       deeper_input self entities adjacencies ix prev st et
       = Ok (output, input) ∧
       autoencoder_inputs st' !! et_name et = Some input ∧
       (∃ aes ae o bns,
          entity_autoencoders self !! et_name et = Some aes ∧ ae ∈ aes ∧
          ae_apply ae input = Ok (Some o, bns)) ∧
       other_reps self entities adjacencies ix prev et = Ok reps ∧
       zero_block_input self w rel et output input reps) ∧
  (∀ ix st0 st et,
     propagate self entities adjacencies ix st0 = Ok st →
     0 < depth self →
     NoDup (et_name <$> s_entity_types (schema self)) →
     et ∈ s_entity_types (schema self) →
     ∃ output input reps,
       autoencoder_inputs st !! et_name et = Some input ∧
       zero_block_input self w rel et output input reps).
Proof.
  intros Hmodel Hbatch Hadj Hedge.
  split; [by apply (forward_total self entities adjacencies w)|].
  destruct Hmodel as (Hw & _). split.
  - intros ix prev d st et st' Hstep.
    destruct (propagate_entity_blocks w rel _ _ _ _ _ _ Hw Hedge Hstep)
      as (output & input & reps & Hdi & Hin & Hae & Hreps & Hz).
    exists output, input, reps. split; [done|].
    split; [by rewrite Hin, lookup_insert_eq|]. done.
  - intros ix st0 st et. by apply propagate_final_inputs.
Qed.

End Edgeless.

End EnsembleRuns.

(** ** The scenario without edges *)

Module ScenarioRuns.

Import Ensemble Scenario EnsembleFacts EnsembleCoverage EnsembleRuns.
Import ScenarioCoverage.

Local Abbreviation g1 := (model (config 1 (Some [1]) true 8)).

(** The components of the scenario keep to their shapes. *)

Lemma encoder_contract f : encoder_ok (encoder f).
Proof.
  intros t. exists (sum_rows t). split; [done|]. split; [done|].
  unfold nrows, sum_rows. cbn. by rewrite length_fmap.
Qed.

Lemma autoencoder_contract name k a b rest c0 :
  autoencoder_ok 1 c0 (autoencoder name k (a :: b :: rest)).
Proof.
  intros input Hc. eexists input, _. cbn. split; [done|].
  split; [done|]. split; [done|]. split; [done|]. split.
  - unfold nrows. cbn. by rewrite length_fmap.
  - unfold tensor_wf. cbn. apply Forall_fmap, Forall_true. done.
Qed.

Lemma column_sums_length w (t : tensor num) :
  tensor_wf t → t_cols t = w → length (column_sums w t) = w.
Proof.
  unfold tensor_wf, column_sums. intros Hwf <-.
  assert (length (replicate (t_cols t) (Num 0)) = t_cols t) as Hacc
    by apply length_replicate.
  revert Hacc. generalize (replicate (t_cols t) (Num 0)).
  induction Hwf as [|r rows Hr _ IH]; intros acc Hacc; [done|].
  cbn. apply IH. rewrite length_zip_with. lia.
Qed.

Lemma summarizer_contract sd name w :
  summarizer_ok w (summarizer sd name (Some w)).
Proof.
  intros t Hwf Hc. unfold summarizer. cbn.
  destruct sd; eexists; (split; [done|]);
    rewrite ?length_fmap; by apply column_sums_length.
Qed.

Lemma projector_contract name b psize :
  projector_ok psize (projector name b psize).
Proof.
  intros t. eexists. split; [done|]. split; [done|].
  unfold nrows. cbn. by rewrite length_fmap.
Qed.

Lemma model_ok_g1 : model_ok g1 1.
Proof.
  split; [by vm_compute|]. split.
  - intros f. rewrite schema_g1.
    intros [->|[->|?%elem_of_nil]%elem_of_cons]%elem_of_cons; [| |done].
    + split.
      * exists (encoder {| f_name := "age"; f_class := NumericFieldC;
                           type_name := "numeric" |}).
        split; [by vm_compute | apply encoder_contract].
      * exists (decoder {| f_name := "age"; f_class := NumericFieldC;
                           type_name := "numeric" |} 9).
        split; [by vm_compute | done].
    + split.
      * exists (encoder {| f_name := "title"; f_class := SequentialFieldC;
                           type_name := "sequential" |}).
        split; [by vm_compute | apply encoder_contract].
      * exists (decoder {| f_name := "title"; f_class := SequentialFieldC;
                           type_name := "sequential" |} 9).
        split; [by vm_compute | done].
  - intros et. rewrite schema_g1.
    intros [->|[->|?%elem_of_nil]%elem_of_cons]%elem_of_cons; [| |done].
    + split.
      { intros fn ->%list_elem_of_singleton. by left. }
      split.
      { exists [autoencoder "Person" 0 [9; 1];
                autoencoder "Person" 1 [10; 1]],
               (autoencoder "Person" 0 [9; 1]).
        split; [by vm_compute|]. split; [done|]. split.
        - repeat constructor; apply autoencoder_contract.
        - vm_compute. lia. }
      split.
      { exists (projector "Person" 10 9).
        split; [by vm_compute | apply projector_contract]. }
      intros _. split.
      * intros rel ->%list_elem_of_singleton.
        exists (summarizer TargetSide "authored" (Some 1)).
        split; [by vm_compute | apply summarizer_contract].
      * by intros _ rel ?%elem_of_nil.
    + split.
      { intros fn ->%list_elem_of_singleton. right. by left. }
      split.
      { exists [autoencoder "Doc" 0 [9; 1]; autoencoder "Doc" 1 [10; 1]],
               (autoencoder "Doc" 0 [9; 1]).
        split; [by vm_compute|]. split; [done|]. split.
        - repeat constructor; apply autoencoder_contract.
        - vm_compute. lia. }
      split.
      { exists (projector "Doc" 10 9).
        split; [by vm_compute | apply projector_contract]. }
      intros _. split.
      * by intros rel ?%elem_of_nil.
      * intros _ rel ->%list_elem_of_singleton.
        exists (summarizer SourceSide "authored" (Some 1)).
        split; [by vm_compute | apply summarizer_contract].
Qed.

Lemma batch_ok_g1 : batch_ok g1 the_batch.
Proof.
  split; [cbn; lia|]. split; [done|]. intros f. rewrite schema_g1.
  intros [->|[->|?%elem_of_nil]%elem_of_cons]%elem_of_cons; [| |done].
  - exists (mkTensor 1 [[Num 30]; [NaN]; [NaN]]). by vm_compute.
  - exists (mkTensor 2 [[Num 0; Num 0]; [Num 0; Num 0]; [Num 4; Num 5]]).
    by vm_compute.
Qed.

Lemma adjacency_ok_no_edges : adjacency_ok the_batch no_edges.
Proof.
  unfold no_edges. intros rel m index [_ <-]%lookup_singleton_Some Hi.
  exists (replicate 3 false). split; [by apply lookup_replicate_2 | done].
Qed.

Lemma edgeless_no_edges : edgeless no_edges "authored".
Proof.
  right. exists (replicate 3 (replicate 3 false)).
  split; [by vm_compute|]. intros index row [-> _]%lookup_replicate.
  by apply Forall_replicate.
Qed.

(** In the scenario at depth 1, [forward] returns when [authored] is
    missing from the adjacency and when its matrix is all false; in the
    first case the block of [authored] in the depth-1 input of an entity
    type is zero and one column wide. *)
Lemma C6_edgeless_relation_witness :
  (is_ok (forward g1 the_batch ∅) = true ∧
   (∀ ix prev d st et st',
      propagate_entity g1 the_batch ∅ ix prev d st et = Ok st' →
      ∃ output input reps,
        deeper_input g1 the_batch ∅ ix prev st et = Ok (output, input) ∧
        autoencoder_inputs st' !! et_name et = Some input ∧
        (∃ aes ae o bns,
           entity_autoencoders g1 !! et_name et = Some aes ∧ ae ∈ aes ∧
           ae_apply ae input = Ok (Some o, bns)) ∧
        other_reps g1 the_batch ∅ ix prev et = Ok reps ∧
        zero_block_input g1 1 "authored" et output input reps) ∧
   (∀ ix st0 st et,
      propagate g1 the_batch ∅ ix st0 = Ok st →
      0 < depth g1 →
      NoDup (et_name <$> s_entity_types (schema g1)) →
      et ∈ s_entity_types (schema g1) →
      ∃ output input reps,
        autoencoder_inputs st !! et_name et = Some input ∧
        zero_block_input g1 1 "authored" et output input reps)) ∧
  is_ok (forward g1 the_batch no_edges) = true.
Proof.
  split.
  - apply (C6_edgeless_relation g1 the_batch ∅ 1 "authored").
    + apply model_ok_g1.
    + apply batch_ok_g1.
    + intros rel m index Hm. by rewrite lookup_empty in Hm.
    + by left.
  - apply (C6_edgeless_relation g1 the_batch no_edges 1 "authored").
    + apply model_ok_g1.
    + apply batch_ok_g1.
    + apply adjacency_ok_no_edges.
    + apply edgeless_no_edges.
Defined.

End ScenarioRuns.
